(** * snetdev: address expansion, probe classification, retry policy and
    the bounded-concurrency probe session

    A shallow embedding of [main.go] and [ping.go].

    - Go's [byte], [uint32], [uint64] and [int] are modelled as [Z] with
    the wrap-around written out where the source can overflow.
    - A [[]byte] slice ([net.IP], [net.IPMask]) is a [list Z].
    - Go strings are [string] (sequences of bytes).
    - Loops that the source does not bound are given fuel; running out of
    fuel is reported as [Running], never as a result. *)

From Stdlib Require Import ZArith List String Ascii Bool Lia Permutation.
Import ListNotations.
Local Open Scope Z_scope.

(** ** Byte slices *)

Definition byte_ok (b : Z) : Prop := 0 <= b < 256.

Definition bytes_ok (l : list Z) : Prop := Forall byte_ok l.

(** [ip[i]] on a slice; the program only indexes slices of known length. *)
Definition idx (l : list Z) (i : nat) : Z := nth i l 0.

(** [ip[i] = v] *)
Fixpoint set_idx (l : list Z) (i : nat) (v : Z) : list Z :=
  match l, i with
  | [], _ => []
  | _ :: t, O => v :: t
  | h :: t, S j => h :: set_idx t j v
  end.

Fixpoint map2 {A B C} (f : A -> B -> C) (l : list A) (m : list B) : list C :=
  match l, m with
  | a :: l', b :: m' => f a b :: map2 f l' m'
  | _, _ => []
  end.

Fixpoint list_eqb (l m : list Z) : bool :=
  match l, m with
  | [], [] => true
  | a :: l', b :: m' => (a =? b) && list_eqb l' m'
  | _, _ => false
  end.

(** ** The parts of Go's [net] package the expander calls *)

Module Net.

Definition IP := list Z.
Definition IPMask := list Z.

Record IPNet := mkIPNet { net_IP : IP; net_Mask : IPMask }.

Definition IPv4len : nat := 4.
Definition IPv6len : nat := 16.

Definition v4InV6Prefix : list Z := [0; 0; 0; 0; 0; 0; 0; 0; 0; 0; 255; 255].

Definition isZeros (p : list Z) : bool := forallb (Z.eqb 0) p.
Definition allFF (p : list Z) : bool := forallb (Z.eqb 255) p.

(** [net.IPv4(a, b, c, d)]: the 16-byte form. *)
Definition IPv4 (a b c d : Z) : IP := v4InV6Prefix ++ [a; b; c; d].

(** [ip.To4()]; [None] is the nil slice. *)
Definition To4 (ip : IP) : option IP :=
  if (List.length ip =? IPv4len)%nat then Some ip
  else if (List.length ip =? IPv6len)%nat && isZeros (firstn 10 ip)
          && (idx ip 10 =? 255) && (idx ip 11 =? 255)
       then Some (firstn 4 (skipn 12 ip))
       else None.

(** [ip.Mask(mask)] *)
Definition Mask (ip : IP) (mask : IPMask) : option IP :=
  let mask :=
    if (List.length mask =? IPv6len)%nat && (List.length ip =? IPv4len)%nat
       && allFF (firstn 12 mask)
    then skipn 12 mask else mask in
  let ip :=
    if (List.length mask =? IPv4len)%nat && (List.length ip =? IPv6len)%nat
       && list_eqb (firstn 12 ip) v4InV6Prefix
    then skipn 12 ip else ip in
  if (List.length ip =? List.length mask)%nat then Some (map2 Z.land ip mask) else None.

(** [net.CIDRMask(ones, bits)] *)
Fixpoint CIDRMask_loop (l : nat) (n : Z) : list Z :=
  match l with
  | O => []
  | S l' =>
      if n >=? 8 then 255 :: CIDRMask_loop l' (n - 8)
      else Z.lxor 255 (Z.shiftr 255 n) :: CIDRMask_loop l' 0
  end.

Definition CIDRMask (ones bits : Z) : option IPMask :=
  if negb (bits =? 32) && negb (bits =? 128) then None
  else if (ones <? 0) || (ones >? bits) then None
  else Some (CIDRMask_loop (Z.to_nat (bits / 8)) ones).

(** [simpleMaskLength]: [-1] for a mask that is not a run of ones
    followed by zeros. *)
Fixpoint count_ones (fuel : nat) (v n : Z) : Z * Z :=
  match fuel with
  | O => (v, n)
  | S f =>
      if Z.land v 128 =? 0 then (v, n)
      else count_ones f ((v * 2) mod 256) (n + 1)
  end.

Fixpoint simpleMaskLength_from (mask : list Z) (n : Z) : Z :=
  match mask with
  | [] => n
  | v :: rest =>
      if v =? 255 then simpleMaskLength_from rest (n + 8)
      else
        let '(v', n') := count_ones 8 v n in
        if negb (v' =? 0) then -1
        else if isZeros rest then n' else -1
  end.

Definition simpleMaskLength (mask : IPMask) : Z := simpleMaskLength_from mask 0.

(** [m.Size()] *)
Definition Size (m : IPMask) : Z * Z :=
  let ones := simpleMaskLength m in
  if ones =? -1 then (0, 0) else (ones, Z.of_nat (List.length m) * 8).

(** [networkNumberAndMask]; the pair of nil slices is [([], [])]. *)
Definition networkNumberAndMask (n : IPNet) : IP * IPMask :=
  let ip4 := To4 (net_IP n) in
  let ip := match ip4 with Some x => x | None => net_IP n end in
  if match ip4 with
     | Some _ => false
     | None => negb (List.length ip =? IPv6len)%nat
     end
  then ([], [])
  else
    let m := net_Mask n in
    if (List.length m =? IPv4len)%nat then
      if negb (List.length ip =? IPv4len)%nat then ([], []) else (ip, m)
    else if (List.length m =? IPv6len)%nat then
      if (List.length ip =? IPv4len)%nat then (ip, skipn 12 m) else (ip, m)
    else ([], []).

(** [n.Contains(ip)]: the lengths agree, and so does every byte under
    the mask. *)
Definition Contains (n : IPNet) (ip : IP) : bool :=
  let '(nn, m) := networkNumberAndMask n in
  let ip := match To4 ip with Some x => x | None => ip end in
  if negb (List.length ip =? List.length nn)%nat then false
  else list_eqb (map2 Z.land nn m) (map2 Z.land ip m).

(** [ubtoa]: a byte in decimal, without leading zeros. *)
Definition digit (d : Z) : ascii := ascii_of_nat (48 + Z.to_nat d).

Definition ubtoa (v : Z) : string :=
  if v <? 10 then String (digit v) EmptyString
  else if v <? 100 then
    String (digit (v / 10)) (String (digit (v mod 10)) EmptyString)
  else
    String (digit (v / 100))
      (String (digit ((v / 10) mod 10)) (String (digit (v mod 10)) EmptyString)).

(** [ip.String()] for a four-byte address: dotted decimal. *)
Definition dotted (a b c d : Z) : string :=
  (ubtoa a ++ "." ++ ubtoa b ++ "." ++ ubtoa c ++ "." ++ ubtoa d)%string.

End Net.

(** [net.IPv4(current[0], current[1], current[2], current[3]).String()]:
    [IPv4] builds the 16-byte form, [String] prints its last four bytes. *)
Definition IPv4_String (current : list Z) : string :=
  match Net.To4 (Net.IPv4 (idx current 0) (idx current 1) (idx current 2) (idx current 3)) with
  | Some p4 => Net.dotted (idx p4 0) (idx p4 1) (idx p4 2) (idx p4 3)
  | None => EmptyString
  end.

(** ** main.go *)

(** [incIP]: add one to the address held in the slice, last byte first,
    carrying while the incremented byte wrapped to zero. [n] is [i + 1]. *)
Fixpoint incIP_loop (n : nat) (ip : list Z) : list Z :=
  match n with
  | O => ip
  | S i =>
      let ip' := set_idx ip i ((idx ip i + 1) mod 256) in
      if negb (idx ip' i =? 0) then ip' else incIP_loop i ip'
  end.

Definition incIP (ip : list Z) : list Z := incIP_loop (List.length ip) ip.

(** [compareIP]: 1 when a > b, 0 when equal, -1 when a < b. [k] counts the
    iterations that remain of the four. *)
Fixpoint compareIP_loop (k : nat) (i : nat) (a b : list Z) : Z :=
  match k with
  | O => 0
  | S k' =>
      if idx a i >? idx b i then 1
      else if idx a i <? idx b i then -1
      else compareIP_loop k' (S i) a b
  end.

Definition compareIP (a b : list Z) : Z := compareIP_loop 4 0 a b.

(** The errors of the expander, one per [errors.New] / [fmt.Errorf] site,
    with the message of the site. *)
Inductive ExpandError : Type :=
| InvalidCIDR          (* parseCIDR: "无效的CIDR格式: %w", net.ParseCIDR failed *)
| CIDRNotIPv4          (* parseCIDR: "仅支持IPv4地址", both sites *)
| CIDRTooLarge         (* parseCIDR: "CIDR包含的IP数量过多，已终止解析" *)
| InvalidRangeSyntax   (* parseIPRange: "IP段格式错误，应为 起始IP-结束IP" *)
| InvalidAddress       (* parseIPRange: "起始或结束IP地址无效" *)
| RangeNotIPv4         (* parseIPRange: "仅支持IPv4地址段" *)
| InconsistentRange    (* parseIPRange: "起始IP不能大于结束IP" *)
| RangeTooLarge.       (* parseIPRange: "IP段包含的IP数量过多，已终止解析" *)

(** What a call has done once its fuel is spent. *)
Inductive outcome (A : Type) : Type :=
  | Returned (a : A)
  | Failed (e : ExpandError)
  | Running.

Arguments Returned {A} a.
Arguments Failed {A} e.
Arguments Running {A}.

(** [current := make([]byte, 4); copy(current, src)] *)
Definition copy4 (src : list Z) : list Z :=
  firstn 4 src ++ repeat 0 (4 - List.length src).

(** [uint32(b[0])<<24 | uint32(b[1])<<16 | uint32(b[2])<<8 | uint32(b[3])] *)
Definition uint32_of (b : list Z) : Z :=
  Z.lor (Z.lor (Z.lor (Z.shiftl (idx b 0) 24) (Z.shiftl (idx b 1) 16))
               (Z.shiftl (idx b 2) 8))
        (idx b 3).

(** [strings.Split(s, sep)] for a one-character separator. *)
Fixpoint Split_from (s : string) (sep : ascii) (cur : string) : list string :=
  match s with
  | EmptyString => [cur]
  | String c s' =>
      if Ascii.eqb c sep then cur :: Split_from s' sep EmptyString
      else Split_from s' sep (cur ++ String c EmptyString)
  end.

Definition Split (s : string) (sep : ascii) : list string :=
  Split_from s sep EmptyString.

(** The text functions of Go's library that the expander calls and whose
    code is not part of the repository. *)
Class GoText : Type := {
    TrimSpace : string -> string;
    ParseIP : string -> option Net.IP;
    ParseCIDR : string -> option (Net.IP * Net.IPNet)
  }.

(** What Go documents of them: addresses are byte slices, and
    [net.ParseCIDR] returns the mask [CIDRMask(n, bits)] together with the
    network obtained by applying that mask to the address. *)
Definition GoText_ok (go : GoText) : Prop :=
  (forall s ip, ParseIP s = Some ip -> bytes_ok ip) /\
  (forall s ip n, ParseCIDR s = Some (ip, n) ->
     bytes_ok ip /\
     (exists ones bits, Net.CIDRMask ones bits = Some (Net.net_Mask n)) /\
     Net.Mask ip (Net.net_Mask n) = Some (Net.net_IP n)).

Section Expander.

Context {go : GoText}.

(** The loop of [parseIPRange]. *)
Fixpoint range_loop (fuel : nat) (current endBytes : list Z) (ips : list string)
  : outcome (list string) :=
  match fuel with
  | O => Running
  | S fuel' =>
      if compareIP current endBytes <=? 0
      then range_loop fuel' (incIP current) endBytes (ips ++ [IPv4_String current])
      else Returned ips
  end.

Definition parseIPRange (fuel : nat) (rangeStr : string) : outcome (list string) :=
  match Split rangeStr "-" with
  | [p0; p1] =>
      match ParseIP (TrimSpace p0), ParseIP (TrimSpace p1) with
      | Some startIP, Some endIP =>
          match Net.To4 startIP, Net.To4 endIP with
          | Some startBytes, Some endBytes =>
              if compareIP startBytes endBytes >? 0 then Failed InconsistentRange
              else
                let startVal := uint32_of startBytes in
                let endVal := uint32_of endBytes in
                let count := (endVal - startVal + 1) mod 2 ^ 32 in
                if count >? 1000000 then Failed RangeTooLarge
                else range_loop fuel (copy4 startBytes) endBytes []
          | _, _ => Failed RangeNotIPv4
          end
      | _, _ => Failed InvalidAddress
      end
  | _ => Failed InvalidRangeSyntax
  end.

(** The loop of [parseCIDR]. *)
Fixpoint cidr_loop (fuel : nat) (ipNet : Net.IPNet) (current : list Z)
    (ips : list string) : outcome (list string) :=
  match fuel with
  | O => Running
  | S fuel' =>
      if Net.Contains ipNet current
      then cidr_loop fuel' ipNet (incIP current) (ips ++ [IPv4_String current])
      else Returned ips
  end.

Definition parseCIDR (fuel : nat) (cidr : string) : outcome (list string) :=
  match ParseCIDR cidr with
  | None => Failed InvalidCIDR
  | Some (ip, ipNet) =>
      match Net.To4 ip with
      | None => Failed CIDRNotIPv4
      | Some _ =>
          let '(ones, bits) := Net.Size (Net.net_Mask ipNet) in
          if negb (bits =? 32) then Failed CIDRNotIPv4
          else
            let shift := (32 - ones) mod 2 ^ 64 in
            let total := if shift <? 64 then Z.shiftl 1 shift else 0 in
            if total >? 1000000 then Failed CIDRTooLarge
            else
              let start :=
                match Net.Mask ip (Net.net_Mask ipNet) with
                | Some m => match Net.To4 m with Some s => s | None => [] end
                | None => []
                end in
              cidr_loop fuel ipNet (copy4 start) []
      end
  end.

End Expander.


(** ** Dotted-decimal text

    The IPv4 path of Go's address-text functions ([netip.parseIPv4],
    [dtoi]), enough to run the expander on dotted-decimal lines. Text in
    IPv6 notation is not accepted by this instance. *)

Definition is_digit (c : ascii) : bool :=
  let n := nat_of_ascii c in ((48 <=? n) && (n <=? 57))%nat.

Definition digit_val (c : ascii) : Z := Z.of_nat (nat_of_ascii c) - 48.

Definition is_empty (s : string) : bool :=
  match s with EmptyString => true | String _ _ => false end.

(** [first]: the index is 0; [prevDot]: the byte before was a dot. *)
Fixpoint parseIPv4_loop (s : string) (first prevDot : bool)
    (fields : list Z) (val digLen : Z) : option (list Z) :=
  match s with
  | EmptyString =>
      if (List.length fields <? 3)%nat then None else Some (fields ++ [val])
  | String c rest =>
      if is_digit c then
        if (digLen =? 1) && (val =? 0) then None
        else
          let val' := val * 10 + digit_val c in
          if val' >? 255 then None
          else parseIPv4_loop rest false false fields val' (digLen + 1)
      else if Ascii.eqb c "." then
        if first || is_empty rest || prevDot then None
        else if (List.length fields =? 3)%nat then None
        else parseIPv4_loop rest false true (fields ++ [val]) 0 0
      else None
  end.

Definition parseIPv4 (s : string) : option (list Z) :=
  parseIPv4_loop s true false [] 0 0.

Fixpoint dtoi_loop (s : string) (n : Z) (i : nat) : option Z :=
  match s with
  | EmptyString => if (i =? 0)%nat then None else Some n
  | String c rest =>
      if is_digit c then
        let n' := n * 10 + digit_val c in
        if n' >=? 16777215 then None else dtoi_loop rest n' (S i)
      else None
  end.

(** [dtoi] when it is required to consume the whole text. *)
Definition dtoi (s : string) : option Z := dtoi_loop s 0 0.

Fixpoint cut_from (s : string) (sep : ascii) (before : string)
  : option (string * string) :=
  match s with
  | EmptyString => None
  | String c rest =>
      if Ascii.eqb c sep then Some (before, rest)
      else cut_from rest sep (before ++ String c EmptyString)
  end.

Definition is_space (c : ascii) : bool :=
  match nat_of_ascii c with
  | 9%nat | 10%nat | 11%nat | 12%nat | 13%nat | 32%nat => true
  | _ => false
  end.

Fixpoint trim_left (s : string) : string :=
  match s with
  | EmptyString => EmptyString
  | String c rest => if is_space c then trim_left rest else s
  end.

Fixpoint trim_right (s : string) : string :=
  match s with
  | EmptyString => EmptyString
  | String c rest =>
      let rest' := trim_right rest in
      if is_space c && is_empty rest' then EmptyString else String c rest'
  end.

Definition text_ParseIP (s : string) : option Net.IP :=
  match parseIPv4 s with
  | Some [a; b; c; d] => Some (Net.IPv4 a b c d)
  | _ => None
  end.

Definition text_ParseCIDR (s : string) : option (Net.IP * Net.IPNet) :=
  match cut_from s "/" EmptyString with
  | None => None
  | Some (addr, mask) =>
      match text_ParseIP addr, dtoi mask with
      | Some ip, Some n =>
          if n >? 32 then None
          else
            match Net.CIDRMask n 32 with
            | Some m =>
                match Net.Mask ip m with
                | Some network => Some (ip, Net.mkIPNet network m)
                | None => None
                end
            | None => None
            end
      | _, _ => None
      end
  end.

#[export] Instance DottedText : GoText := {|
  TrimSpace := fun s => trim_right (trim_left s);
  ParseIP := text_ParseIP;
  ParseCIDR := text_ParseCIDR
|}.

(** ** ping.go: the classifier of a probe's output *)

(** [strings.ToLower] on ASCII letters; other bytes are kept. Text whose
    non-ASCII letters Go would also fold is outside the model. *)
Definition lower (c : ascii) : ascii :=
  let n := nat_of_ascii c in
  if ((65 <=? n) && (n <=? 90))%nat then ascii_of_nat (n + 32) else c.

Fixpoint ToLower (s : string) : string :=
  match s with
  | EmptyString => EmptyString
  | String c rest => String (lower c) (ToLower rest)
  end.

(** The character classes of Go's regexp syntax: [\d], [\s] and [\w] are
    ASCII classes, and [\b] is the ASCII word boundary. *)
Definition class_d (c : ascii) : bool := is_digit c.

Definition class_s (c : ascii) : bool :=
  match nat_of_ascii c with
  | 9%nat | 10%nat | 12%nat | 13%nat | 32%nat => true
  | _ => false
  end.

Definition class_w (c : ascii) : bool :=
  let n := nat_of_ascii c in
  (((48 <=? n) && (n <=? 57)) || ((65 <=? n) && (n <=? 90))
   || ((97 <=? n) && (n <=? 122)) || (n =? 95))%nat.

Definition word_at (c : option ascii) : bool :=
  match c with Some c => class_w c | None => false end.

(** The pieces the three patterns are made of. [Rep cls min cap] is a
    greedy repetition of the class, at least [min] times; [cap] marks
    the capturing group [(\d+)], which is [m[2]] in the source. *)
Inductive atom : Type :=
| WordBoundary
| Rep (cls : ascii -> bool) (min : nat) (cap : bool)
| Lit (s : string).

Definition head (s : string) : option ascii :=
  match s with EmptyString => None | String c _ => Some c end.

Fixpoint drop (k : nat) (s : string) : string :=
  match k, s with
  | S k', String _ rest => drop k' rest
  | _, _ => s
  end.

Fixpoint take (k : nat) (s : string) : string :=
  match k, s with
  | S k', String c rest => String c (take k' rest)
  | _, _ => EmptyString
  end.

Fixpoint last_char (prev : option ascii) (s : string) : option ascii :=
  match s with
  | EmptyString => prev
  | String c rest => last_char (Some c) rest
  end.

(** Length of the longest run of [cls] at the head of [s]. *)
Fixpoint run_length (cls : ascii -> bool) (s : string) : nat :=
  match s with
  | EmptyString => O
  | String c rest => if cls c then S (run_length cls rest) else O
  end.

(** A literal under [(?i)]: equal up to the case of ASCII letters. The
    two non-ASCII letters that Go folds to [s] and [k] are outside the
    model. *)
Fixpoint lit_prefix (l s : string) : bool :=
  match l, s with
  | EmptyString, _ => true
  | String a l', String b s' => Ascii.eqb (lower a) (lower b) && lit_prefix l' s'
  | String _ _, EmptyString => false
  end.

(** Match the pattern at the head of [s], [prev] being the byte before it.
    Repetitions are tried longest first. The result is the text of the
    capturing group. *)
Fixpoint match_here (pat : list atom) (prev : option ascii) (s : string)
    (cap : string) : option string :=
  match pat with
  | [] => Some cap
  | WordBoundary :: rest =>
      if xorb (word_at prev) (word_at (head s)) then match_here rest prev s cap
      else None
  | Lit l :: rest =>
      if lit_prefix l s
      then match_here rest (last_char prev (take (String.length l) s))
             (drop (String.length l) s) cap
      else None
  | Rep cls min capture :: rest =>
      (fix try (k : nat) : option string :=
         let here :=
           if (min <=? k)%nat
           then match_here rest (last_char prev (take k s)) (drop k s)
                  (if capture then take k s else cap)
           else None in
         match here with
         | Some r => Some r
         | None => match k with O => None | S k' => try k' end
         end) (run_length cls s)
  end.

(** The leftmost match. *)
Fixpoint find_from (pat : list atom) (prev : option ascii) (s : string)
  : option string :=
  match match_here pat prev s EmptyString with
  | Some cap => Some cap
  | None =>
      match s with
      | EmptyString => None
      | String c rest => find_from pat (Some c) rest
      end
  end.

(** [re.FindStringSubmatch(s)], reduced to its group 2; [None] is no
    match. *)
Definition FindStringSubmatch (pat : list atom) (s : string) : option string :=
  find_from pat None s.

(** [(?i)(\b(\d+)\s+received\b)] *)
Definition reReceived : list atom :=
  [WordBoundary; Rep class_d 1 true; Rep class_s 1 false; Lit "received"; WordBoundary].

(** [(?i)(\b(\d+)\s+packets\s+received\b)] *)
Definition rePacketsReceived : list atom :=
  [WordBoundary; Rep class_d 1 true; Rep class_s 1 false; Lit "packets";
   Rep class_s 1 false; Lit "received"; WordBoundary].

(** [(?i)(\b(\d+)%\s*packet\s*loss\b)] *)
Definition reLoss : list atom :=
  [WordBoundary; Rep class_d 1 true; Lit "%"; Rep class_s 0 false; Lit "packet";
   Rep class_s 0 false; Lit "loss"; WordBoundary].

Fixpoint prefix_of (p s : string) : bool :=
  match p, s with
  | EmptyString, _ => true
  | String a p', String b s' => Ascii.eqb a b && prefix_of p' s'
  | String _ _, EmptyString => false
  end.

(** [strings.Contains(s, substr)] *)
Fixpoint Contains (s substr : string) : bool :=
  prefix_of substr s
  || match s with
     | EmptyString => false
     | String _ rest => Contains rest substr
     end.

Definition string_of_bytes (l : list nat) : string :=
  fold_right (fun n s => String (ascii_of_nat n) s) EmptyString l.

(** The two localized indicators, as their UTF-8 bytes. *)
Definition indicator_received_zh : string :=
  string_of_bytes [229; 183; 178; 230; 142; 165; 230; 148; 182]%nat.

Definition indicator_from_zh : string :=
  string_of_bytes [230; 157; 165; 232; 135; 170]%nat.

Definition indicators : list string :=
  ["bytes from"; "ttl="; "time="; indicator_received_zh; indicator_from_zh]%string.

Definition parsePingOutputSuccess (output : string) : bool :=
  let low := ToLower output in
  if match FindStringSubmatch reReceived low with
     | Some m2 => negb (String.eqb m2 "0")
     | None => false
     end
  then true
  else if match FindStringSubmatch rePacketsReceived low with
          | Some m2 => negb (String.eqb m2 "0")
          | None => false
          end
  then true
  else if match FindStringSubmatch reLoss low with
          | Some m2 => String.eqb m2 "0"
          | None => false
          end
  then true
  else existsb (Contains low) indicators.

(** ** ping.go: the retry policy *)

(** [int] is 64 bits wide and [time.Duration] counts nanoseconds. *)
Record PingConfig : Type := mkPingConfig {
  MaxAttempts : Z;
  SuccessNeed : Z;
  ConsecutiveFailStop : Z;
  Timeout : Z;
  AttemptInterval : Z
}.

Definition defaultPingConfig : PingConfig :=
  {| MaxAttempts := 5; SuccessNeed := 2; ConsecutiveFailStop := 3;
     Timeout := 2 * 1000000000; AttemptInterval := 1 * 1000000000 |}.

(** The counters of one campaign. *)
Record Counters : Type := mkCounters {
  successes : Z;
  consecFails : Z;
  attempts : Z
}.

(** [evaluatePingSequence], with the counters it ends on. *)
Fixpoint evaluate_loop (results : list bool)
    (maxAttempts successNeed consecutiveFailStop : Z) (st : Counters)
  : bool * Counters :=
  match results with
  | [] => (successes st >=? successNeed, st)
  | r :: rest =>
      if attempts st >=? maxAttempts then (successes st >=? successNeed, st)
      else
        let attempts' := attempts st + 1 in
        if r then
          let st' := mkCounters (successes st + 1) 0 attempts' in
          if successes st' >=? successNeed then (true, st')
          else evaluate_loop rest maxAttempts successNeed consecutiveFailStop st'
        else
          let st' := mkCounters (successes st) (consecFails st + 1) attempts' in
          if consecFails st' >=? consecutiveFailStop then (false, st')
          else evaluate_loop rest maxAttempts successNeed consecutiveFailStop st'
  end.

Definition evaluatePingSequence (results : list bool)
    (maxAttempts successNeed consecutiveFailStop : Z) : bool :=
  fst (evaluate_loop results maxAttempts successNeed consecutiveFailStop
         (mkCounters 0 0 0)).

Definition attemptsTaken (results : list bool)
    (maxAttempts successNeed consecutiveFailStop : Z) : Z :=
  attempts (snd (evaluate_loop results maxAttempts successNeed consecutiveFailStop
                   (mkCounters 0 0 0))).

(** Which [return] of [pingWithRetry] ended the campaign. *)
Inductive Exit : Type :=
| NoAttempt             (* maxRetries <= 0 *)
| SuccessThreshold      (* successes >= successNeed *)
| ConsecutiveFailures   (* consecFails >= consecFailStop *)
| Exhausted.            (* the last attempt, or the end of the loop *)

Record Campaign : Type := mkCampaign {
  verdict : bool;
  taken : Z;
  exit : Exit
}.

(** One run of the ping command: whether [err == nil], and the output. *)
Definition Probe : Type := Z -> bool * string.

Definition math_MaxInt32 : Z := 2147483647.

(** The loop of [pingWithRetry]; [remaining] is [maxRetries - i]. The
    sleep between attempts does not bear on the result and is left out. *)
Fixpoint retry_loop (remaining : nat) (i : Z)
    (maxRetries successNeed consecFailStop : Z) (probe : Probe)
    (successes consecFails : Z) : Campaign :=
  match remaining with
  | O => mkCampaign (successes >=? successNeed) i Exhausted
  | S remaining' =>
      let '(errNil, out) := probe i in
      let ok := if errNil then true else parsePingOutputSuccess out in
      if ok then
        let successes := successes + 1 in
        let consecFails := 0 in
        if successes >=? successNeed then mkCampaign true (i + 1) SuccessThreshold
        else if i =? maxRetries - 1
        then mkCampaign (successes >=? successNeed) (i + 1) Exhausted
        else retry_loop remaining' (i + 1) maxRetries successNeed consecFailStop
               probe successes consecFails
      else
        let consecFails := consecFails + 1 in
        if consecFails >=? consecFailStop
        then mkCampaign false (i + 1) ConsecutiveFailures
        else if i =? maxRetries - 1
        then mkCampaign (successes >=? successNeed) (i + 1) Exhausted
        else retry_loop remaining' (i + 1) maxRetries successNeed consecFailStop
               probe successes consecFails
  end.

Definition pingWithRetry_run (cfg : PingConfig) (probe : Probe) : Campaign :=
  let maxRetries := MaxAttempts cfg in
  let successNeed := SuccessNeed cfg in
  let consecFailStop := ConsecutiveFailStop cfg in
  if maxRetries <=? 0 then mkCampaign false 0 NoAttempt
  else
    let successNeed := if successNeed <=? 0 then 1 else successNeed in
    let consecFailStop :=
      if consecFailStop <=? 0 then math_MaxInt32 else consecFailStop in
    retry_loop (Z.to_nat maxRetries) 0 maxRetries successNeed consecFailStop
      probe 0 0.

(** [pingWithRetry(ip, cfg)]: the address only names the target of the
    probes. *)
Definition pingWithRetry (ip : string) (cfg : PingConfig) (probe : Probe) : bool :=
  verdict (pingWithRetry_run cfg probe).

(** ** ping.go: the probe session

    [PingIPsWithConfig] runs a main goroutine, one goroutine per address
    and one goroutine that closes the result channel. They are modelled
    as one state and one transition per statement that touches shared
    state (the semaphore channel, the result channel, the wait group);
    a schedule is the order in which the goroutines take their steps.
    [pingRunner] is a function variable that runs the ping command, so
    what it returns is an input to the step that leaves [Probing]. The
    deferred [close(semaphore)] runs after the [return] and is not part
    of the result. *)

Record ipResult : Type := mkResult { ip : string; success : bool }.

(** Where a probing goroutine stands. *)
Inductive TaskPC : Type :=
| Probing                  (* in [pingRunner(ip, cfg)] *)
| Sending (ok : bool)      (* at [resultChan <- ipResult{ip, success}] *)
| Releasing (ok : bool)    (* at the deferred [<-semaphore] *)
| Finishing (ok : bool)    (* at the deferred [wg.Done()] *)
| Finished (ok : bool).

(** Where the main goroutine stands. *)
Inductive MainPC : Type :=
| LoopHead (rest : list string)              (* [for _, ip := range ips] *)
| Acquire (ip : string) (rest : list string) (* at [semaphore <- struct{}{}] *)
| Spawn (ip : string) (rest : list string)   (* at [go func(ip string) {...}(ip)] *)
| Collect                                    (* [for res := range resultChan] *)
| Returns.                                   (* [return successIPs, failedIPs, nil] *)

(** Where the goroutine of step 4 stands. *)
Inductive CloserPC : Type :=
| NotStarted
| Waiting                                    (* at [wg.Wait()] *)
| Closed.                                    (* after [close(resultChan)] *)

Record Session : Type := mkSession {
  main : MainPC;
  tasks : list (string * TaskPC);
  semaphore : Z;               (* elements in the semaphore channel *)
  resultChan : list ipResult;  (* elements in the result channel, oldest first *)
  resultClosed : bool;
  wg : Z;
  closer : CloserPC;
  successIPs : list string;
  failedIPs : list string
}.

Inductive label : Type :=
| StepMain
| StepCloser
| StepTask (i : nat) (ok : bool).  (* [ok]: what [pingRunner] returns *)

Definition set_task (ts : list (string * TaskPC)) (i : nat) (pc : TaskPC)
  : list (string * TaskPC) :=
  firstn i ts ++
  match skipn i ts with
  | [] => []
  | (a, _) :: rest => (a, pc) :: rest
  end.

(** One step of the main goroutine; [None] when it is blocked or has
    returned. *)
Definition step_main (concurrency : Z) (s : Session) : option Session :=
  match main s with
  | LoopHead [] =>
      (* the loop is over: start the closing goroutine, go on to collect *)
      Some (mkSession Collect (tasks s) (semaphore s) (resultChan s)
              (resultClosed s) (wg s) Waiting (successIPs s) (failedIPs s))
  | LoopHead (a :: rest) =>
      (* wg.Add(1) *)
      Some (mkSession (Acquire a rest) (tasks s) (semaphore s) (resultChan s)
              (resultClosed s) (wg s + 1) (closer s) (successIPs s) (failedIPs s))
  | Acquire a rest =>
      (* semaphore <- struct{}{} blocks while the channel is full *)
      if semaphore s <? concurrency then
        Some (mkSession (Spawn a rest) (tasks s) (semaphore s + 1) (resultChan s)
                (resultClosed s) (wg s) (closer s) (successIPs s) (failedIPs s))
      else None
  | Spawn a rest =>
      Some (mkSession (LoopHead rest) (tasks s ++ [(a, Probing)]) (semaphore s)
              (resultChan s) (resultClosed s) (wg s) (closer s)
              (successIPs s) (failedIPs s))
  | Collect =>
      match resultChan s with
      | res :: more =>
          if success res then
            Some (mkSession Collect (tasks s) (semaphore s) more (resultClosed s)
                    (wg s) (closer s) (successIPs s ++ [ip res]) (failedIPs s))
          else
            Some (mkSession Collect (tasks s) (semaphore s) more (resultClosed s)
                    (wg s) (closer s) (successIPs s) (failedIPs s ++ [ip res]))
      | [] =>
          if resultClosed s then
            Some (mkSession Returns (tasks s) (semaphore s) [] (resultClosed s)
                    (wg s) (closer s) (successIPs s) (failedIPs s))
          else None
      end
  | Returns => None
  end.

(** One step of the closing goroutine: [wg.Wait()] returns when the
    counter is zero, then [close(resultChan)]. *)
Definition step_closer (s : Session) : option Session :=
  match closer s with
  | Waiting =>
      if wg s =? 0 then
        Some (mkSession (main s) (tasks s) (semaphore s) (resultChan s) true
                (wg s) Closed (successIPs s) (failedIPs s))
      else None
  | _ => None
  end.

(** One step of the goroutine of the [i]-th address. [capacity] is the
    capacity of the result channel, [len(ips)]. *)
Definition step_task (capacity : nat) (i : nat) (ok : bool) (s : Session)
  : option Session :=
  match nth_error (tasks s) i with
  | None => None
  | Some (a, pc) =>
      match pc with
      | Probing =>
          Some (mkSession (main s) (set_task (tasks s) i (Sending ok)) (semaphore s)
                  (resultChan s) (resultClosed s) (wg s) (closer s)
                  (successIPs s) (failedIPs s))
      | Sending b =>
          if (List.length (resultChan s) <? capacity)%nat then
            Some (mkSession (main s) (set_task (tasks s) i (Releasing b)) (semaphore s)
                    (resultChan s ++ [mkResult a b]) (resultClosed s) (wg s)
                    (closer s) (successIPs s) (failedIPs s))
          else None
      | Releasing b =>
          if 0 <? semaphore s then
            Some (mkSession (main s) (set_task (tasks s) i (Finishing b))
                    (semaphore s - 1) (resultChan s) (resultClosed s) (wg s)
                    (closer s) (successIPs s) (failedIPs s))
          else None
      | Finishing b =>
          Some (mkSession (main s) (set_task (tasks s) i (Finished b)) (semaphore s)
                  (resultChan s) (resultClosed s) (wg s - 1) (closer s)
                  (successIPs s) (failedIPs s))
      | Finished _ => None
      end
  end.

Definition step (concurrency : Z) (capacity : nat) (l : label) (s : Session)
  : option Session :=
  match l with
  | StepMain => step_main concurrency s
  | StepCloser => step_closer s
  | StepTask i ok => step_task capacity i ok s
  end.

Fixpoint run (concurrency : Z) (capacity : nat) (schedule : list label) (s : Session)
  : option Session :=
  match schedule with
  | [] => Some s
  | l :: rest =>
      match step concurrency capacity l s with
      | Some s' => run concurrency capacity rest s'
      | None => None
      end
  end.

(** The state after the two channels and the wait group are made. *)
Definition start (ips : list string) : Session :=
  mkSession (LoopHead ips) [] 0 [] false 0 NotStarted [] [].

Inductive SessionResult : Type :=
| InvalidConcurrency                          (* the error return *)
| Partition (reachable unreachable : list string).

(** [PingIPsWithConfig(ips, concurrency, cfg)] under a schedule of its
    goroutines: [Some] when the schedule takes the call to a [return]. *)
Definition PingIPsWithConfig (ips : list string) (concurrency : Z)
    (cfg : PingConfig) (schedule : list label) : option SessionResult :=
  if concurrency <=? 0 then Some InvalidConcurrency
  else if (List.length ips =? 0)%nat then Some (Partition [] [])
  else
    match run concurrency (List.length ips) schedule (start ips) with
    | Some s =>
        match main s with
        | Returns => Some (Partition (successIPs s) (failedIPs s))
        | _ => None
        end
    | None => None
    end.

(** [PingIPs]: the session under [defaultPingConfig]. *)
Definition PingIPs (ips : list string) (concurrency : Z) (schedule : list label)
  : option SessionResult :=
  PingIPsWithConfig ips concurrency defaultPingConfig schedule.

(** ** ipfile.go *)

(** The errors of [ParseIPFile], one per [fmt.Errorf] site. *)
Inductive FileError : Type :=
| OpenFailed                                      (* "打开文件失败: %w" *)
| CIDRLineFailed (lineNum : Z) (e : ExpandError)  (* "第%d行解析CIDR失败: %w" *)
| RangeLineFailed (lineNum : Z) (e : ExpandError) (* "第%d行解析IP段失败: %w" *)
| InvalidIPLine (lineNum : Z) (line : string)     (* "第%d行无效的IP地址: %s" *)
| ReadFailed.                                     (* "读取文件内容失败: %w" *)

Inductive file_outcome : Type :=
| FileReturned (ipList : list string)
| FileFailed (e : FileError)
| FileRunning.

(** What the file system hands to [ParseIPFile] once [os.Open] has
    succeeded: the texts [scanner.Text()] yields, one per [scanner.Scan()],
    and whether [scanner.Err()] is non-nil after the last of them. *)
Record Opened : Type := mkOpened { scanned : list string; scanErr : bool }.

Section File.

Context {go : GoText}.

(** The loop [for scanner.Scan() { ... }]; [lineNum] is the counter
    before the iteration. *)
Fixpoint scan_loop (fuel : nat) (texts : list string) (lineNum : Z)
    (ipList : list string) : file_outcome :=
  match texts with
  | [] => FileReturned ipList
  | text :: rest =>
      let lineNum := lineNum + 1 in
      let line := TrimSpace text in
      if is_empty line || prefix_of "#" line || prefix_of "//" line
      then scan_loop fuel rest lineNum ipList
      else if Contains line "/" then
        match parseCIDR fuel line with
        | Returned ips => scan_loop fuel rest lineNum (ipList ++ ips)
        | Failed e => FileFailed (CIDRLineFailed lineNum e)
        | Running => FileRunning
        end
      else if Contains line "-" then
        match parseIPRange fuel line with
        | Returned ips => scan_loop fuel rest lineNum (ipList ++ ips)
        | Failed e => FileFailed (RangeLineFailed lineNum e)
        | Running => FileRunning
        end
      else
        match ParseIP line with
        | None => FileFailed (InvalidIPLine lineNum line)
        | Some _ => scan_loop fuel rest lineNum (ipList ++ [line])
        end
  end.

(** [ParseIPFile(filename)]; [None] is a file that [os.Open] does not
    open. *)
Definition ParseIPFile (fuel : nat) (file : option Opened) : file_outcome :=
  match file with
  | None => FileFailed OpenFailed
  | Some f =>
      match scan_loop fuel (scanned f) 0 [] with
      | FileReturned ipList =>
          if scanErr f then FileFailed ReadFailed else FileReturned ipList
      | FileFailed e => FileFailed e
      | FileRunning => FileRunning
      end
  end.

End File.

(** ** Vocabulary of the statements *)

(** A four-byte address. *)
Definition ipv4_ok (b : list Z) : Prop := List.length b = 4%nat /\ bytes_ok b.

(** [s, s+1, ..., s+n-1] *)
Fixpoint Zseq (s : Z) (n : nat) : list Z :=
  match n with
  | O => []
  | S n' => s :: Zseq (s + 1) n'
  end.

(** [line] is a range line whose two parts parse as the IPv4 addresses
    [s] and [e]. *)
Definition range_line (go : GoText) (line : string) (s e : list Z) : Prop :=
  exists p0 p1 startIP endIP,
    Split line "-" = [p0; p1] /\
    ParseIP (TrimSpace p0) = Some startIP /\
    ParseIP (TrimSpace p1) = Some endIP /\
    Net.To4 startIP = Some s /\
    Net.To4 endIP = Some e.

(** [line] is a CIDR line [A/N]: it parses to an address whose IPv4 form
    is [a] and to the 32-bit mask of [N] leading ones. *)
Definition cidr_line (go : GoText) (line : string) (a : list Z) (N : Z) : Prop :=
  exists ip ipNet,
    ParseCIDR line = Some (ip, ipNet) /\
    Net.To4 ip = Some a /\
    Net.CIDRMask N 32 = Some (Net.net_Mask ipNet).

(** The network address of [a] under a prefix of [N] bits. *)
Definition network_of (a : list Z) (N : Z) : Z :=
  2 ^ (32 - N) * (uint32_of a / 2 ^ (32 - N)).

Definition byte_okb (b : Z) : bool := (0 <=? b) && (b <? 256).

(** What is checked of each prefix length by evaluation. *)
Definition mask_check (N : Z) : bool :=
  let m := Net.CIDRMask_loop 4 N in
  (List.length m =? 4)%nat && forallb byte_okb m
  && (uint32_of m =? 4294967296 - 2 ^ (32 - N))
  && (fst (Net.Size m) =? N) && (snd (Net.Size m) =? 32).

Fixpoint no_dot (s : string) : bool :=
  match s with
  | EmptyString => true
  | String c rest => negb (Ascii.eqb c ".") && no_dot rest
  end.

(** What is checked of each byte's decimal text by evaluation: it has no
    dot and reads back as the byte. *)
Definition ubtoa_check (v : Z) : bool :=
  no_dot (Net.ubtoa v)
  && match dtoi (Net.ubtoa v) with Some w => w =? v | None => false end.

(** The success threshold and the consecutive-failure threshold as
    [pingWithRetry] uses them. *)
Definition effective_need (cfg : PingConfig) : Z :=
  if SuccessNeed cfg <=? 0 then 1 else SuccessNeed cfg.

Definition effective_stop (cfg : PingConfig) : Z :=
  if ConsecutiveFailStop cfg <=? 0 then math_MaxInt32 else ConsecutiveFailStop cfg.

(** The outcome of attempt [i], as [pingWithRetry] reads it. *)
Definition attempt_ok (probe : Probe) (i : Z) : bool :=
  if fst (probe i) then true else parsePingOutputSuccess (snd (probe i)).

Definition with_need (cfg : PingConfig) (n : Z) : PingConfig :=
  {| MaxAttempts := MaxAttempts cfg; SuccessNeed := n;
     ConsecutiveFailStop := ConsecutiveFailStop cfg;
     Timeout := Timeout cfg; AttemptInterval := AttemptInterval cfg |}.

(** A probe that plays back a recorded sequence of outcomes, and fails
    once the record is over. *)
Definition replay (outcomes : list bool) : Probe :=
  fun i => (nth (Z.to_nat i) outcomes false, EmptyString).

(** A probe that fails its first 2,147,483,647 attempts and succeeds
    from then on. *)
Definition late_success : Probe :=
  fun i => (2147483647 <=? i, EmptyString).

(** *** Vocabulary of the session invariants *)

Definition is_probing (pc : TaskPC) : bool :=
  match pc with Probing => true | _ => false end.

(** The goroutine holds a slot of the semaphore. *)
Definition is_live (pc : TaskPC) : bool :=
  match pc with Probing | Sending _ | Releasing _ => true | _ => false end.

Definition is_unfinished (pc : TaskPC) : bool :=
  match pc with Finished _ => false | _ => true end.

Fixpoint countZ (f : TaskPC -> bool) (ts : list (string * TaskPC)) : Z :=
  match ts with
  | [] => 0
  | t :: rest => (if f (snd t) then 1 else 0) + countZ f rest
  end.

(** The result a goroutine has sent, if it has. *)
Definition sent_of (t : string * TaskPC) : list ipResult :=
  match snd t with
  | Releasing b | Finishing b | Finished b => [mkResult (fst t) b]
  | _ => []
  end.

Definition sent (ts : list (string * TaskPC)) : list ipResult :=
  flat_map sent_of ts.

(** The addresses the main loop has not launched yet. *)
Definition pending (m : MainPC) : list string :=
  match m with
  | LoopHead rest => rest
  | Acquire a rest | Spawn a rest => a :: rest
  | Collect | Returns => []
  end.

Definition results_of (reachable unreachable : list string) : list ipResult :=
  map (fun a => mkResult a true) reachable ++ map (fun a => mkResult a false) unreachable.

Definition holds_slot (m : MainPC) : Z :=
  match m with Spawn _ _ => 1 | _ => 0 end.

Definition holds_wg (m : MainPC) : Z :=
  match m with Acquire _ _ | Spawn _ _ => 1 | _ => 0 end.

Definition launching (m : MainPC) : bool :=
  match m with Collect | Returns => false | _ => true end.

Record Inv (ips : list string) (K : Z) (s : Session) : Prop := mkInv {
  inv_sem : semaphore s = countZ is_live (tasks s) + holds_slot (main s);
  inv_cap : semaphore s <= K;
  inv_wg : wg s = countZ is_unfinished (tasks s) + holds_wg (main s);
  inv_ips : map fst (tasks s) ++ pending (main s) = ips;
  inv_results :
    Permutation (results_of (successIPs s) (failedIPs s) ++ resultChan s)
                (sent (tasks s));
  inv_closer : launching (main s) = true <-> closer s = NotStarted;
  inv_closed : resultClosed s = true <-> closer s = Closed;
  inv_closed_wg : closer s = Closed -> wg s = 0;
  inv_returns : main s = Returns -> resultClosed s = true /\ resultChan s = []
}.

(** Steps a goroutine, a buffered result and the two other goroutines
    still have to take. *)
Definition task_weight (pc : TaskPC) : nat :=
  match pc with
  | Probing => 5 | Sending _ => 4 | Releasing _ => 2 | Finishing _ => 1
  | Finished _ => 0
  end.

Definition main_weight (m : MainPC) : nat :=
  match m with
  | LoopHead rest => 8 * List.length rest + 2
  | Acquire _ rest => 8 * List.length rest + 9
  | Spawn _ rest => 8 * List.length rest + 8
  | Collect => 1
  | Returns => 0
  end.

Definition closer_weight (c : CloserPC) : nat :=
  match c with NotStarted | Waiting => 1 | Closed => 0 end.

Definition weight (s : Session) : nat :=
  main_weight (main s)
  + list_sum (map (fun t => task_weight (snd t)) (tasks s))
  + List.length (resultChan s)
  + closer_weight (closer s).

(** What is checked of each 128-bit mask by evaluation: [Size] reads 128
    bits back from it. *)
Definition mask128_check (N : Z) : bool :=
  snd (Net.Size (Net.CIDRMask_loop 16 N)) =? 128.

(** Every byte of [s] is in the class. *)
Fixpoint all_in (cls : ascii -> bool) (s : string) : bool :=
  match s with
  | EmptyString => true
  | String c rest => cls c && all_in cls rest
  end.

(** ** More vocabulary *)

(** The number a slice of bytes denotes, most significant byte first. *)
Definition be_value (l : list Z) : Z := fold_left (fun acc b => acc * 256 + b) l 0.

(** A line that [ParseIPFile] skips: blank, or a comment. *)
Definition skipped (go : GoText) (text : string) : bool :=
  is_empty (TrimSpace text) || prefix_of "#" (TrimSpace text)
  || prefix_of "//" (TrimSpace text).

(** The same error, [k] lines further down. *)
Definition moved_down (k : Z) (e : FileError) : FileError :=
  match e with
  | CIDRLineFailed n x => CIDRLineFailed (n + k) x
  | RangeLineFailed n x => RangeLineFailed (n + k) x
  | InvalidIPLine n l => InvalidIPLine (n + k) l
  | OpenFailed => OpenFailed
  | ReadFailed => ReadFailed
  end.

(** A file that opens and reads without error. *)
Definition readable (texts : list string) : option Opened :=
  Some (mkOpened texts false).

(** How many of the first [n] attempts succeed. *)
Fixpoint count_ok (probe : Probe) (n : nat) : Z :=
  match n with
  | O => 0
  | S k => count_ok probe k + (if attempt_ok probe (Z.of_nat k) then 1 else 0)
  end.

(** What [pingRunner] returned to the [i]-th goroutine under a schedule:
    the first step of a goroutine is the one that leaves [pingRunner]. *)
Fixpoint probe_result (schedule : list label) (i : nat) : option bool :=
  match schedule with
  | [] => None
  | StepTask j ok :: rest => if (j =? i)%nat then Some ok else probe_result rest i
  | _ :: rest => probe_result rest i
  end.

(** The addresses of [ips], the first of which is the [i]-th of the
    session, whose probe returned [b]. *)
Fixpoint probed (schedule : list label) (i : nat) (ips : list string) (b : bool)
  : list string :=
  match ips with
  | [] => []
  | a :: rest =>
      (if match probe_result schedule i with
          | Some r => Bool.eqb r b
          | None => false
          end
       then [a] else [])
      ++ probed schedule (S i) rest b
  end.

(** What a goroutine holds in [success] once [pingRunner] has returned. *)
Definition verdict_of (pc : TaskPC) : option bool :=
  match pc with
  | Probing => None
  | Sending b | Releasing b | Finishing b | Finished b => Some b
  end.

(** The steps [done] account for the goroutines of [s]. *)
Definition records (done : list label) (s : Session) : Prop :=
  forall i,
    probe_result done i =
      match nth_error (tasks s) i with
      | Some (_, pc) => verdict_of pc
      | None => None
      end.

(** The addresses of the results with [success = b]. *)
Definition filed (b : bool) (res : ipResult) : list string :=
  if Bool.eqb (success res) b then [ip res] else [].
(** ** Four-byte addresses and their 32-bit values *)

Lemma Zseq_length s n : List.length (Zseq s n) = n.
Proof. revert s; induction n; simpl; intros; [reflexivity | now rewrite IHn]. Qed.

Lemma Zseq_app s n m : Zseq s (n + m) = Zseq s n ++ Zseq (s + Z.of_nat n) m.
Proof.
  revert s; induction n; intros s.
  - simpl. now rewrite Z.add_0_r.
  - cbn [Nat.add Zseq app]. rewrite IHn. do 3 f_equal. lia.
Qed.

Lemma Zseq_In s n x : In x (Zseq s n) <-> s <= x < s + Z.of_nat n.
Proof.
  revert s; induction n; intros s.
  - simpl. lia.
  - cbn [Zseq In]. rewrite IHn. lia.
Qed.

Lemma Zseq_NoDup s n : NoDup (Zseq s n).
Proof.
  revert s; induction n; intros s; simpl; constructor; auto.
  rewrite Zseq_In. lia.
Qed.

Lemma ipv4_ok_inv b :
  ipv4_ok b ->
  exists b0 b1 b2 b3, b = [b0; b1; b2; b3] /\
    byte_ok b0 /\ byte_ok b1 /\ byte_ok b2 /\ byte_ok b3.
Proof.
  intros [Hl Hb].
  destruct b as [|b0 [|b1 [|b2 [|b3 [|? ?]]]]]; try discriminate.
  exists b0, b1, b2, b3. split; [reflexivity|].
  inversion Hb as [|? ? H0 Hb1]; subst.
  inversion Hb1 as [|? ? H1 Hb2]; subst.
  inversion Hb2 as [|? ? H2 Hb3]; subst.
  inversion Hb3; subst. auto.
Qed.

Lemma ipv4_ok_intro b0 b1 b2 b3 :
  byte_ok b0 -> byte_ok b1 -> byte_ok b2 -> byte_ok b3 -> ipv4_ok [b0; b1; b2; b3].
Proof.
  intros; split; [reflexivity | unfold bytes_ok].
  repeat (apply Forall_cons; [assumption|]). apply Forall_nil.
Qed.

Lemma land_shiftl_small a n x :
  0 <= n -> 0 <= x < 2 ^ n -> Z.land (Z.shiftl a n) x = 0.
Proof.
  intros Hn Hx. apply Z.bits_inj'. intros m Hm.
  rewrite Z.land_spec, Z.bits_0.
  destruct (Z.lt_ge_cases m n) as [Hlt|Hge].
  - rewrite Z.shiftl_spec_low by assumption. reflexivity.
  - destruct (Z.eq_dec x 0) as [->|Hx0].
    + rewrite Z.bits_0. apply andb_false_r.
    + rewrite (Z.bits_above_log2 x m); [apply andb_false_r | lia |].
      apply Z.log2_lt_pow2; [lia|].
      apply Z.lt_le_trans with (2 ^ n); [lia|].
      apply Z.pow_le_mono_r; lia.
Qed.

Lemma lor_shiftl_add a n x :
  0 <= n -> 0 <= x < 2 ^ n -> Z.lor (Z.shiftl a n) x = a * 2 ^ n + x.
Proof.
  intros Hn Hx.
  rewrite <- Z.lxor_lor by (apply land_shiftl_small; assumption).
  rewrite <- Z.add_nocarry_lxor by (apply land_shiftl_small; assumption).
  now rewrite Z.shiftl_mul_pow2.
Qed.

Lemma shiftl_const a n : 0 <= n -> Z.shiftl a n = a * 2 ^ n.
Proof. intros; now apply Z.shiftl_mul_pow2. Qed.

(** The shifts and ors of [startVal] are the positional sum. *)
Lemma uint32_of_sum b0 b1 b2 b3 :
  byte_ok b0 -> byte_ok b1 -> byte_ok b2 -> byte_ok b3 ->
  uint32_of [b0; b1; b2; b3] = b0 * 16777216 + b1 * 65536 + b2 * 256 + b3.
Proof.
  unfold byte_ok, uint32_of, idx; intros H0 H1 H2 H3; cbn [nth].
  assert (E1 : Z.lor (Z.shiftl b0 24) (Z.shiftl b1 16)
               = Z.shiftl (b0 * 256 + b1) 16).
  { replace (Z.shiftl b0 24) with (Z.shiftl (Z.shiftl b0 8) 16)
      by (rewrite Z.shiftl_shiftl by lia; reflexivity).
    rewrite <- Z.shiftl_lor.
    rewrite lor_shiftl_add; change (2 ^ 8) with 256; lia. }
  rewrite E1.
  assert (E2 : Z.lor (Z.shiftl (b0 * 256 + b1) 16) (Z.shiftl b2 8)
               = Z.shiftl ((b0 * 256 + b1) * 256 + b2) 8).
  { replace (Z.shiftl (b0 * 256 + b1) 16)
      with (Z.shiftl (Z.shiftl (b0 * 256 + b1) 8) 8)
      by (rewrite Z.shiftl_shiftl by lia; reflexivity).
    rewrite <- Z.shiftl_lor.
    rewrite lor_shiftl_add; change (2 ^ 8) with 256; lia. }
  rewrite E2.
  rewrite lor_shiftl_add; change (2 ^ 8) with 256; lia.
Qed.

Lemma uint32_of_range b : ipv4_ok b -> 0 <= uint32_of b < 4294967296.
Proof.
  intros Hb. destruct (ipv4_ok_inv b Hb) as (b0 & b1 & b2 & b3 & -> & H0 & H1 & H2 & H3).
  rewrite uint32_of_sum by assumption. unfold byte_ok in *. lia.
Qed.

Lemma uint32_of_inj a b : ipv4_ok a -> ipv4_ok b -> uint32_of a = uint32_of b -> a = b.
Proof.
  intros Ha Hb.
  destruct (ipv4_ok_inv a Ha) as (a0 & a1 & a2 & a3 & -> & ? & ? & ? & ?).
  destruct (ipv4_ok_inv b Hb) as (b0 & b1 & b2 & b3 & -> & ? & ? & ? & ?).
  rewrite !uint32_of_sum by assumption. unfold byte_ok in *. intros E.
  assert (a0 = b0) by lia. assert (a1 = b1) by lia. assert (a2 = b2) by lia.
  assert (a3 = b3) by lia. congruence.
Qed.

(** ** [incIP] and [compareIP] on values *)

Lemma byte_succ d : byte_ok d -> (d + 1) mod 256 = if d =? 255 then 0 else d + 1.
Proof.
  unfold byte_ok; intros H. destruct (Z.eqb_spec d 255) as [->|Hd].
  - reflexivity.
  - apply Z.mod_small. lia.
Qed.

Lemma incIP_quad a b c d :
  byte_ok a -> byte_ok b -> byte_ok c -> byte_ok d ->
  incIP [a; b; c; d] =
    if d =? 255 then
      if c =? 255 then
        if b =? 255 then
          if a =? 255 then [0; 0; 0; 0] else [a + 1; 0; 0; 0]
        else [a; b + 1; 0; 0]
      else [a; b; c + 1; 0]
    else [a; b; c; d + 1].
Proof.
  intros Ha Hb Hc Hd. unfold incIP. cbn [List.length incIP_loop set_idx idx nth].
  rewrite !byte_succ by assumption. unfold byte_ok in *.
  destruct (Z.eqb_spec d 255) as [->|Hd'].
  - cbn [Z.eqb negb]. destruct (Z.eqb_spec c 255) as [->|Hc'].
    + cbn [Z.eqb negb]. destruct (Z.eqb_spec b 255) as [->|Hb'].
      * cbn [Z.eqb negb]. destruct (Z.eqb_spec a 255) as [->|Ha'].
        -- reflexivity.
        -- destruct (Z.eqb_spec (a + 1) 0); [lia | reflexivity].
      * destruct (Z.eqb_spec (b + 1) 0); [lia | reflexivity].
    + destruct (Z.eqb_spec (c + 1) 0); [lia | reflexivity].
  - destruct (Z.eqb_spec (d + 1) 0); [lia | reflexivity].
Qed.

Lemma incIP_ok b : ipv4_ok b -> ipv4_ok (incIP b).
Proof.
  intros Hb. destruct (ipv4_ok_inv b Hb) as (b0 & b1 & b2 & b3 & -> & H0 & H1 & H2 & H3).
  rewrite incIP_quad by assumption. unfold byte_ok in *.
  destruct (Z.eqb_spec b3 255); [destruct (Z.eqb_spec b2 255);
    [destruct (Z.eqb_spec b1 255); [destruct (Z.eqb_spec b0 255)|]|]|];
  apply ipv4_ok_intro; unfold byte_ok; lia.
Qed.

(** One step of [incIP] adds one to the 32-bit value, and wraps from
    255.255.255.255 to 0.0.0.0. *)
Lemma incIP_val b :
  ipv4_ok b -> uint32_of (incIP b) = (uint32_of b + 1) mod 4294967296.
Proof.
  intros Hb. pose proof (incIP_ok b Hb) as Hi. revert Hi.
  destruct (ipv4_ok_inv b Hb) as (b0 & b1 & b2 & b3 & -> & H0 & H1 & H2 & H3).
  rewrite incIP_quad by assumption. rewrite (uint32_of_sum b0 b1 b2 b3) by assumption.
  unfold byte_ok in *.
  destruct (Z.eqb_spec b3 255); [destruct (Z.eqb_spec b2 255);
    [destruct (Z.eqb_spec b1 255); [destruct (Z.eqb_spec b0 255)|]|]|];
  intros Hi; destruct (ipv4_ok_inv _ Hi) as (c0 & c1 & c2 & c3 & E & ? & ? & ? & ?);
  injection E as <- <- <- <-; rewrite uint32_of_sum by assumption; subst;
  try (rewrite Z.mod_small by lia; lia).
  reflexivity.
Qed.

Lemma compareIP_val a b :
  ipv4_ok a -> ipv4_ok b ->
  compareIP a b =
    match uint32_of a ?= uint32_of b with Gt => 1 | Eq => 0 | Lt => -1 end.
Proof.
  intros Ha Hb.
  destruct (ipv4_ok_inv a Ha) as (a0 & a1 & a2 & a3 & -> & ? & ? & ? & ?).
  destruct (ipv4_ok_inv b Hb) as (b0 & b1 & b2 & b3 & -> & ? & ? & ? & ?).
  rewrite !uint32_of_sum by assumption. unfold byte_ok in *.
  unfold compareIP. cbn [compareIP_loop idx nth].
  repeat match goal with
  | |- context [?x >? ?y] => destruct (Z.gtb_spec x y)
  | |- context [?x <? ?y] => destruct (Z.ltb_spec x y)
  end;
  match goal with
  | |- _ = match ?x ?= ?y with _ => _ end =>
      destruct (Z.compare_spec x y); try reflexivity; lia
  end.
Qed.

Lemma compareIP_le a b :
  ipv4_ok a -> ipv4_ok b ->
  (compareIP a b <=? 0) = (uint32_of a <=? uint32_of b).
Proof.
  intros Ha Hb. rewrite compareIP_val by assumption.
  destruct (Z.compare_spec (uint32_of a) (uint32_of b));
    destruct (Z.leb_spec (uint32_of a) (uint32_of b)); try reflexivity; lia.
Qed.

Lemma compareIP_gt a b :
  ipv4_ok a -> ipv4_ok b ->
  (compareIP a b >? 0) = (uint32_of a >? uint32_of b).
Proof.
  intros Ha Hb. rewrite compareIP_val by assumption.
  destruct (Z.compare_spec (uint32_of a) (uint32_of b));
    destruct (Z.gtb_spec (uint32_of a) (uint32_of b)); try reflexivity; lia.
Qed.

(** ** The enumeration loop of [parseIPRange] *)

Lemma Forall_firstn_keep {A} (P : A -> Prop) n : forall l,
  Forall P l -> Forall P (firstn n l).
Proof.
  induction n as [|n IH]; intros [|x l] H; cbn [firstn]; try constructor;
    inversion H; subst; auto.
Qed.

Lemma Forall_skipn_keep {A} (P : A -> Prop) n : forall l,
  Forall P l -> Forall P (skipn n l).
Proof.
  induction n as [|n IH]; intros [|x l] H; cbn [skipn]; try assumption.
  inversion H; subst; auto.
Qed.

Lemma To4_ok ip b : bytes_ok ip -> Net.To4 ip = Some b -> ipv4_ok b.
Proof.
  unfold Net.To4, bytes_ok. intros Hip.
  destruct (Nat.eqb_spec (List.length ip) Net.IPv4len) as [E4|N4].
  - intros [= <-]. split; assumption.
  - destruct (Nat.eqb_spec (List.length ip) Net.IPv6len) as [E16|]; cbn [andb];
      [|discriminate].
    destruct (Net.isZeros (firstn 10 ip) && (idx ip 10 =? 255) && (idx ip 11 =? 255));
      [|discriminate].
    intros E. assert (Eb : b = firstn 4 (skipn 12 ip)) by congruence.
    clear E. subst b. split.
    + rewrite length_firstn, length_skipn, E16. reflexivity.
    + apply Forall_firstn_keep, Forall_skipn_keep, Hip.
Qed.

Lemma copy4_id b : ipv4_ok b -> copy4 b = b.
Proof.
  intros Hb. destruct (ipv4_ok_inv b Hb) as (? & ? & ? & ? & -> & _). reflexivity.
Qed.

Lemma IPv4_String_quad a b c d : IPv4_String [a; b; c; d] = Net.dotted a b c d.
Proof. reflexivity. Qed.


(** When the end is 255.255.255.255 the condition of the loop holds of
    every address, the one after the wrap included: the loop never exits. *)
Lemma range_loop_wraps fuel : forall current ips,
  ipv4_ok current -> range_loop fuel current [255; 255; 255; 255] ips = Running.
Proof.
  induction fuel as [|fuel IH]; intros current ips Hc; [reflexivity|].
  cbn [range_loop].
  assert (He : ipv4_ok [255; 255; 255; 255])
    by (apply ipv4_ok_intro; unfold byte_ok; lia).
  rewrite compareIP_le by assumption.
  pose proof (uint32_of_range current Hc) as Hr.
  rewrite (uint32_of_sum 255 255 255 255) by (unfold byte_ok; lia).
  destruct (Z.leb_spec (uint32_of current) (255 * 16777216 + 255 * 65536 + 255 * 256 + 255));
    [|lia].
  apply IH. apply incIP_ok; assumption.
Qed.

Lemma uint32_of_map_inj l : forall l',
  Forall ipv4_ok l -> Forall ipv4_ok l' ->
  map uint32_of l' = map uint32_of l -> l' = l.
Proof.
  induction l as [|a l IH]; intros [|a' l'] Hl Hl' E; try discriminate;
    [reflexivity|].
  inversion Hl; subst. inversion Hl'; subst. cbn [map] in E.
  injection E as E1 E2. f_equal; [apply uint32_of_inj; assumption | auto].
Qed.

(** ** [parseIPRange] *)

Section RangeLines.

Context {go : GoText}.
Hypothesis go_ok : GoText_ok go.

Lemma range_line_ok line s e : range_line go line s e -> ipv4_ok s /\ ipv4_ok e.
Proof.
  intros (p0 & p1 & startIP & endIP & _ & Hs & He & Hs4 & He4).
  destruct go_ok as [Hbytes _].
  split.
  - apply (To4_ok startIP); [eapply Hbytes; exact Hs | exact Hs4].
  - apply (To4_ok endIP); [eapply Hbytes; exact He | exact He4].
Qed.

(** Past the split and the two parses, [parseIPRange] is its three
    checks and its loop. *)
Lemma parseIPRange_checks fuel line s e :
  range_line go line s e ->
  parseIPRange fuel line =
    if uint32_of s >? uint32_of e then Failed InconsistentRange
    else if (uint32_of e - uint32_of s + 1) mod 4294967296 >? 1000000
         then Failed RangeTooLarge
         else range_loop fuel s e [].
Proof.
  intros Hl. destruct (range_line_ok line s e Hl) as [Hs He].
  destruct Hl as (p0 & p1 & startIP & endIP & Hsplit & Hps & Hpe & Hs4 & He4).
  unfold parseIPRange. rewrite Hsplit, Hps, Hpe, Hs4, He4.
  rewrite compareIP_gt by assumption.
  rewrite copy4_id by assumption. reflexivity.
Qed.

(** A range whose start exceeds its end is refused. *)
Lemma parseIPRange_inconsistent fuel line s e :
  range_line go line s e -> uint32_of s > uint32_of e ->
  parseIPRange fuel line = Failed InconsistentRange.
Proof.
  intros Hl Hgt. rewrite (parseIPRange_checks fuel line s e Hl).
  destruct (Z.gtb_spec (uint32_of s) (uint32_of e)); [reflexivity | lia].
Qed.

(** A range of more than 1,000,000 addresses is refused, the whole
    address space excepted: there [endVal - startVal + 1] is 0 in
    [uint32]. *)
Lemma parseIPRange_too_large fuel line s e :
  range_line go line s e -> uint32_of s <= uint32_of e ->
  uint32_of e - uint32_of s + 1 > 1000000 ->
  uint32_of e - uint32_of s + 1 <> 4294967296 ->
  parseIPRange fuel line = Failed RangeTooLarge.
Proof.
  intros Hl Hle Hbig Hfull. rewrite (parseIPRange_checks fuel line s e Hl).
  destruct (range_line_ok line s e Hl) as [Hs He].
  pose proof (uint32_of_range s Hs). pose proof (uint32_of_range e He).
  destruct (Z.gtb_spec (uint32_of s) (uint32_of e)); [lia|].
  rewrite Z.mod_small by lia.
  destruct (Z.gtb_spec (uint32_of e - uint32_of s + 1) 1000000); [reflexivity | lia].
Qed.


(** A range that passes every check and ends at 255.255.255.255 keeps
    the loop running whatever the fuel. *)
Lemma parseIPRange_runs_on line s :
  range_line go line s [255; 255; 255; 255] ->
  (4294967295 - uint32_of s + 1) mod 4294967296 <= 1000000 ->
  forall fuel, parseIPRange fuel line = Running.
Proof.
  intros Hl Hcount fuel.
  destruct (range_line_ok line _ _ Hl) as [Hs He].
  pose proof (uint32_of_range s Hs).
  rewrite (parseIPRange_checks fuel line _ _ Hl).
  rewrite (uint32_of_sum 255 255 255 255) by (unfold byte_ok; lia).
  change (255 * 16777216 + 255 * 65536 + 255 * 256 + 255) with 4294967295.
  destruct (Z.gtb_spec (uint32_of s) 4294967295); [lia|].
  destruct (Z.gtb_spec ((4294967295 - uint32_of s + 1) mod 4294967296) 1000000); [lia|].
  apply range_loop_wraps; assumption.
Qed.

End RangeLines.

(** ** The dotted-decimal instance meets the library's contract *)

Lemma is_digit_val c : is_digit c = true -> 0 <= digit_val c <= 9.
Proof.
  unfold is_digit, digit_val. intros H.
  apply andb_true_iff in H as [H1 H2].
  apply Nat.leb_le in H1. apply Nat.leb_le in H2. lia.
Qed.

Lemma parseIPv4_loop_bytes s : forall first prevDot fields val digLen out,
  bytes_ok fields -> 0 <= val <= 255 ->
  parseIPv4_loop s first prevDot fields val digLen = Some out ->
  bytes_ok out.
Proof.
  induction s as [|c rest IH]; intros first prevDot fields val digLen out Hf Hv;
    cbn [parseIPv4_loop].
  - destruct (List.length fields <? 3)%nat; [discriminate|].
    intros [= <-]. apply Forall_app. split; [assumption|].
    constructor; [unfold byte_ok; lia | constructor].
  - destruct (is_digit c) eqn:Hd.
    + destruct ((digLen =? 1) && (val =? 0)); [discriminate|].
      destruct (Z.gtb_spec (val * 10 + digit_val c) 255); [discriminate|].
      apply IH; [assumption|]. pose proof (is_digit_val c Hd). lia.
    + destruct (Ascii.eqb c "."); [|discriminate].
      destruct (first || is_empty rest || prevDot); [discriminate|].
      destruct (List.length fields =? 3)%nat; [discriminate|].
      apply IH; [|lia]. apply Forall_app. split; [assumption|].
      constructor; [unfold byte_ok; lia | constructor].
Qed.

Lemma text_ParseIP_bytes s ip : text_ParseIP s = Some ip -> bytes_ok ip.
Proof.
  unfold text_ParseIP. destruct (parseIPv4 s) as [l|] eqn:E; [|discriminate].
  assert (Hl : bytes_ok l).
  { eapply parseIPv4_loop_bytes; [constructor | | exact E]. lia. }
  destruct l as [|a [|b [|c [|d [|? ?]]]]]; try discriminate.
  intros [= <-]. unfold Net.IPv4, Net.v4InV6Prefix.
  apply Forall_app. split; [|assumption].
  repeat constructor; unfold byte_ok; lia.
Qed.

Lemma DottedText_ok : GoText_ok DottedText.
Proof.
  split.
  - intros s ip. cbn [ParseIP DottedText]. apply text_ParseIP_bytes.
  - intros s ip n. cbn [ParseCIDR DottedText]. unfold text_ParseCIDR.
    destruct (cut_from s "/" EmptyString) as [[addr mask]|]; [|discriminate].
    destruct (text_ParseIP addr) as [ip'|] eqn:Ei; [|discriminate].
    destruct (dtoi mask) as [k|]; [|discriminate].
    destruct (k >? 32); [discriminate|].
    destruct (Net.CIDRMask k 32) as [m|] eqn:Em; [|discriminate].
    destruct (Net.Mask ip' m) as [network|] eqn:En; [|discriminate].
    intros [= <- <-]. cbn [Net.net_Mask Net.net_IP].
    split; [eapply text_ParseIP_bytes; eassumption|].
    split; [exists k, 32; assumption | assumption].
Qed.

(** ** Masks and blocks *)

Lemma list_eqb_eq l : forall m, list_eqb l m = true <-> l = m.
Proof.
  induction l as [|a l IH]; intros [|b m]; cbn [list_eqb]; split; intros H;
    try reflexivity; try discriminate.
  - apply andb_true_iff in H as [H1 H2]. apply Z.eqb_eq in H1.
    apply IH in H2. congruence.
  - injection H as -> ->. rewrite Z.eqb_refl. cbn. now apply IH.
Qed.

Lemma byte_testbit_out x j : byte_ok x -> j < 0 \/ 8 <= j -> Z.testbit x j = false.
Proof.
  unfold byte_ok. intros Hx [Hj|Hj].
  - now apply Z.testbit_neg_r.
  - destruct (Z.eq_dec x 0) as [->|Hx0]; [apply Z.bits_0|].
    apply Z.bits_above_log2; [lia|].
    apply Z.lt_le_trans with 8; [|assumption].
    apply Z.log2_lt_pow2; [lia|]. change (2 ^ 8) with 256. lia.
Qed.

Lemma land_byte_ok x m : byte_ok x -> byte_ok m -> byte_ok (Z.land x m).
Proof.
  unfold byte_ok. intros Hx Hm.
  assert (E : Z.land x m = Z.land x m mod 2 ^ 8).
  { rewrite <- Z.land_ones by lia.
    rewrite <- Z.land_assoc, (Z.land_comm m), Z.land_assoc.
    rewrite (Z.land_ones x) by lia.
    change (2 ^ 8) with 256. now rewrite (Z.mod_small x) by lia. }
  rewrite E. change (2 ^ 8) with 256. apply Z.mod_pos_bound. lia.
Qed.

Lemma uint32_of_testbit a b c d i :
  0 <= i ->
  Z.testbit (uint32_of [a; b; c; d]) i =
    Z.testbit a (i - 24) || Z.testbit b (i - 16) || Z.testbit c (i - 8) || Z.testbit d i.
Proof.
  intros Hi. unfold uint32_of, idx. cbn [nth].
  rewrite !Z.lor_spec, !Z.shiftl_spec by assumption. reflexivity.
Qed.

(** Masking byte by byte is masking the 32-bit value. *)
Lemma uint32_of_land x m :
  ipv4_ok x -> ipv4_ok m ->
  uint32_of (map2 Z.land x m) = Z.land (uint32_of x) (uint32_of m).
Proof.
  intros Hx Hm.
  destruct (ipv4_ok_inv x Hx) as (x0 & x1 & x2 & x3 & -> & ? & ? & ? & ?).
  destruct (ipv4_ok_inv m Hm) as (m0 & m1 & m2 & m3 & -> & ? & ? & ? & ?).
  cbn [map2]. apply Z.bits_inj'. intros i Hi.
  rewrite Z.land_spec, !uint32_of_testbit, !Z.land_spec by assumption.
  destruct (Z.lt_ge_cases i 8); [|destruct (Z.lt_ge_cases i 16);
    [|destruct (Z.lt_ge_cases i 24); [|destruct (Z.lt_ge_cases i 32)]]];
  repeat match goal with
  | Hb : byte_ok ?b |- context [Z.testbit ?b ?j] =>
      rewrite (byte_testbit_out b j Hb) by lia
  end;
  repeat match goal with
  | |- context [Z.testbit ?b ?j] => destruct (Z.testbit b j)
  end; reflexivity.
Qed.

Lemma map2_land_ok x m : ipv4_ok x -> ipv4_ok m -> ipv4_ok (map2 Z.land x m).
Proof.
  intros Hx Hm.
  destruct (ipv4_ok_inv x Hx) as (x0 & x1 & x2 & x3 & -> & ? & ? & ? & ?).
  destruct (ipv4_ok_inv m Hm) as (m0 & m1 & m2 & m3 & -> & ? & ? & ? & ?).
  cbn [map2]. apply ipv4_ok_intro; apply land_byte_ok; assumption.
Qed.

Lemma land_block_mask v k :
  0 <= v < 4294967296 -> 0 <= k <= 32 ->
  Z.land v (4294967296 - 2 ^ k) = 2 ^ k * (v / 2 ^ k).
Proof.
  intros Hv Hk.
  assert (Hm : 4294967296 - 2 ^ k = Z.ones (32 - k) * 2 ^ k).
  { rewrite Z.ones_equiv, <- Z.sub_1_r, Z.mul_sub_distr_r, <- Z.pow_add_r by lia.
    replace (32 - k + k) with 32 by lia. change (2 ^ 32) with 4294967296. lia. }
  rewrite Hm, (Z.mul_comm (2 ^ k)). apply Z.bits_inj'. intros i Hi.
  rewrite Z.land_spec, !Z.mul_pow2_bits by lia.
  destruct (Z.lt_ge_cases i k) as [Hlt|Hge].
  - rewrite !(Z.testbit_neg_r _ (i - k)) by lia. apply andb_false_r.
  - rewrite Z.div_pow2_bits by lia. replace (i - k + k) with i by lia.
    rewrite Z.testbit_ones_nonneg by lia.
    destruct (Z.ltb_spec (i - k) (32 - k)); [apply andb_true_r|].
    rewrite andb_false_r. symmetry.
    rewrite <- (Z.mod_small v (2 ^ 32)) by (change (2 ^ 32) with 4294967296; lia).
    apply Z.mod_pow2_bits_high. lia.
Qed.

Lemma Zseq_0_33 N : 0 <= N <= 32 -> In N (Zseq 0 33).
Proof. intros H. apply Zseq_In. lia. Qed.

Lemma mask_check_all N : 0 <= N <= 32 -> mask_check N = true.
Proof.
  intros H. assert (Hall : forallb mask_check (Zseq 0 33) = true) by (vm_compute; reflexivity).
  apply (proj1 (forallb_forall _ _) Hall). now apply Zseq_0_33.
Qed.

Lemma CIDRMask_32 N m :
  Net.CIDRMask N 32 = Some m ->
  0 <= N <= 32 /\ m = Net.CIDRMask_loop 4 N.
Proof.
  unfold Net.CIDRMask. cbn [Z.eqb negb andb].
  destruct (Z.ltb_spec N 0); cbn [orb]; [discriminate|].
  destruct (Z.gtb_spec N 32); [discriminate|].
  intros [= <-]. split; [lia | reflexivity].
Qed.

Lemma forallb_byte_ok l : forallb byte_okb l = true -> bytes_ok l.
Proof.
  intros H. apply Forall_forall. intros x Hx.
  apply (proj1 (forallb_forall _ _) H) in Hx. unfold byte_okb in Hx.
  apply andb_true_iff in Hx as [H1 H2].
  apply Z.leb_le in H1. apply Z.ltb_lt in H2. split; assumption.
Qed.

(** The mask of a prefix of [N] bits: four bytes, value [2^32 - 2^(32-N)],
    and [Size] reads [N] and 32 back from it. *)
Lemma CIDRMask_facts N m :
  Net.CIDRMask N 32 = Some m ->
  0 <= N <= 32 /\ ipv4_ok m /\
  uint32_of m = 4294967296 - 2 ^ (32 - N) /\
  Net.Size m = (N, 32).
Proof.
  intros Hm. apply CIDRMask_32 in Hm as [HN ->].
  pose proof (mask_check_all N HN) as Hc. unfold mask_check in Hc.
  repeat (apply andb_true_iff in Hc as [Hc ?]).
  apply Nat.eqb_eq in Hc.
  repeat match goal with H : (_ =? _) = true |- _ => apply Z.eqb_eq in H end.
  split; [assumption|]. split; [split; [assumption | now apply forallb_byte_ok]|].
  split; [assumption|].
  destruct (Net.Size (Net.CIDRMask_loop 4 N)) as [o b]. cbn [fst snd] in *. congruence.
Qed.

(** ** Dotted decimal determines the address *)

Lemma ubtoa_check_all v : byte_ok v -> ubtoa_check v = true.
Proof.
  intros H.
  assert (Hall : forallb ubtoa_check (Zseq 0 256) = true) by (vm_compute; reflexivity).
  apply (proj1 (forallb_forall _ _) Hall). apply Zseq_In. unfold byte_ok in H. lia.
Qed.

Lemma ubtoa_no_dot v : byte_ok v -> no_dot (Net.ubtoa v) = true.
Proof.
  intros H. pose proof (ubtoa_check_all v H) as Hc. unfold ubtoa_check in Hc.
  now apply andb_true_iff in Hc as [Hc _].
Qed.

Lemma ubtoa_inj v w : byte_ok v -> byte_ok w -> Net.ubtoa v = Net.ubtoa w -> v = w.
Proof.
  intros Hv Hw E.
  pose proof (ubtoa_check_all v Hv) as Hcv. pose proof (ubtoa_check_all w Hw) as Hcw.
  unfold ubtoa_check in Hcv, Hcw.
  apply andb_true_iff in Hcv as [_ Hcv]. apply andb_true_iff in Hcw as [_ Hcw].
  rewrite E in Hcv. destruct (dtoi (Net.ubtoa w)) as [u|]; [|discriminate].
  apply Z.eqb_eq in Hcv. apply Z.eqb_eq in Hcw. congruence.
Qed.

Lemma no_dot_split s1 : forall s2 r1 r2,
  no_dot s1 = true -> no_dot s2 = true ->
  (s1 ++ String "." r1)%string = (s2 ++ String "." r2)%string ->
  s1 = s2 /\ r1 = r2.
Proof.
  induction s1 as [|c s1 IH]; intros [|d s2] r1 r2 H1 H2 E; cbn in *.
  - injection E as ->. auto.
  - injection E as <- _. rewrite Ascii.eqb_refl in H2. discriminate.
  - injection E as -> _. rewrite Ascii.eqb_refl in H1. discriminate.
  - injection E as -> E.
    apply andb_true_iff in H1 as [_ H1]. apply andb_true_iff in H2 as [_ H2].
    destruct (IH s2 r1 r2 H1 H2 E) as [-> ->]. auto.
Qed.

Lemma dotted_inj a b c d a' b' c' d' :
  byte_ok a -> byte_ok b -> byte_ok c -> byte_ok d ->
  byte_ok a' -> byte_ok b' -> byte_ok c' -> byte_ok d' ->
  Net.dotted a b c d = Net.dotted a' b' c' d' ->
  [a; b; c; d] = [a'; b'; c'; d'].
Proof.
  intros Ha Hb Hc Hd Ha' Hb' Hc' Hd'. unfold Net.dotted.
  change (?s ++ "." ++ ?r)%string with (s ++ String "." r)%string.
  intros E.
  apply no_dot_split in E as [Ea E]; try (apply ubtoa_no_dot; assumption).
  change (?s ++ "." ++ ?r)%string with (s ++ String "." r)%string in E.
  apply no_dot_split in E as [Eb E]; try (apply ubtoa_no_dot; assumption).
  change (?s ++ "." ++ ?r)%string with (s ++ String "." r)%string in E.
  apply no_dot_split in E as [Ec Ed]; try (apply ubtoa_no_dot; assumption).
  apply ubtoa_inj in Ea, Eb, Ec, Ed; try assumption. congruence.
Qed.

Lemma IPv4_String_inj x y :
  ipv4_ok x -> ipv4_ok y -> IPv4_String x = IPv4_String y -> x = y.
Proof.
  intros Hx Hy.
  destruct (ipv4_ok_inv x Hx) as (x0 & x1 & x2 & x3 & -> & ? & ? & ? & ?).
  destruct (ipv4_ok_inv y Hy) as (y0 & y1 & y2 & y3 & -> & ? & ? & ? & ?).
  rewrite !IPv4_String_quad. now apply dotted_inj.
Qed.

(** Addresses of distinct values print as distinct strings. *)
Lemma IPv4_String_NoDup addrs :
  Forall ipv4_ok addrs -> NoDup (map uint32_of addrs) ->
  NoDup (map IPv4_String addrs).
Proof.
  induction 1 as [|a addrs Ha Hok IH]; cbn [map]; intros Hnd; [constructor|].
  inversion Hnd as [|? ? Hnotin Hnd']; subst. constructor; [|auto].
  intros Hin. apply in_map_iff in Hin as (b & Hb & Hin).
  apply Hnotin. apply in_map_iff. exists b. split; [|assumption].
  f_equal. symmetry. apply IPv4_String_inj; try assumption.
  - apply (proj1 (Forall_forall _ _) Hok). assumption.
  - now symmetry.
Qed.

(** ** [Mask] and [Contains] on four-byte addresses *)

Lemma To4_four b : List.length b = 4%nat -> Net.To4 b = Some b.
Proof. intros H. unfold Net.To4. now rewrite H. Qed.

Lemma Mask_To4 ip a m :
  Net.To4 ip = Some a -> List.length m = 4%nat ->
  Net.Mask ip m = Some (map2 Z.land a m).
Proof.
  intros Ha Hm. unfold Net.Mask. cbv zeta. rewrite !Hm.
  cbn [Nat.eqb Net.IPv6len Net.IPv4len andb]. rewrite !Hm.
  revert Ha. unfold Net.To4.
  destruct (Nat.eqb_spec (List.length ip) Net.IPv4len) as [E4|N4].
  - intros [= <-]. rewrite !E4. cbn [Nat.eqb Net.IPv6len Net.IPv4len andb].
    rewrite E4. reflexivity.
  - destruct (Nat.eqb_spec (List.length ip) Net.IPv6len) as [E16|]; [|discriminate].
    do 16 (destruct ip as [|? ip]; try discriminate).
    destruct ip; [|discriminate].
    cbn [andb firstn skipn Net.isZeros forallb idx nth list_eqb Net.v4InV6Prefix
         List.length Nat.eqb Net.IPv4len].
    repeat match goal with
    | |- context [0 =? ?x] => destruct (Z.eqb_spec 0 x); [subst|discriminate]
    end.
    cbn [andb Z.eqb].
    repeat match goal with
    | |- context [?x =? 255] => destruct (Z.eqb_spec x 255); [subst|discriminate]
    end.
    cbn [andb Z.eqb]. intros [= <-]. reflexivity.
Qed.

Lemma Contains_four nn m cur :
  List.length nn = 4%nat -> List.length m = 4%nat -> List.length cur = 4%nat ->
  Net.Contains (Net.mkIPNet nn m) cur = list_eqb (map2 Z.land nn m) (map2 Z.land cur m).
Proof.
  intros Hn Hm Hc. unfold Net.Contains, Net.networkNumberAndMask.
  cbn [Net.net_IP Net.net_Mask]. rewrite (To4_four nn Hn), (To4_four cur Hc).
  rewrite Hm, Hn, Hc. cbn [Nat.eqb Net.IPv4len negb]. now rewrite Hn.
Qed.

(** An address is in the block exactly when its value lies between the
    network address and the network address plus the block size. *)
Lemma Contains_block a m N cur :
  Net.CIDRMask N 32 = Some m -> ipv4_ok a -> ipv4_ok cur ->
  Net.Contains (Net.mkIPNet (map2 Z.land a m) m) cur =
    (network_of a N <=? uint32_of cur) && (uint32_of cur <? network_of a N + 2 ^ (32 - N)).
Proof.
  intros Hm Ha Hc. destruct (CIDRMask_facts N m Hm) as (HN & Hmok & Hmval & _).
  pose proof (map2_land_ok a m Ha Hmok) as Hnn.
  pose proof (map2_land_ok cur m Hc Hmok) as Hcm.
  rewrite Contains_four by (apply Hnn || apply Hmok || apply Hc).
  pose proof (uint32_of_range a Ha) as Hra. pose proof (uint32_of_range cur Hc) as Hrc.
  assert (Hpos : 0 < 2 ^ (32 - N)) by (apply Z.pow_pos_nonneg; lia).
  assert (En : uint32_of (map2 Z.land a m) = network_of a N).
  { rewrite uint32_of_land, Hmval by assumption.
    rewrite land_block_mask by lia. reflexivity. }
  assert (Enn : uint32_of (map2 Z.land (map2 Z.land a m) m) = network_of a N).
  { rewrite uint32_of_land, Hmval, En by assumption.
    assert (Hrn : 0 <= network_of a N < 4294967296)
      by (rewrite <- En; apply uint32_of_range; assumption).
    rewrite land_block_mask by lia.
    unfold network_of. rewrite (Z.mul_comm (2 ^ (32 - N)) (uint32_of a / _)).
    rewrite Z.div_mul by lia. lia. }
  assert (Ec : uint32_of (map2 Z.land cur m) = 2 ^ (32 - N) * (uint32_of cur / 2 ^ (32 - N))).
  { rewrite uint32_of_land, Hmval by assumption. now rewrite land_block_mask by lia. }
  assert (Hdm := Z.div_mod (uint32_of cur) (2 ^ (32 - N)) ltac:(lia)).
  assert (Hmb := Z.mod_pos_bound (uint32_of cur) (2 ^ (32 - N)) Hpos).
  destruct (list_eqb (map2 Z.land (map2 Z.land a m) m) (map2 Z.land cur m)) eqn:E.
  - apply list_eqb_eq in E. apply (f_equal uint32_of) in E. rewrite Enn, Ec in E.
    symmetry. apply andb_true_iff. split; [apply Z.leb_le | apply Z.ltb_lt]; lia.
  - symmetry. apply not_true_is_false. intros Hin.
    apply andb_true_iff in Hin as [H1 H2]. apply Z.leb_le in H1. apply Z.ltb_lt in H2.
    assert (Eq : map2 Z.land (map2 Z.land a m) m = map2 Z.land cur m).
    { apply uint32_of_inj; try (apply map2_land_ok; assumption).
      rewrite Enn, Ec. unfold network_of in *.
      set (S := 2 ^ (32 - N)) in *. set (q := uint32_of a / S) in *.
      set (q' := uint32_of cur / S) in *.
      assert (q = q') by nia. congruence. }
    apply list_eqb_eq in Eq. congruence.
Qed.

(** ** The enumeration loop of [parseCIDR] *)

Lemma block_bounds a N :
  ipv4_ok a -> 0 <= N <= 32 ->
  0 < 2 ^ (32 - N) /\
  0 <= network_of a N /\
  network_of a N + 2 ^ (32 - N) <= 4294967296 /\
  (1 <= N -> 2 ^ (32 - N) < 4294967296).
Proof.
  intros Ha HN. pose proof (uint32_of_range a Ha) as Hr.
  assert (Hpos : 0 < 2 ^ (32 - N)) by (apply Z.pow_pos_nonneg; lia).
  assert (Hprod : 2 ^ (32 - N) * 2 ^ N = 4294967296).
  { rewrite <- Z.pow_add_r by lia. replace (32 - N + N) with 32 by lia. reflexivity. }
  assert (Hq : uint32_of a / 2 ^ (32 - N) < 2 ^ N).
  { apply Z.div_lt_upper_bound; lia. }
  assert (Hq0 : 0 <= uint32_of a / 2 ^ (32 - N)) by (apply Z.div_pos; lia).
  unfold network_of. repeat split; try nia.
  intros H1. assert (2 <= 2 ^ N); [|nia].
  change 2 with (2 ^ 1) at 1. apply Z.pow_le_mono_r; lia.
Qed.

Lemma cidr_loop_returns a m N n : forall w cur ips fuel,
  Net.CIDRMask N 32 = Some m -> ipv4_ok a -> 1 <= N ->
  ipv4_ok cur -> uint32_of cur = w mod 4294967296 ->
  network_of a N <= w ->
  w + Z.of_nat n = network_of a N + 2 ^ (32 - N) ->
  (n < fuel)%nat ->
  exists addrs,
    cidr_loop fuel (Net.mkIPNet (map2 Z.land a m) m) cur ips
      = Returned (ips ++ map IPv4_String addrs) /\
    Forall ipv4_ok addrs /\
    map uint32_of addrs = Zseq w n.
Proof.
  induction n as [|n IH]; intros w cur ips fuel Hm Ha HN1 Hc Hw Hlo Hn Hf;
    destruct (CIDRMask_facts N m Hm) as (HN & _);
    destruct (block_bounds a N Ha HN) as (Hpos & Hn0 & Hhi & Hlt);
    specialize (Hlt HN1);
    (destruct fuel as [|fuel]; [lia|]); cbn [cidr_loop];
    rewrite (Contains_block a m N cur Hm Ha Hc).
  - assert (Hout : (network_of a N <=? uint32_of cur)
                   && (uint32_of cur <? network_of a N + 2 ^ (32 - N)) = false).
    { apply not_true_is_false. intros Hin.
      apply andb_true_iff in Hin as [H1 H2]. apply Z.leb_le in H1. apply Z.ltb_lt in H2.
      rewrite Hw in H1, H2.
      destruct (Z.eq_dec w 4294967296) as [->|Hne].
      - rewrite Z.mod_same in H1 by lia. lia.
      - rewrite Z.mod_small in H2 by lia. lia. }
    rewrite Hout. exists []. cbn. now rewrite app_nil_r.
  - rewrite Z.mod_small in Hw by lia.
    assert (Hin : (network_of a N <=? uint32_of cur)
                  && (uint32_of cur <? network_of a N + 2 ^ (32 - N)) = true).
    { apply andb_true_iff. split; [apply Z.leb_le | apply Z.ltb_lt]; lia. }
    rewrite Hin.
    destruct (IH (w + 1) (incIP cur) (ips ++ [IPv4_String cur]) fuel)
      as (addrs & Hrun & Hok & Hvals); try assumption; try lia.
    { apply incIP_ok; assumption. }
    { rewrite incIP_val by assumption. now rewrite Hw. }
    exists (cur :: addrs). split; [|split].
    + rewrite Hrun, <- app_assoc. reflexivity.
    + constructor; assumption.
    + cbn [map Zseq]. rewrite Hvals, Hw. reflexivity.
Qed.

(** ** [parseCIDR] *)

Section CidrLines.

Context {go : GoText}.
Hypothesis go_ok : GoText_ok go.

Lemma cidr_line_parts line a N :
  cidr_line go line a N ->
  exists ip m,
    ParseCIDR line = Some (ip, Net.mkIPNet (map2 Z.land a m) m) /\
    Net.To4 ip = Some a /\ ipv4_ok a /\
    Net.CIDRMask N 32 = Some m.
Proof.
  intros (ip & [nip m] & Hp & Ha & Hm). cbn [Net.net_Mask] in Hm.
  destruct go_ok as [_ Hcidr].
  destruct (Hcidr line ip _ Hp) as (Hbytes & _ & Hnet).
  cbn [Net.net_Mask Net.net_IP] in Hnet.
  destruct (CIDRMask_facts N m Hm) as (_ & [Hlen _] & _).
  rewrite (Mask_To4 ip a m Ha Hlen) in Hnet. injection Hnet as <-.
  exists ip, m. repeat split; try assumption.
  - exact (proj1 (To4_ok ip a Hbytes Ha)).
  - exact (proj2 (To4_ok ip a Hbytes Ha)).
Qed.

(** Past the parse, [parseCIDR] is its size check and its loop. *)
Lemma parseCIDR_checks fuel line a N :
  cidr_line go line a N ->
  exists m, Net.CIDRMask N 32 = Some m /\
  parseCIDR fuel line =
    if 2 ^ (32 - N) >? 1000000 then Failed CIDRTooLarge
    else cidr_loop fuel (Net.mkIPNet (map2 Z.land a m) m) (map2 Z.land a m) [].
Proof.
  intros Hl. destruct (cidr_line_parts line a N Hl) as (ip & m & Hp & Ha4 & Ha & Hm).
  exists m. split; [assumption|].
  destruct (CIDRMask_facts N m Hm) as (HN & Hmok & _ & Hsize).
  unfold parseCIDR. rewrite Hp, Ha4. cbn [Net.net_Mask]. rewrite Hsize.
  cbn [Z.eqb negb]. rewrite Z.mod_small by lia.
  destruct (Z.ltb_spec (32 - N) 64); [|lia].
  rewrite Z.shiftl_mul_pow2, Z.mul_1_l by lia.
  destruct (2 ^ (32 - N) >? 1000000); [reflexivity|].
  rewrite (Mask_To4 ip a m Ha4 (proj1 Hmok)).
  pose proof (map2_land_ok a m Ha Hmok) as Hnn.
  rewrite (To4_four _ (proj1 Hnn)), copy4_id by assumption. reflexivity.
Qed.

(** A block of more than 1,000,000 addresses is refused. *)
Lemma parseCIDR_too_large fuel line a N :
  cidr_line go line a N -> 2 ^ (32 - N) > 1000000 ->
  parseCIDR fuel line = Failed CIDRTooLarge.
Proof.
  intros Hl Hbig. destruct (parseCIDR_checks fuel line a N Hl) as (m & _ & ->).
  destruct (Z.gtb_spec (2 ^ (32 - N)) 1000000); [reflexivity | lia].
Qed.

(** Every line either fails to parse, or is refused as not IPv4, or is
    a CIDR line [A/N] with an IPv4 base address. *)
Lemma parseCIDR_accepts fuel line :
  parseCIDR fuel line = Failed InvalidCIDR \/
  parseCIDR fuel line = Failed CIDRNotIPv4 \/
  exists a N, cidr_line go line a N.
Proof.
  unfold parseCIDR. destruct (ParseCIDR line) as [[ip ipNet]|] eqn:Hp; [|now left].
  destruct (Net.To4 ip) as [a|] eqn:Ha; [|now right; left].
  destruct go_ok as [_ Hcidr].
  destruct (Hcidr line ip ipNet Hp) as (_ & (ones & bits & Hm) & _).
  pose proof Hm as Hm'. unfold Net.CIDRMask in Hm'.
  destruct (Z.eqb_spec bits 32) as [->|H32].
  - right; right. exists a, ones, ip, ipNet. auto.
  - destruct (Z.eqb_spec bits 128) as [->|H128]; [|discriminate].
    cbn [negb andb] in Hm'.
    destruct (Z.ltb_spec ones 0); [discriminate|].
    destruct (Z.gtb_spec ones 128); [discriminate|].
    cbn [orb] in Hm'.
    assert (E : Some (Net.CIDRMask_loop 16 ones) = Some (Net.net_Mask ipNet))
      by exact Hm'.
    assert (E' : Net.CIDRMask_loop 16 ones = Net.net_Mask ipNet) by congruence.
    clear Hm' E.
    assert (Hall : forallb mask128_check (Zseq 0 129) = true) by (vm_compute; reflexivity).
    assert (Hc : mask128_check ones = true).
    { apply (proj1 (forallb_forall _ _) Hall). apply Zseq_In. lia. }
    unfold mask128_check in Hc. apply Z.eqb_eq in Hc.
    right; left. rewrite <- E'.
    destruct (Net.Size (Net.CIDRMask_loop 16 ones)) as [o b]. cbn [snd] in Hc.
    subst b. reflexivity.
Qed.

Lemma prefix_small N : 0 <= N <= 32 -> (2 ^ (32 - N) <= 1000000 <-> 13 <= N).
Proof.
  intros HN. split; intros H.
  - destruct (Z.lt_ge_cases N 13) as [Hlt|]; [|assumption].
    assert (2 ^ 20 <= 2 ^ (32 - N)) by (apply Z.pow_le_mono_r; lia).
    change (2 ^ 20) with 1048576 in *. lia.
  - assert (2 ^ (32 - N) <= 2 ^ 19) by (apply Z.pow_le_mono_r; lia).
    change (2 ^ 19) with 524288 in *. lia.
Qed.

End CidrLines.

(** ** The expander on concrete lines *)

Ltac line_parts :=
  repeat eexists; vm_compute; reflexivity.

Lemma last_two_line :
  range_line DottedText "255.255.255.254-255.255.255.255"
    [255; 255; 255; 254] [255; 255; 255; 255].
Proof. line_parts. Qed.

Lemma last_one_line :
  range_line DottedText "255.255.255.255-255.255.255.255"
    [255; 255; 255; 255] [255; 255; 255; 255].
Proof. line_parts. Qed.

Lemma whole_space_line :
  range_line DottedText "0.0.0.0-255.255.255.255" [0; 0; 0; 0] [255; 255; 255; 255].
Proof. line_parts. Qed.

Lemma slash8_line : cidr_line DottedText "10.0.0.0/8" [10; 0; 0; 0] 8.
Proof. line_parts. Qed.

Lemma slash30_line : cidr_line DottedText "192.168.18.129/30" [192; 168; 18; 129] 30.
Proof. line_parts. Qed.

Example parseIPRange_across_a_byte :
  parseIPRange 10 " 10.0.0.254 - 10.0.1.1"
    = Returned ["10.0.0.254"; "10.0.0.255"; "10.0.1.0"; "10.0.1.1"]%string.
Proof. vm_compute. reflexivity. Qed.

Example parseIPRange_refusals :
  parseIPRange 10 "10.0.0.5-10.0.0.1" = Failed InconsistentRange /\
  parseIPRange 10 "10.0.0.5-11.0.0.1" = Failed RangeTooLarge /\
  parseIPRange 10 "10.0.0.5-10.0.0.7-" = Failed InvalidRangeSyntax /\
  parseIPRange 10 "10.0.0.5-10.0.0.x" = Failed InvalidAddress.
Proof. repeat split; vm_compute; reflexivity. Qed.

Example parseCIDR_slash30 :
  parseCIDR 10 "192.168.18.129/30"
    = Returned ["192.168.18.128"; "192.168.18.129"; "192.168.18.130";
                "192.168.18.131"]%string.
Proof. vm_compute. reflexivity. Qed.

Example parseCIDR_last_block :
  parseCIDR 10 "255.255.255.255/31"
    = Returned ["255.255.255.254"; "255.255.255.255"]%string.
Proof. vm_compute. reflexivity. Qed.

(** C1, at the range 255.255.255.254-255.255.255.255: both endpoints
    parse as IPv4 addresses, the start is below the end and the range
    holds two addresses, yet [parseIPRange] never returns its two
    addresses: after 255.255.255.255 the increment wraps to 0.0.0.0, which
    still compares below the end, so the loop is still running whatever
    the fuel. *)
Theorem parseIPRange_to_last_address :
  range_line DottedText "255.255.255.254-255.255.255.255"
    [255; 255; 255; 254] [255; 255; 255; 255] /\
  uint32_of [255; 255; 255; 254] <= uint32_of [255; 255; 255; 255] /\
  uint32_of [255; 255; 255; 255] - uint32_of [255; 255; 255; 254] + 1 = 2 /\
  forall fuel, parseIPRange fuel "255.255.255.254-255.255.255.255" = Running.
Proof.
  split; [exact last_two_line|]. split; [vm_compute; discriminate|].
  split; [reflexivity|].
  apply (parseIPRange_runs_on DottedText_ok _ _ last_two_line).
  vm_compute. discriminate.
Qed.

(** C2, on the code: a range line that passes the split, the parsing, the
    ordering check and the count guard, and whose end address is
    255.255.255.255, does not terminate: the loop of [parseIPRange] is
    still running after any number of iterations. *)
Theorem parseIPRange_end_255_runs_forever (go : GoText) (line : string) (s : list Z) :
  GoText_ok go ->
  range_line go line s [255; 255; 255; 255] ->
  uint32_of s <= uint32_of [255; 255; 255; 255] ->
  (uint32_of [255; 255; 255; 255] - uint32_of s + 1) mod 4294967296 <= 1000000 ->
  forall fuel, parseIPRange fuel line = Running.
Proof.
  intros Hgo Hl _ Hcount.
  apply (parseIPRange_runs_on Hgo line s Hl).
  rewrite (uint32_of_sum 255 255 255 255) in Hcount by (unfold byte_ok; lia).
  exact Hcount.
Qed.

Lemma parseIPRange_end_255_runs_forever_witness :
  range_line DottedText "255.255.255.255-255.255.255.255"
    [255; 255; 255; 255] [255; 255; 255; 255] /\
  forall fuel,
    parseIPRange (go := DottedText) fuel "255.255.255.255-255.255.255.255" = Running.
Proof.
  split; [exact last_one_line|].
  apply (parseIPRange_end_255_runs_forever DottedText
           "255.255.255.255-255.255.255.255" [255; 255; 255; 255]).
  - exact DottedText_ok.
  - exact last_one_line.
  - vm_compute. discriminate.
  - vm_compute. discriminate.
Defined.

(** C5 as stated fails at 10.0.0.0/8: the line is a valid CIDR line with
    prefix 8, and [parseCIDR] returns no address list for it, it fails
    with the size error. *)
Lemma parseCIDR_slash8_refused :
  cidr_line DottedText "10.0.0.0/8" [10; 0; 0; 0] 8 /\
  ~ (exists fuel ips, parseCIDR fuel "10.0.0.0/8" = Returned ips).
Proof.
  split; [exact slash8_line|]. intros (fuel & ips & H).
  rewrite (parseCIDR_too_large DottedText_ok fuel _ _ _ slash8_line) in H;
    [discriminate | reflexivity].
Qed.

(** C5, amended: for every valid CIDR line A/N with an IPv4 base address
    and 13 <= N <= 32 (a block within the guard of 1,000,000),
    [parseCIDR] returns exactly 2^(32-N) addresses, pairwise distinct, in
    ascending order, starting at the network address (the base with the
    mask applied) and running through the broadcast address. *)
Theorem parseCIDR_expands (go : GoText) (line : string) (a : list Z) (N : Z) :
  GoText_ok go -> cidr_line go line a N -> 13 <= N ->
  exists addrs,
    List.length addrs = Z.to_nat (2 ^ (32 - N)) /\
    Forall ipv4_ok addrs /\
    network_of a N = Z.land (uint32_of a) (4294967296 - 2 ^ (32 - N)) /\
    map uint32_of addrs = Zseq (network_of a N) (Z.to_nat (2 ^ (32 - N))) /\
    NoDup (map IPv4_String addrs) /\
    forall fuel, (Z.to_nat (2 ^ (32 - N)) < fuel)%nat ->
      parseCIDR fuel line = Returned (map IPv4_String addrs).
Proof.
  intros Hgo Hl HN13.
  destruct (cidr_line_parts Hgo line a N Hl) as (ip & m & Hp & Ha4 & Ha & Hm).
  destruct (CIDRMask_facts N m Hm) as (HN & Hmok & Hmval & _).
  destruct (block_bounds a N Ha HN) as (Hpos & Hn0 & Hhi & Hlt).
  pose proof (map2_land_ok a m Ha Hmok) as Hnn.
  pose proof (uint32_of_range a Ha) as Hra.
  assert (En : uint32_of (map2 Z.land a m) = network_of a N).
  { rewrite uint32_of_land, Hmval by assumption.
    rewrite land_block_mask by lia. reflexivity. }
  set (n := Z.to_nat (2 ^ (32 - N))).
  assert (Hrun : forall fuel, (n < fuel)%nat ->
            exists addrs,
              cidr_loop fuel (Net.mkIPNet (map2 Z.land a m) m) (map2 Z.land a m) []
                = Returned ([] ++ map IPv4_String addrs) /\
              Forall ipv4_ok addrs /\
              map uint32_of addrs = Zseq (network_of a N) n).
  { intros fuel Hf.
    apply (cidr_loop_returns a m N n (network_of a N)); try assumption; try lia.
    rewrite En. symmetry. apply Z.mod_small. lia. }
  destruct (Hrun (S n) (Nat.lt_succ_diag_r n)) as (addrs & _ & Hok & Hvals).
  exists addrs.
  split; [rewrite <- (length_map uint32_of), Hvals; apply Zseq_length|].
  split; [assumption|].
  split; [rewrite land_block_mask by lia; reflexivity|].
  split; [assumption|].
  split; [apply IPv4_String_NoDup; [assumption | rewrite Hvals; apply Zseq_NoDup]|].
  intros fuel Hf.
  destruct (parseCIDR_checks Hgo fuel line a N Hl) as (m' & Hm' & ->).
  assert (m' = m) by congruence. subst m'.
  destruct (Z.gtb_spec (2 ^ (32 - N)) 1000000) as [Hbig|_].
  { apply (prefix_small N HN) in HN13. lia. }
  destruct (Hrun fuel Hf) as (addrs' & -> & Hok' & Hvals'). cbn [app].
  do 2 f_equal. apply uint32_of_map_inj; congruence.
Qed.

Lemma parseCIDR_expands_witness :
  exists addrs,
    List.length addrs = Z.to_nat (2 ^ (32 - 30)) /\
    Forall ipv4_ok addrs /\
    network_of [192; 168; 18; 129] 30
      = Z.land (uint32_of [192; 168; 18; 129]) (4294967296 - 2 ^ (32 - 30)) /\
    map uint32_of addrs
      = Zseq (network_of [192; 168; 18; 129] 30) (Z.to_nat (2 ^ (32 - 30))) /\
    NoDup (map IPv4_String addrs) /\
    forall fuel, (Z.to_nat (2 ^ (32 - 30)) < fuel)%nat ->
      parseCIDR (go := DottedText) fuel "192.168.18.129/30"
        = Returned (map IPv4_String addrs).
Proof.
  apply (parseCIDR_expands DottedText "192.168.18.129/30" [192; 168; 18; 129] 30).
  - exact DottedText_ok.
  - exact slash30_line.
  - lia.
Defined.

(** C6, at the range 0.0.0.0-255.255.255.255: the range holds 2^32
    addresses, far above 1,000,000, yet [parseIPRange] does not fail with
    the size error: [endVal - startVal + 1] is computed in [uint32] and
    wraps to 0, the guard passes, and the enumeration loop is entered and
    still running whatever the fuel. *)
Theorem parseIPRange_whole_space :
  range_line DottedText "0.0.0.0-255.255.255.255" [0; 0; 0; 0] [255; 255; 255; 255] /\
  uint32_of [255; 255; 255; 255] - uint32_of [0; 0; 0; 0] + 1 = 4294967296 /\
  (uint32_of [255; 255; 255; 255] - uint32_of [0; 0; 0; 0] + 1) mod 2 ^ 32 = 0 /\
  forall fuel,
    parseIPRange fuel "0.0.0.0-255.255.255.255" = Running /\
    parseIPRange fuel "0.0.0.0-255.255.255.255" <> Failed RangeTooLarge.
Proof.
  split; [exact whole_space_line|]. split; [reflexivity|]. split; [reflexivity|].
  intros fuel.
  assert (H : parseIPRange fuel "0.0.0.0-255.255.255.255" = Running).
  { apply (parseIPRange_runs_on DottedText_ok _ _ whole_space_line).
    vm_compute. discriminate. }
  split; [exact H | rewrite H; discriminate].
Qed.

(** ** The classifier *)

Lemma take_drop k : forall s, (take k s ++ drop k s)%string = s.
Proof.
  induction k as [|k IH]; intros [|c s]; cbn [take drop String.append]; try reflexivity.
  now rewrite IH.
Qed.

Lemma take_run cls k : forall s,
  (k <= run_length cls s)%nat ->
  all_in cls (take k s) = true /\ String.length (take k s) = k.
Proof.
  induction k as [|k IH]; intros [|c s]; cbn [run_length take all_in String.length];
    try (intros; split; reflexivity || lia).
  destruct (cls c) eqn:Ec; [|lia]. intros H.
  destruct (IH s) as [Ha Hl]; [lia|]. rewrite Ha, Hl. split; reflexivity.
Qed.

Lemma lit_prefix_split l : forall s,
  lit_prefix l s = true ->
  ToLower (take (String.length l) s) = ToLower l.
Proof.
  induction l as [|a l IH]; intros [|b s]; cbn [lit_prefix String.length take ToLower];
    try reflexivity; try discriminate.
  intros H. apply andb_true_iff in H as [H1 H2].
  apply Ascii.eqb_eq in H1. rewrite (IH s H2). now rewrite H1.
Qed.

Lemma match_here_boundary rest prev s cap :
  match_here (WordBoundary :: rest) prev s cap =
    if xorb (word_at prev) (word_at (head s)) then match_here rest prev s cap else None.
Proof. reflexivity. Qed.

Lemma match_here_lit l rest prev s cap :
  match_here (Lit l :: rest) prev s cap =
    if lit_prefix l s
    then match_here rest (last_char prev (take (String.length l) s))
           (drop (String.length l) s) cap
    else None.
Proof. reflexivity. Qed.

(** A repetition matched some [k] of the bytes of its run, at least
    [min] of them, and the rest of the pattern matched after them. *)
Lemma match_here_rep cls min capture rest prev s cap r :
  match_here (Rep cls min capture :: rest) prev s cap = Some r ->
  exists k, (min <= k <= run_length cls s)%nat /\
    match_here rest (last_char prev (take k s)) (drop k s)
      (if capture then take k s else cap) = Some r.
Proof.
  cbn [match_here]. generalize (Nat.le_refl (run_length cls s)).
  generalize (run_length cls s) at 1 3 as n.
  induction n as [|n IH]; intros Hn.
  - destruct (Nat.leb_spec min 0) as [Hmin|]; [|discriminate].
    destruct (match_here rest (last_char prev (take 0 s)) (drop 0 s)
                (if capture then take 0 s else cap)) eqn:E; [|discriminate].
    intros [= <-]. exists O. split; [lia | exact E].
  - destruct (Nat.leb_spec min (S n)) as [Hmin|Hmin].
    + destruct (match_here rest (last_char prev (take (S n) s)) (drop (S n) s)
                  (if capture then take (S n) s else cap)) eqn:E.
      * intros [= <-]. exists (S n). split; [lia | exact E].
      * intros H. destruct (IH ltac:(lia) H) as (k & Hk & Hm).
        exists k. split; [lia | exact Hm].
    + intros H. destruct (IH ltac:(lia) H) as (k & Hk & Hm).
      exists k. split; [lia | exact Hm].
Qed.

Lemma find_from_split pat : forall s prev d,
  find_from pat prev s = Some d ->
  exists pre rest prev',
    s = (pre ++ rest)%string /\ match_here pat prev' rest EmptyString = Some d.
Proof.
  induction s as [|c s IH]; intros prev d; cbn [find_from].
  - destruct (match_here pat prev EmptyString EmptyString) eqn:E; [|discriminate].
    intros [= <-]. exists EmptyString, EmptyString, prev. split; [reflexivity | exact E].
  - destruct (match_here pat prev (String c s) EmptyString) eqn:E.
    + intros [= <-]. exists EmptyString, (String c s), prev. split; [reflexivity | exact E].
    + intros H. destruct (IH _ _ H) as (pre & rest & prev' & -> & Hm).
      exists (String c pre), rest, prev'. split; [reflexivity | exact Hm].
Qed.

(** What a match of the first pattern is: the text holds, one after the
    other, the captured count (a non-empty run of digits), a non-empty
    run of white space, and the word [received] in any case. *)
Lemma reReceived_match_shape s d :
  FindStringSubmatch reReceived s = Some d ->
  exists pre ws word post,
    s = (pre ++ d ++ ws ++ word ++ post)%string /\
    d <> EmptyString /\ all_in class_d d = true /\
    ws <> EmptyString /\ all_in class_s ws = true /\
    ToLower word = "received"%string.
Proof.
  unfold FindStringSubmatch. intros H.
  destruct (find_from_split _ _ _ _ H) as (pre & rest & prev & -> & Hm).
  unfold reReceived in Hm. rewrite match_here_boundary in Hm.
  destruct (xorb (word_at prev) (word_at (head rest))); [|discriminate].
  apply match_here_rep in Hm as (k & Hk & Hm).
  apply match_here_rep in Hm as (j & Hj & Hm).
  rewrite match_here_lit in Hm.
  destruct (lit_prefix "received" (drop j (drop k rest))) eqn:El; [|discriminate].
  rewrite match_here_boundary in Hm.
  destruct (xorb _ _); [|discriminate]. cbn [match_here] in Hm.
  assert (Ed : take k rest = d) by congruence. subst d.
  destruct (take_run class_d k rest) as [Hd Hdl]; [lia|].
  destruct (take_run class_s j (drop k rest)) as [Hw Hwl]; [lia|].
  exists pre, (take j (drop k rest)),
    (take (String.length "received") (drop j (drop k rest))),
    (drop (String.length "received") (drop j (drop k rest))).
  rewrite !take_drop. repeat split; try assumption.
  - intros E. rewrite E in Hdl. cbn in Hdl. lia.
  - intros E. rewrite E in Hwl. cbn in Hwl. lia.
  - apply (lit_prefix_split "received" _ El).
Qed.

Example classifier_on_summaries :
  parsePingOutputSuccess "0 received, 100% packet loss" = false /\
  parsePingOutputSuccess "4 packets transmitted, 4 received, 0% packet loss" = true /\
  parsePingOutputSuccess "ttl=54" = true /\
  parsePingOutputSuccess "Reply from 10.0.0.1: bytes=32 time=1ms TTL=64" = true /\
  parsePingOutputSuccess "Request timed out." = false.
Proof. repeat split; vm_compute; reflexivity. Qed.

Example first_match_and_its_count :
  FindStringSubmatch reReceived "1 packets transmitted, 10  received" = Some "10"%string /\
  FindStringSubmatch reReceived "x0 received" = None /\
  FindStringSubmatch rePacketsReceived "3 packets received" = Some "3"%string /\
  FindStringSubmatch reLoss "a 0% packet loss" = Some "0"%string.
Proof. repeat split; vm_compute; reflexivity. Qed.

(** C3 as stated fails at the text "0 received, ttl=54": its count before
    [received] is zero and it contains the indicator [ttl=], and the
    classifier returns success. *)
Lemma zero_received_with_indicator_succeeds :
  FindStringSubmatch reReceived (ToLower "0 received, ttl=54") = Some "0"%string /\
  Contains (ToLower "0 received, ttl=54") "ttl=" = true /\
  parsePingOutputSuccess "0 received, ttl=54" = true.
Proof. repeat split; vm_compute; reflexivity. Qed.

(** C3, amended: when the count of the first [<digits> received] match
    is "0", that rule does not report success, and nothing is decided
    yet: the classifier returns failure exactly when no later rule fires
    (no [<digits> packets received] match with a count other than "0",
    no [<digits>% packet loss] match with the percentage "0", none of
    the generic indicators), and it returns success whenever the text
    contains one of the generic indicators. *)
Theorem zero_received_defers_to_later_rules (output : string) :
  FindStringSubmatch reReceived (ToLower output) = Some "0"%string ->
  (parsePingOutputSuccess output = false <->
     (forall n, FindStringSubmatch rePacketsReceived (ToLower output) = Some n ->
                n = "0"%string) /\
     (forall p, FindStringSubmatch reLoss (ToLower output) = Some p ->
                p <> "0"%string) /\
     (forall s, In s indicators -> Contains (ToLower output) s = false)) /\
  ((exists s, In s indicators /\ Contains (ToLower output) s = true) ->
   parsePingOutputSuccess output = true).
Proof.
  intros H1. unfold parsePingOutputSuccess. cbv zeta. rewrite H1.
  change (negb ("0" =? "0")%string) with false. cbv iota.
  assert (Hex : existsb (Contains (ToLower output)) indicators = false <->
                forall s, In s indicators -> Contains (ToLower output) s = false).
  { split.
    - intros He s Hs. destruct (Contains (ToLower output) s) eqn:E; [|reflexivity].
      assert (existsb (Contains (ToLower output)) indicators = true)
        by (apply existsb_exists; eauto). congruence.
    - intros Hall. apply not_true_is_false. intros He.
      apply existsb_exists in He as (s & Hs & Hc). rewrite (Hall s Hs) in Hc.
      discriminate. }
  split.
  - destruct (FindStringSubmatch rePacketsReceived (ToLower output)) as [n|].
    + destruct (String.eqb_spec n "0") as [->|Hn]; cbn [negb].
      * destruct (FindStringSubmatch reLoss (ToLower output)) as [p|].
        -- destruct (String.eqb_spec p "0") as [->|Hp].
           ++ split; [discriminate|]. intros (_ & Hl & _).
              exfalso. apply (Hl "0"%string); reflexivity.
           ++ rewrite Hex. split.
              ** intros Hi. repeat split; try assumption; intros ? [= <-]; auto.
              ** intros (_ & _ & Hi). exact Hi.
        -- rewrite Hex. split.
           ++ intros Hi. repeat split; try assumption;
                try discriminate; intros ? [= <-]; auto.
           ++ intros (_ & _ & Hi). exact Hi.
      * split; [discriminate|]. intros (Hr & _). exfalso. apply Hn, Hr. reflexivity.
    + destruct (FindStringSubmatch reLoss (ToLower output)) as [p|].
      * destruct (String.eqb_spec p "0") as [->|Hp].
        -- split; [discriminate|]. intros (_ & Hl & _).
           exfalso. apply (Hl "0"%string); reflexivity.
        -- rewrite Hex. split.
           ++ intros Hi. repeat split; try assumption;
                try discriminate; intros ? [= <-]; auto.
           ++ intros (_ & _ & Hi). exact Hi.
      * rewrite Hex. split.
        -- intros Hi. repeat split; try assumption; discriminate.
        -- intros (_ & _ & Hi). exact Hi.
  - intros (s & Hs & Hc).
    assert (He : existsb (Contains (ToLower output)) indicators = true)
      by (apply existsb_exists; eauto).
    rewrite He.
    destruct (match FindStringSubmatch rePacketsReceived (ToLower output) with
              | Some m2 => negb (m2 =? "0")%string | None => false end);
      [reflexivity|].
    destruct (match FindStringSubmatch reLoss (ToLower output) with
              | Some m2 => (m2 =? "0")%string | None => false end); reflexivity.
Qed.

Lemma zero_received_defers_to_later_rules_witness :
  (parsePingOutputSuccess "0 received, 100% packet loss" = false <->
     (forall n, FindStringSubmatch rePacketsReceived
                  (ToLower "0 received, 100% packet loss") = Some n ->
                n = "0"%string) /\
     (forall p, FindStringSubmatch reLoss
                  (ToLower "0 received, 100% packet loss") = Some p ->
                p <> "0"%string) /\
     (forall s, In s indicators ->
                Contains (ToLower "0 received, 100% packet loss") s = false)) /\
  ((exists s, In s indicators /\
              Contains (ToLower "0 received, 100% packet loss") s = true) ->
   parsePingOutputSuccess "0 received, 100% packet loss" = true).
Proof.
  apply (zero_received_defers_to_later_rules "0 received, 100% packet loss").
  vm_compute. reflexivity.
Defined.

(** ** The retry policy *)

Lemma pingWithRetry_run_loop cfg probe :
  0 < MaxAttempts cfg ->
  pingWithRetry_run cfg probe =
    retry_loop (Z.to_nat (MaxAttempts cfg)) 0 (MaxAttempts cfg)
      (effective_need cfg) (effective_stop cfg) probe 0 0.
Proof.
  intros H. unfold pingWithRetry_run, effective_need, effective_stop.
  destruct (Z.leb_spec (MaxAttempts cfg) 0); [lia | reflexivity].
Qed.

Lemma retry_loop_step remaining i maxRetries successNeed consecFailStop probe s cf :
  retry_loop (S remaining) i maxRetries successNeed consecFailStop probe s cf =
    if attempt_ok probe i then
      if s + 1 >=? successNeed then mkCampaign true (i + 1) SuccessThreshold
      else if i =? maxRetries - 1
      then mkCampaign (s + 1 >=? successNeed) (i + 1) Exhausted
      else retry_loop remaining (i + 1) maxRetries successNeed consecFailStop probe (s + 1) 0
    else
      if cf + 1 >=? consecFailStop then mkCampaign false (i + 1) ConsecutiveFailures
      else if i =? maxRetries - 1
      then mkCampaign (s >=? successNeed) (i + 1) Exhausted
      else retry_loop remaining (i + 1) maxRetries successNeed consecFailStop probe s (cf + 1).
Proof.
  cbn [retry_loop]. unfold attempt_ok. destruct (probe i) as [errNil out].
  cbn [fst snd]. reflexivity.
Qed.

(** A run of failed attempts as long as the threshold ends the campaign
    by the consecutive-failure rule, if that many attempts remain. *)
Lemma retry_loop_failures remaining : forall i s cf maxRetries successNeed stop probe,
  (forall j, i <= j < i + (stop - cf) -> attempt_ok probe j = false) ->
  0 <= cf < stop ->
  stop - cf <= Z.of_nat remaining ->
  i + Z.of_nat remaining = maxRetries ->
  retry_loop remaining i maxRetries successNeed stop probe s cf
    = mkCampaign false (i + (stop - cf)) ConsecutiveFailures.
Proof.
  induction remaining as [|remaining IH];
    intros i s cf maxRetries successNeed stop probe Hfail Hcf Hrem Hmax; [lia|].
  rewrite retry_loop_step. rewrite (Hfail i) by lia.
  destruct (Z.geb_spec (cf + 1) stop) as [Hge|Hlt].
  - f_equal. lia.
  - destruct (Z.eqb_spec i (maxRetries - 1)) as [E|_]; [lia|].
    rewrite IH; try lia.
    + f_equal. lia.
    + intros j Hj. apply Hfail. lia.
Qed.

(** With fewer attempts than the threshold the consecutive-failure rule
    cannot fire. *)
Lemma retry_loop_never_stops remaining : forall i s cf maxRetries successNeed stop probe,
  0 <= cf -> cf + Z.of_nat remaining < stop ->
  exit (retry_loop remaining i maxRetries successNeed stop probe s cf)
    <> ConsecutiveFailures.
Proof.
  induction remaining as [|remaining IH];
    intros i s cf maxRetries successNeed stop probe Hcf Hlt; [cbn; discriminate|].
  rewrite retry_loop_step.
  destruct (attempt_ok probe i).
  - destruct (s + 1 >=? successNeed); [cbn; discriminate|].
    destruct (i =? maxRetries - 1); [cbn; discriminate|]. apply IH; lia.
  - destruct (Z.geb_spec (cf + 1) stop); [lia|].
    destruct (i =? maxRetries - 1); [cbn; discriminate|]. apply IH; lia.
Qed.

Lemma retry_loop_attempts remaining : forall i s cf maxRetries successNeed stop probe,
  exit (retry_loop remaining i maxRetries successNeed stop probe s cf) <> NoAttempt.
Proof.
  induction remaining as [|remaining IH];
    intros i s cf maxRetries successNeed stop probe; [cbn; discriminate|].
  rewrite retry_loop_step.
  destruct (attempt_ok probe i).
  - destruct (s + 1 >=? successNeed); [cbn; discriminate|].
    destruct (i =? maxRetries - 1); [cbn; discriminate|]. apply IH.
  - destruct (cf + 1 >=? stop); [cbn; discriminate|].
    destruct (i =? maxRetries - 1); [cbn; discriminate|]. apply IH.
Qed.

Example exhaustion_with_one_success :
  evaluatePingSequence [true; false; false; false; false] 5 2 math_MaxInt32 = false /\
  attemptsTaken [true; false; false; false; false] 5 2 math_MaxInt32 = 5 /\
  pingWithRetry_run (mkPingConfig 5 2 0 0 0) (replay [true; false; false; false; false])
    = mkCampaign false 5 Exhausted.
Proof. repeat split; vm_compute; reflexivity. Qed.

(** C4 as stated fails at [maxAttempts = 1]: on the outcomes
    [true, true] with a success threshold of 2 the verdict is
    unreachable, after one attempt. *)
Lemma two_successes_one_attempt_allowed :
  evaluatePingSequence [true; true] 1 2 3 = false /\
  attemptsTaken [true; true] 1 2 3 = 1 /\
  pingWithRetry_run (mkPingConfig 1 2 3 0 0) (replay [true; true])
    = mkCampaign false 1 Exhausted.
Proof. repeat split. Qed.

(** C4, amended: on the outcomes [true, true] with a success threshold of
    2, the verdict is reachable after exactly 2 attempts for every
    [maxAttempts >= 2] (and every consecutive-failure threshold); on the
    outcomes [false, false, false] with a consecutive-failure threshold
    of 3, the verdict is unreachable after exactly 3 attempts for every
    [maxAttempts >= 3] (and every success threshold). This holds of
    [evaluatePingSequence] and of [pingWithRetry]. *)
Theorem early_exit_after_thresholds (maxAttempts other timeout interval : Z) :
  (2 <= maxAttempts ->
     evaluatePingSequence [true; true] maxAttempts 2 other = true /\
     attemptsTaken [true; true] maxAttempts 2 other = 2 /\
     pingWithRetry_run (mkPingConfig maxAttempts 2 other timeout interval)
       (replay [true; true]) = mkCampaign true 2 SuccessThreshold) /\
  (3 <= maxAttempts ->
     evaluatePingSequence [false; false; false] maxAttempts other 3 = false /\
     attemptsTaken [false; false; false] maxAttempts other 3 = 3 /\
     pingWithRetry_run (mkPingConfig maxAttempts other 3 timeout interval)
       (replay [false; false; false]) = mkCampaign false 3 ConsecutiveFailures).
Proof.
  split; intros Hmax.
  - assert (E : forall st, evaluate_loop [true; true] maxAttempts 2 other
               (mkCounters 0 0 0) = st -> st = (true, mkCounters 2 0 2)).
    { intros st <-. cbn [evaluate_loop attempts successes consecFails].
      destruct (Z.geb_spec 0 maxAttempts); [lia|].
      change (0 + 1 >=? 2) with false. cbv iota.
      destruct (Z.geb_spec (0 + 1) maxAttempts); [lia|]. reflexivity. }
    unfold evaluatePingSequence, attemptsTaken. rewrite (E _ eq_refl).
    split; [reflexivity|]. split; [reflexivity|].
    rewrite pingWithRetry_run_loop by (cbn; lia).
    cbn [MaxAttempts]. unfold effective_need. cbn [SuccessNeed].
    change (2 <=? 0) with false. cbv iota.
    destruct (Z.to_nat maxAttempts) as [|[|n]] eqn:En; try lia.
    rewrite retry_loop_step. change (attempt_ok (replay [true; true]) 0) with true.
    cbv iota. change (0 + 1 >=? 2) with false. cbv iota.
    destruct (Z.eqb_spec 0 (maxAttempts - 1)); [lia|].
    rewrite retry_loop_step. reflexivity.
  - assert (E : forall st, evaluate_loop [false; false; false] maxAttempts other 3
               (mkCounters 0 0 0) = st -> st = (false, mkCounters 0 3 3)).
    { intros st <-. cbn [evaluate_loop attempts successes consecFails].
      destruct (Z.geb_spec 0 maxAttempts); [lia|].
      change (0 + 1 >=? 3) with false. cbv iota.
      destruct (Z.geb_spec (0 + 1) maxAttempts); [lia|].
      change (0 + 1 + 1 >=? 3) with false. cbv iota.
      destruct (Z.geb_spec (0 + 1 + 1) maxAttempts); [lia|]. reflexivity. }
    unfold evaluatePingSequence, attemptsTaken. rewrite (E _ eq_refl).
    split; [reflexivity|]. split; [reflexivity|].
    rewrite pingWithRetry_run_loop by (cbn; lia).
    cbn [MaxAttempts]. unfold effective_stop. cbn [ConsecutiveFailStop].
    change (3 <=? 0) with false. cbv iota.
    rewrite (retry_loop_failures (Z.to_nat maxAttempts) 0 0 0 maxAttempts _ 3);
      try lia; [reflexivity|].
    intros j Hj. assert (Hj' : j = 0 \/ j = 1 \/ j = 2) by lia.
    destruct Hj' as [ -> | [ -> | -> ] ]; reflexivity.
Qed.

Lemma early_exit_after_thresholds_witness :
  (evaluatePingSequence [true; true] 5 2 3 = true /\
   attemptsTaken [true; true] 5 2 3 = 2 /\
   pingWithRetry_run (mkPingConfig 5 2 3 2000000000 1000000000)
     (replay [true; true]) = mkCampaign true 2 SuccessThreshold) /\
  (evaluatePingSequence [false; false; false] 5 3 3 = false /\
   attemptsTaken [false; false; false] 5 3 3 = 3 /\
   pingWithRetry_run (mkPingConfig 5 3 3 2000000000 1000000000)
     (replay [false; false; false]) = mkCampaign false 3 ConsecutiveFailures).
Proof.
  split.
  - apply (proj1 (early_exit_after_thresholds 5 3 2000000000 1000000000)). lia.
  - apply (proj2 (early_exit_after_thresholds 5 3 2000000000 1000000000)). lia.
Defined.

Lemma late_success_fails j : j < 2147483647 -> attempt_ok late_success j = false.
Proof.
  intros H. unfold attempt_ok, late_success. cbn [fst snd].
  destruct (Z.leb_spec 2147483647 j); [lia | reflexivity].
Qed.

(** C7 as stated fails for a disabled consecutive-failure threshold when
    2,147,483,648 attempts are allowed: after 2,147,483,647 failed
    attempts the campaign ends by the consecutive-failure rule, one
    attempt before the allowed attempts are exhausted and before the
    attempt that would have succeeded. *)
Lemma disabled_threshold_still_fires :
  ConsecutiveFailStop (mkPingConfig 2147483648 1 0 0 0) <= 0 /\
  pingWithRetry_run (mkPingConfig 2147483648 1 0 0 0) late_success
    = mkCampaign false 2147483647 ConsecutiveFailures.
Proof.
  split; [cbn; lia|].
  rewrite pingWithRetry_run_loop by (cbn; lia).
  unfold effective_need, effective_stop, math_MaxInt32.
  cbn [MaxAttempts SuccessNeed ConsecutiveFailStop].
  change (1 <=? 0) with false. change (0 <=? 0) with true. cbv iota.
  rewrite (retry_loop_failures (Z.to_nat 2147483648) 0 0 0 2147483648 1 2147483647).
  - reflexivity.
  - intros j Hj. apply late_success_fails. lia.
  - lia.
  - lia.
  - lia.
Qed.

(** C7, amended: a campaign with [maxAttempts <= 0] returns unreachable
    after zero attempts; a campaign with a success threshold below 1
    runs exactly as with a success threshold of 1; and a campaign whose
    consecutive-failure threshold is disabled (non-positive) uses the
    threshold 2,147,483,647 instead, so that with
    [maxAttempts < 2,147,483,647] it never ends by the
    consecutive-failure rule: it ends by the success threshold or by
    exhaustion of the attempts. *)
Theorem pingWithRetry_degenerate_policies (cfg : PingConfig) (probe : Probe) :
  (MaxAttempts cfg <= 0 ->
     pingWithRetry_run cfg probe = mkCampaign false 0 NoAttempt) /\
  (SuccessNeed cfg < 1 ->
     pingWithRetry_run cfg probe = pingWithRetry_run (with_need cfg 1) probe) /\
  (ConsecutiveFailStop cfg <= 0 -> MaxAttempts cfg < 2147483647 ->
     exit (pingWithRetry_run cfg probe) <> ConsecutiveFailures /\
     (0 < MaxAttempts cfg ->
        exit (pingWithRetry_run cfg probe) = SuccessThreshold \/
        exit (pingWithRetry_run cfg probe) = Exhausted)).
Proof.
  split; [|split].
  - intros H. unfold pingWithRetry_run.
    destruct (Z.leb_spec (MaxAttempts cfg) 0); [reflexivity | lia].
  - intros H. unfold pingWithRetry_run, with_need.
    cbn [MaxAttempts SuccessNeed ConsecutiveFailStop].
    destruct (Z.leb_spec (SuccessNeed cfg) 0); [|lia]. reflexivity.
  - intros Hstop Hmax.
    assert (Hne : exit (pingWithRetry_run cfg probe) <> ConsecutiveFailures).
    { destruct (Z.le_gt_cases (MaxAttempts cfg) 0) as [Hle|Hgt].
      - unfold pingWithRetry_run.
        destruct (Z.leb_spec (MaxAttempts cfg) 0); [cbn; discriminate | lia].
      - rewrite pingWithRetry_run_loop by lia.
        apply retry_loop_never_stops; [lia|].
        unfold effective_stop, math_MaxInt32.
        destruct (Z.leb_spec (ConsecutiveFailStop cfg) 0); lia. }
    split; [exact Hne|]. intros Hpos.
    destruct (exit (pingWithRetry_run cfg probe)) eqn:E; auto; [|congruence].
    exfalso. revert E. rewrite pingWithRetry_run_loop by lia.
    apply retry_loop_attempts.
Qed.

Lemma pingWithRetry_degenerate_policies_witness :
  pingWithRetry_run (mkPingConfig 0 2 3 0 0) (replay [true]) = mkCampaign false 0 NoAttempt /\
  pingWithRetry_run (mkPingConfig 5 0 3 0 0) (replay [true])
    = pingWithRetry_run (with_need (mkPingConfig 5 0 3 0 0) 1) (replay [true]) /\
  exit (pingWithRetry_run (mkPingConfig 5 2 0 0 0) (replay [true; false]))
    <> ConsecutiveFailures.
Proof.
  split; [|split].
  - apply (proj1 (pingWithRetry_degenerate_policies (mkPingConfig 0 2 3 0 0) (replay [true]))).
    cbn. lia.
  - apply (proj1 (proj2 (pingWithRetry_degenerate_policies
                           (mkPingConfig 5 0 3 0 0) (replay [true])))).
    cbn. lia.
  - apply (proj2 (proj2 (pingWithRetry_degenerate_policies
                           (mkPingConfig 5 2 0 0 0) (replay [true; false])))).
    + cbn. lia.
    + cbn. lia.
Defined.

(** ** The probe session *)

Lemma countZ_app f l1 l2 : countZ f (l1 ++ l2) = countZ f l1 + countZ f l2.
Proof. induction l1 as [|t l1 IH]; cbn [countZ app]; [reflexivity | rewrite IH; lia]. Qed.

Lemma countZ_nonneg f l : 0 <= countZ f l.
Proof. induction l as [|t l IH]; cbn [countZ]; [lia | destruct (f (snd t)); lia]. Qed.

Lemma countZ_length f l : countZ f l <= Z.of_nat (List.length l).
Proof.
  induction l as [|t l IH]; cbn [countZ List.length]; [lia | destruct (f (snd t)); lia].
Qed.

Lemma countZ_pos f l :
  0 < countZ f l ->
  exists i a pc, nth_error l i = Some (a, pc) /\ f pc = true.
Proof.
  induction l as [|[a pc] l IH]; cbn [countZ snd]; [lia|].
  destruct (f pc) eqn:E.
  - intros _. exists O, a, pc. split; [reflexivity | assumption].
  - intros H. destruct IH as (i & a' & pc' & Hn & Hf); [lia|].
    exists (S i), a', pc'. split; assumption.
Qed.

Lemma sent_app l1 l2 : sent (l1 ++ l2) = sent l1 ++ sent l2.
Proof. unfold sent. apply flat_map_app. Qed.

Lemma sent_length l : (List.length (sent l) <= List.length l)%nat.
Proof.
  induction l as [|[a pc] l IH]; [apply Nat.le_refl|].
  change (sent ((a, pc) :: l)) with (sent_of (a, pc) ++ sent l).
  rewrite length_app. cbn [List.length].
  destruct pc; cbn [sent_of snd fst List.length]; lia.
Qed.

(** The [i]-th goroutine splits the list of goroutines. *)
Lemma task_split ts i a pc :
  nth_error ts i = Some (a, pc) ->
  exists l1 l2,
    ts = l1 ++ (a, pc) :: l2 /\
    forall pc', set_task ts i pc' = l1 ++ (a, pc') :: l2.
Proof.
  intros H. exists (firstn i ts), (skipn (S i) ts).
  assert (Hs : skipn i ts = (a, pc) :: skipn (S i) ts).
  { revert i H. induction ts as [|t ts IH]; intros [|i] H; try discriminate.
    - cbn in H. injection H as ->. reflexivity.
    - cbn [nth_error] in H. cbn [skipn]. rewrite (IH i H). reflexivity. }
  split.
  - rewrite <- Hs. symmetry. apply firstn_skipn.
  - intros pc'. unfold set_task. rewrite Hs. reflexivity.
Qed.

Lemma results_of_perm_success r u a rest :
  Permutation (results_of (r ++ [a]) u ++ rest)
              (results_of r u ++ mkResult a true :: rest).
Proof.
  unfold results_of. rewrite map_app. cbn [map].
  rewrite <- !app_assoc. apply Permutation_app_head. cbn [app].
  apply Permutation_middle.
Qed.

Lemma results_of_perm_failure r u a rest :
  Permutation (results_of r (u ++ [a]) ++ rest)
              (results_of r u ++ mkResult a false :: rest).
Proof.
  unfold results_of. rewrite map_app. cbn [map].
  rewrite <- !app_assoc. reflexivity.
Qed.

Lemma results_of_addresses r u : map ip (results_of r u) = r ++ u.
Proof.
  unfold results_of. rewrite map_app, !map_map. cbn [ip]. now rewrite !map_id.
Qed.

Section SessionInvariant.

Variable ips : list string.
Variable K : Z.
Hypothesis K_pos : 0 < K.

Lemma Inv_start : Inv ips K (start ips).
Proof.
  constructor; cbn; try reflexivity; try lia; try discriminate.
  - split; reflexivity.
  - split; discriminate.
Qed.

Lemma step_main_Inv s s' :
  Inv ips K s -> step_main K s = Some s' -> Inv ips K s'.
Proof.
  destruct s as [m ts sem ch cl w c su fa].
  intros [Hsem Hcap Hwg Hips Hres Hcloser Hclosed Hcwg Hret].
  cbn [main tasks semaphore resultChan resultClosed wg closer successIPs failedIPs] in *.
  unfold step_main.
  cbn [main tasks semaphore resultChan resultClosed wg closer successIPs failedIPs].
  destruct m as [[|a rest]|a rest|a rest| |].
  - (* the loop is over *)
    intros [= <-].
    assert (Hc : c = NotStarted) by (apply Hcloser; reflexivity).
    constructor; cbn; try assumption.
    + split; discriminate.
    + rewrite Hclosed, Hc. split; discriminate.
    + discriminate.
    + discriminate.
  - (* wg.Add(1) *)
    intros [= <-].
    assert (Hc : c = NotStarted) by (apply Hcloser; reflexivity).
    constructor; cbn in *; try assumption; try lia.
    + rewrite Hc. discriminate.
    + discriminate.
  - (* semaphore <- struct{}{} *)
    destruct (Z.ltb_spec sem K); [|discriminate]. intros [= <-].
    constructor; cbn in *; try assumption; try lia. discriminate.
  - (* go func(ip) *)
    intros [= <-].
    assert (Hc : c = NotStarted) by (apply Hcloser; reflexivity).
    constructor; cbn in *; try assumption.
    + rewrite countZ_app. cbn. lia.
    + rewrite countZ_app. cbn. lia.
    + rewrite map_app, <- app_assoc. exact Hips.
    + rewrite sent_app. cbn. rewrite app_nil_r. exact Hres.
    + discriminate.
  - (* for res := range resultChan *)
    destruct ch as [|[a ok] more].
    + destruct cl; [|discriminate]. intros [= <-].
      constructor; cbn in *; try assumption. intros _. split; reflexivity.
    + cbn [success ip]. destruct ok; intros [= <-].
      * constructor; cbn in *; try assumption; [|discriminate].
        eapply Permutation_trans; [apply results_of_perm_success | exact Hres].
      * constructor; cbn in *; try assumption; [|discriminate].
        eapply Permutation_trans; [apply results_of_perm_failure | exact Hres].
  - discriminate.
Qed.

Lemma step_closer_Inv s s' :
  Inv ips K s -> step_closer s = Some s' -> Inv ips K s'.
Proof.
  destruct s as [m ts sem ch cl w c su fa].
  intros [Hsem Hcap Hwg Hips Hres Hcloser Hclosed Hcwg Hret].
  cbn [main tasks semaphore resultChan resultClosed wg closer successIPs failedIPs] in *.
  unfold step_closer.
  cbn [main tasks semaphore resultChan resultClosed wg closer successIPs failedIPs].
  destruct c; try discriminate.
  destruct (Z.eqb_spec w 0) as [->|]; [|discriminate]. intros [= <-].
  constructor; cbn in *; try assumption.
  - rewrite Hcloser. split; discriminate.
  - split; reflexivity.
  - reflexivity.
  - intros Hm. split; [reflexivity|]. apply Hret. exact Hm.
Qed.

Lemma step_task_Inv i ok s s' :
  Inv ips K s -> step_task (List.length ips) i ok s = Some s' -> Inv ips K s'.
Proof.
  destruct s as [m ts sem ch cl w c su fa].
  intros [Hsem Hcap Hwg Hips Hres Hcloser Hclosed Hcwg Hret].
  cbn [main tasks semaphore resultChan resultClosed wg closer successIPs failedIPs] in *.
  unfold step_task.
  cbn [main tasks semaphore resultChan resultClosed wg closer successIPs failedIPs].
  destruct (nth_error ts i) as [[a pc]|] eqn:Hn; [|discriminate].
  destruct (task_split ts i a pc Hn) as (l1 & l2 & -> & Hset).
  rewrite !countZ_app in *. rewrite sent_app in *. rewrite map_app in *.
  cbn [countZ map sent flat_map snd fst] in *.
  assert (Hlive := countZ_nonneg is_live l1).
  assert (Hlive2 := countZ_nonneg is_live l2).
  assert (Hun := countZ_nonneg is_unfinished l1).
  assert (Hun2 := countZ_nonneg is_unfinished l2).
  assert (Hslot : 0 <= holds_slot m) by (destruct m; cbn; lia).
  assert (Hhw : 0 <= holds_wg m) by (destruct m; cbn; lia).
  destruct pc as [|b|b|b|b].
  - (* pingRunner returns *)
    intros [= <-]. rewrite Hset.
    constructor; cbn [main tasks semaphore resultChan resultClosed wg closer
                      successIPs failedIPs]; try assumption;
      rewrite ?countZ_app, ?sent_app, ?map_app;
      cbn [countZ map sent flat_map snd fst sent_of is_live is_unfinished] in *;
      assumption.
  - (* resultChan <- ipResult{ip, success} *)
    destruct (List.length ch <? List.length ips)%nat; [|discriminate].
    intros [= <-]. rewrite Hset.
    constructor; cbn [main tasks semaphore resultChan resultClosed wg closer
                      successIPs failedIPs]; try assumption;
      rewrite ?countZ_app, ?sent_app, ?map_app;
      cbn [countZ map sent flat_map snd fst sent_of is_live is_unfinished app] in *;
      try assumption.
    + rewrite app_assoc.
      eapply Permutation_trans;
        [apply Permutation_sym, Permutation_cons_append|].
      eapply Permutation_trans; [|apply Permutation_middle].
      apply perm_skip. exact Hres.
    + intros Hm. destruct (Hret Hm) as [Hcl Hch].
      apply Hclosed in Hcl. specialize (Hcwg Hcl). cbn [is_unfinished] in Hwg. lia.
  - (* <-semaphore *)
    destruct (Z.ltb_spec 0 sem); [|discriminate].
    intros [= <-]. rewrite Hset.
    constructor; cbn [main tasks semaphore resultChan resultClosed wg closer
                      successIPs failedIPs]; try assumption;
      rewrite ?countZ_app, ?sent_app, ?map_app;
      cbn [countZ map sent flat_map snd fst sent_of is_live is_unfinished app] in *;
      try assumption; lia.
  - (* wg.Done() *)
    intros [= <-]. rewrite Hset.
    constructor; cbn [main tasks semaphore resultChan resultClosed wg closer
                      successIPs failedIPs]; try assumption;
      rewrite ?countZ_app, ?sent_app, ?map_app;
      cbn [countZ map sent flat_map snd fst sent_of is_live is_unfinished app] in *;
      try assumption; try lia.
    intros Hc. specialize (Hcwg Hc). lia.
  - discriminate.
Qed.

Lemma step_Inv l s s' :
  Inv ips K s -> step K (List.length ips) l s = Some s' -> Inv ips K s'.
Proof.
  destruct l as [| |i ok]; cbn [step].
  - apply step_main_Inv.
  - apply step_closer_Inv.
  - apply step_task_Inv.
Qed.

Lemma run_Inv schedule : forall s s',
  Inv ips K s -> run K (List.length ips) schedule s = Some s' -> Inv ips K s'.
Proof.
  induction schedule as [|l schedule IH]; intros s s' Hs; cbn [run].
  - intros [= <-]. exact Hs.
  - destruct (step K (List.length ips) l s) as [s1|] eqn:E; [|discriminate].
    apply IH. eapply step_Inv; eassumption.
Qed.

End SessionInvariant.

Lemma countZ_probing_live ts : countZ is_probing ts <= countZ is_live ts.
Proof.
  induction ts as [|[a pc] ts IH]; cbn [countZ snd]; [lia|].
  destruct pc; cbn [is_probing is_live]; lia.
Qed.

Lemma all_finished_sent ts :
  countZ is_unfinished ts = 0 -> map ip (sent ts) = map fst ts.
Proof.
  induction ts as [|[a pc] ts IH]; [reflexivity|].
  cbn [countZ snd]. pose proof (countZ_nonneg is_unfinished ts) as Hn.
  destruct pc; cbn [is_unfinished]; try lia. intros H.
  change (sent ((a, Finished ok) :: ts)) with (mkResult a ok :: sent ts).
  cbn [map ip fst]. rewrite IH by lia. reflexivity.
Qed.

(** In a state that has returned, the two lists together are the input
    list up to order. *)
Lemma Inv_returns_partition ips K s :
  Inv ips K s -> main s = Returns ->
  Permutation (successIPs s ++ failedIPs s) ips.
Proof.
  intros [Hsem Hcap Hwg Hips Hres Hcloser Hclosed Hcwg Hret] Hm.
  destruct (Hret Hm) as [Hcl Hch]. rewrite Hch, app_nil_r in Hres.
  apply Hclosed in Hcl. specialize (Hcwg Hcl). rewrite Hm in Hwg, Hips.
  cbn [holds_wg pending] in Hwg, Hips. rewrite app_nil_r in Hips.
  apply (Permutation_map ip) in Hres.
  rewrite results_of_addresses, all_finished_sent in Hres by lia.
  now rewrite Hips in Hres.
Qed.

Lemma list_sum_app_weights l1 l2 :
  list_sum (map (fun t : string * TaskPC => task_weight (snd t)) (l1 ++ l2)) =
  (list_sum (map (fun t : string * TaskPC => task_weight (snd t)) l1) +
   list_sum (map (fun t : string * TaskPC => task_weight (snd t)) l2))%nat.
Proof. rewrite map_app. apply list_sum_app. Qed.

(** Every step takes one off the weight. *)
Lemma step_weight ips K l s s' :
  Inv ips K s -> step K (List.length ips) l s = Some s' ->
  weight s = S (weight s').
Proof.
  destruct s as [m ts sem ch cl w c su fa].
  intros [Hsem Hcap Hwg Hips Hres Hcloser Hclosed Hcwg Hret].
  cbn [main tasks semaphore resultChan resultClosed wg closer successIPs failedIPs] in *.
  destruct l as [| |i ok]; cbn [step].
  - unfold step_main.
    cbn [main tasks semaphore resultChan resultClosed wg closer successIPs failedIPs].
    destruct m as [[|a rest]|a rest|a rest| |].
    + intros [= <-].
      assert (Hc : c = NotStarted) by (apply Hcloser; reflexivity). subst c.
      unfold weight. cbn. lia.
    + intros [= <-]. unfold weight. cbn [main tasks resultChan closer main_weight List.length]. lia.
    + destruct (sem <? K); [|discriminate]. intros [= <-].
      unfold weight. cbn [main tasks resultChan closer main_weight]. lia.
    + intros [= <-]. unfold weight.
      cbn [main tasks resultChan closer main_weight].
      rewrite list_sum_app_weights. cbn. lia.
    + destruct ch as [|[a ok] more].
      * destruct cl; [|discriminate]. intros [= <-]. unfold weight. cbn. lia.
      * cbn [success]. destruct ok; intros [= <-]; unfold weight; cbn; lia.
    + discriminate.
  - unfold step_closer.
    cbn [main tasks semaphore resultChan resultClosed wg closer successIPs failedIPs].
    destruct c; try discriminate.
    destruct (w =? 0); [|discriminate]. intros [= <-].
    unfold weight. cbn [main tasks resultChan closer closer_weight]. lia.
  - unfold step_task.
    cbn [main tasks semaphore resultChan resultClosed wg closer successIPs failedIPs].
    destruct (nth_error ts i) as [[a pc]|] eqn:Hn; [|discriminate].
    destruct (task_split ts i a pc Hn) as (l1 & l2 & -> & Hset).
    destruct pc as [|b|b|b|b]; try discriminate.
    + intros [= <-]. rewrite Hset. unfold weight.
      cbn [main tasks resultChan closer]. rewrite !list_sum_app_weights. cbn. lia.
    + destruct (List.length ch <? List.length ips)%nat; [|discriminate].
      intros [= <-]. rewrite Hset. unfold weight.
      cbn [main tasks resultChan closer]. rewrite !list_sum_app_weights, length_app.
      cbn. lia.
    + destruct (0 <? sem); [|discriminate].
      intros [= <-]. rewrite Hset. unfold weight.
      cbn [main tasks resultChan closer]. rewrite !list_sum_app_weights. cbn. lia.
    + intros [= <-]. rewrite Hset. unfold weight.
      cbn [main tasks resultChan closer]. rewrite !list_sum_app_weights. cbn. lia.
Qed.

Lemma run_weight ips K schedule : forall s s',
  Inv ips K s -> run K (List.length ips) schedule s = Some s' ->
  weight s = (List.length schedule + weight s')%nat.
Proof.
  induction schedule as [|l schedule IH]; intros s s' Hs; cbn [run].
  - intros [= <-]. reflexivity.
  - destruct (step K (List.length ips) l s) as [s1|] eqn:E; [|discriminate].
    intros Hr. rewrite (step_weight ips K l s s1 Hs E).
    rewrite (IH s1 s' (step_Inv ips K l s s1 Hs E) Hr). reflexivity.
Qed.

(** A goroutine that has not finished can take its next step. *)
Lemma task_can_step ips K s i a pc :
  Inv ips K s -> nth_error (tasks s) i = Some (a, pc) ->
  is_unfinished pc = true ->
  exists s', step_task (List.length ips) i true s = Some s'.
Proof.
  destruct s as [m ts sem ch cl w c su fa].
  intros [Hsem Hcap Hwg Hips Hres Hcloser Hclosed Hcwg Hret] Hn Hpc.
  cbn [main tasks semaphore resultChan resultClosed wg closer successIPs failedIPs] in *.
  unfold step_task.
  cbn [main tasks semaphore resultChan resultClosed wg closer successIPs failedIPs].
  rewrite Hn.
  destruct (task_split ts i a pc Hn) as (l1 & l2 & -> & Hset).
  destruct pc as [|b|b|b|b]; try discriminate; try (eexists; reflexivity).
  - (* the result channel is not full *)
    assert (Hlen : (List.length ch < List.length ips)%nat).
    { apply Permutation_length in Hres. rewrite length_app in Hres.
      rewrite sent_app in Hres.
      change (sent ((a, Sending b) :: l2)) with (sent l2) in Hres.
      rewrite length_app in Hres.
      pose proof (sent_length l1). pose proof (sent_length l2).
      apply (f_equal (@List.length string)) in Hips.
      rewrite length_app, length_map, length_app in Hips. cbn [List.length] in Hips.
      lia. }
    apply Nat.ltb_lt in Hlen. rewrite Hlen. eexists; reflexivity.
  - (* the semaphore holds this goroutine's element *)
    assert (Hs : 0 < sem).
    { rewrite countZ_app in Hsem. cbn [countZ snd is_live] in Hsem.
      pose proof (countZ_nonneg is_live l1). pose proof (countZ_nonneg is_live l2).
      assert (0 <= holds_slot m) by (destruct m; cbn; lia). lia. }
    apply Z.ltb_lt in Hs. rewrite Hs. eexists; reflexivity.
Qed.

(** No deadlock: until the call returns, some goroutine can step. *)
Lemma Inv_progress ips K s :
  0 < K -> Inv ips K s -> main s <> Returns ->
  exists l s', step K (List.length ips) l s = Some s'.
Proof.
  intros K_pos HI Hm.
  pose proof HI as [Hsem Hcap Hwg Hips Hres Hcloser Hclosed Hcwg Hret].
  destruct (main s) as [[|a rest]|a rest|a rest| |] eqn:Em; try congruence.
  - exists StepMain. cbn [step]. unfold step_main. rewrite Em. eexists; reflexivity.
  - exists StepMain. cbn [step]. unfold step_main. rewrite Em. eexists; reflexivity.
  - destruct (Z.ltb_spec (semaphore s) K) as [Hlt|Hge].
    + exists StepMain. cbn [step]. unfold step_main. rewrite Em.
      apply Z.ltb_lt in Hlt. rewrite Hlt. eexists; reflexivity.
    + (* the semaphore is full: a goroutine holds a slot and can step *)
      cbn [holds_slot] in Hsem.
      destruct (countZ_pos is_live (tasks s)) as (i & a' & pc & Hn & Hl); [lia|].
      destruct (task_can_step ips K s i a' pc HI Hn) as (s' & Hs').
      { destruct pc; try reflexivity; discriminate. }
      exists (StepTask i true), s'. exact Hs'.
  - exists StepMain. cbn [step]. unfold step_main. rewrite Em. eexists; reflexivity.
  - destruct (resultChan s) as [|res more] eqn:Ech.
    + destruct (resultClosed s) eqn:Ecl.
      * exists StepMain. cbn [step]. unfold step_main. rewrite Em, Ech, Ecl.
        eexists; reflexivity.
      * assert (Hw : closer s = Waiting).
        { destruct (closer s) eqn:Ec; [| reflexivity |].
          - destruct Hcloser as [_ Hc2]. specialize (Hc2 eq_refl). discriminate.
          - destruct Hclosed as [_ Hc2]. specialize (Hc2 eq_refl). congruence. }
        destruct (Z.eqb_spec (wg s) 0) as [Hz|Hnz].
        -- exists StepCloser. cbn [step]. unfold step_closer. rewrite Hw, Hz.
           eexists; reflexivity.
        -- cbn [holds_wg] in Hwg.
           pose proof (countZ_nonneg is_unfinished (tasks s)).
           destruct (countZ_pos is_unfinished (tasks s)) as (i & a' & pc & Hn & Hl);
             [lia|].
           destruct (task_can_step ips K s i a' pc HI Hn Hl) as (s' & Hs').
           exists (StepTask i true), s'. exact Hs'.
    + exists StepMain. cbn [step]. unfold step_main. rewrite Em, Ech.
      destruct (success res); eexists; reflexivity.
Qed.

(** Every state of a run can be run on to the return. *)
Lemma Inv_completes ips K n : 0 < K -> forall s,
  weight s = n -> Inv ips K s ->
  exists schedule s',
    run K (List.length ips) schedule s = Some s' /\ main s' = Returns.
Proof.
  intros K_pos. induction n as [|n IH]; intros s Hw HI.
  - destruct (main s) eqn:Em; try (unfold weight in Hw; rewrite Em in Hw; cbn in Hw; lia).
    exists [], s. split; [reflexivity | assumption].
  - destruct (main s) eqn:Em;
      try (destruct (Inv_progress ips K s K_pos HI) as (l & s1 & Hs1); [congruence|];
           pose proof (step_weight ips K l s s1 HI Hs1) as Hw1;
           destruct (IH s1) as (schedule & s' & Hr & Hm);
             [lia | eapply step_Inv; eassumption |];
           exists (l :: schedule), s'; cbn [run]; rewrite Hs1; split; assumption).
    exists [], s. split; [reflexivity | assumption].
Qed.

Lemma run_app K n schedule1 : forall schedule2 s,
  run K n (schedule1 ++ schedule2) s =
    match run K n schedule1 s with
    | Some s1 => run K n schedule2 s1
    | None => None
    end.
Proof.
  induction schedule1 as [|l schedule1 IH]; intros schedule2 s; cbn [app run];
    [reflexivity|].
  destruct (step K n l s); [apply IH | reflexivity].
Qed.

Lemma NoDup_app_disjoint {A} (l1 l2 : list A) a :
  NoDup (l1 ++ l2) -> In a l1 -> In a l2 -> False.
Proof.
  induction l1 as [|x l1 IH]; cbn [app]; intros Hnd H1 H2; [destruct H1|].
  inversion Hnd as [|? ? Hnotin Hnd']; subst. destruct H1 as [->|H1].
  - apply Hnotin. apply in_or_app. right. exact H2.
  - exact (IH Hnd' H1 H2).
Qed.

Lemma weight_start ips : weight (start ips) = (8 * List.length ips + 3)%nat.
Proof. unfold weight, start. cbn. lia. Qed.

(** C8 as stated fails on a list that names an address twice: with the
    input [10.0.0.1, 10.0.0.1] and concurrency 1 there is a run of the
    session, the first probe succeeding and the second failing, that
    returns the address in both collections; and when both probes
    succeed the reachable collection holds the address twice. *)
Lemma repeated_address_in_both_collections :
  PingIPsWithConfig ["10.0.0.1"; "10.0.0.1"]%string 1 defaultPingConfig
    [StepMain; StepMain; StepMain;
     StepTask 0 true; StepTask 0 true; StepTask 0 true; StepTask 0 true;
     StepMain; StepMain; StepMain;
     StepTask 1 false; StepTask 1 false; StepTask 1 false; StepTask 1 false;
     StepMain; StepCloser; StepMain; StepMain; StepMain]
  = Some (Partition ["10.0.0.1"%string] ["10.0.0.1"%string]) /\
  PingIPsWithConfig ["10.0.0.1"; "10.0.0.1"]%string 1 defaultPingConfig
    [StepMain; StepMain; StepMain;
     StepTask 0 true; StepTask 0 true; StepTask 0 true; StepTask 0 true;
     StepMain; StepMain; StepMain;
     StepTask 1 true; StepTask 1 true; StepTask 1 true; StepTask 1 true;
     StepMain; StepCloser; StepMain; StepMain; StepMain]
  = Some (Partition ["10.0.0.1"; "10.0.0.1"]%string []).
Proof. split; vm_compute; reflexivity. Qed.

(** C8, amended: for every input address list and every concurrency
    > 0, the session returns (no run of its goroutines deadlocks, every
    run ends within 8 * len(ips) + 3 steps, and every unfinished run can
    be continued to the return), and the two returned lists together are
    a permutation of the input list: each occurrence of an address in
    the input appears exactly once in the output. When no address is
    repeated in the input, the output has no duplicates and every input
    address is in exactly one of the two collections. *)
Theorem session_partitions_input (ips : list string) (K : Z) (cfg : PingConfig) :
  0 < K ->
  (forall schedule s,
     run K (List.length ips) schedule (start ips) = Some s ->
     (List.length schedule <= 8 * List.length ips + 3)%nat /\
     exists more s',
       run K (List.length ips) (schedule ++ more) (start ips) = Some s' /\
       main s' = Returns) /\
  (exists schedule r u, PingIPsWithConfig ips K cfg schedule = Some (Partition r u)) /\
  (forall schedule r u,
     PingIPsWithConfig ips K cfg schedule = Some (Partition r u) ->
     Permutation (r ++ u) ips /\
     (NoDup ips ->
        NoDup (r ++ u) /\
        forall a, In a ips -> (In a r /\ ~ In a u) \/ (In a u /\ ~ In a r))).
Proof.
  intros K_pos.
  assert (Hruns : forall schedule s,
            run K (List.length ips) schedule (start ips) = Some s ->
            (List.length schedule <= 8 * List.length ips + 3)%nat /\
            exists more s',
              run K (List.length ips) (schedule ++ more) (start ips) = Some s' /\
              main s' = Returns).
  { intros schedule s Hr.
    pose proof (run_Inv ips K schedule _ _ (Inv_start ips K K_pos) Hr) as HI.
    pose proof (run_weight ips K schedule _ _ (Inv_start ips K K_pos) Hr) as Hw.
    rewrite weight_start in Hw. split; [lia|].
    destruct (Inv_completes ips K (weight s) K_pos s eq_refl HI) as (more & s' & Hr' & Hm).
    exists more, s'. rewrite run_app, Hr. split; assumption. }
  split; [exact Hruns|]. split.
  - unfold PingIPsWithConfig. destruct (Z.leb_spec K 0); [lia|].
    destruct (List.length ips =? 0)%nat; [exists [], [], []; reflexivity|].
    destruct (Hruns [] (start ips) eq_refl) as (_ & more & s' & Hr & Hm).
    cbn [app] in Hr. exists more, (successIPs s'), (failedIPs s').
    rewrite Hr, Hm. reflexivity.
  - intros schedule r u. unfold PingIPsWithConfig.
    destruct (Z.leb_spec K 0); [lia|].
    assert (Hperm : Permutation (r ++ u) ips ->
              Permutation (r ++ u) ips /\
              (NoDup ips ->
                 NoDup (r ++ u) /\
                 forall a, In a ips -> (In a r /\ ~ In a u) \/ (In a u /\ ~ In a r))).
    { intros Hp. split; [exact Hp|]. intros Hnd.
      assert (Hnd' : NoDup (r ++ u))
        by (eapply Permutation_NoDup; [apply Permutation_sym; exact Hp | exact Hnd]).
      split; [exact Hnd'|]. intros a Ha.
      apply (Permutation_in _ (Permutation_sym Hp)) in Ha.
      apply in_app_or in Ha as [Hr|Hu].
      - left. split; [exact Hr|]. intros Hu. exact (NoDup_app_disjoint r u a Hnd' Hr Hu).
      - right. split; [exact Hu|]. intros Hr. exact (NoDup_app_disjoint r u a Hnd' Hr Hu). }
    destruct (Nat.eqb_spec (List.length ips) 0) as [Hz|Hnz].
    + intros [= <- <-]. apply Hperm. destruct ips; [constructor | discriminate].
    + destruct (run K (List.length ips) schedule (start ips)) as [s|] eqn:Hr;
        [|discriminate].
      destruct (main s) eqn:Hm; try discriminate. intros [= <- <-].
      apply Hperm. apply (Inv_returns_partition ips K s); [|exact Hm].
      exact (run_Inv ips K schedule _ _ (Inv_start ips K K_pos) Hr).
Qed.

Lemma session_partitions_input_witness :
  0 < 2 /\
  forall schedule r u,
    PingIPsWithConfig ["10.0.0.1"; "10.0.0.2"]%string 2 defaultPingConfig schedule
      = Some (Partition r u) ->
    Permutation (r ++ u) ["10.0.0.1"; "10.0.0.2"]%string.
Proof.
  split; [lia|]. intros schedule r u H.
  exact (proj1 (proj2 (proj2
           (session_partitions_input ["10.0.0.1"; "10.0.0.2"]%string 2
              defaultPingConfig ltac:(lia))) schedule r u H)).
Defined.

(** C9: the session fails with the concurrency error exactly when the
    concurrency ceiling is <= 0, and then under every schedule, the
    empty one included: no goroutine has been started when it returns;
    on an empty address list with concurrency > 0 it returns two empty
    collections and no error. *)
Theorem session_rejects_bad_concurrency (ips : list string) (concurrency : Z)
    (cfg : PingConfig) (schedule : list label) :
  (concurrency <= 0 ->
     PingIPsWithConfig ips concurrency cfg schedule = Some InvalidConcurrency /\
     PingIPsWithConfig ips concurrency cfg [] = Some InvalidConcurrency) /\
  (forall res, PingIPsWithConfig ips concurrency cfg schedule = Some res ->
     (res = InvalidConcurrency <-> concurrency <= 0)) /\
  (0 < concurrency ->
     PingIPsWithConfig [] concurrency cfg schedule = Some (Partition [] [])).
Proof.
  unfold PingIPsWithConfig. split; [|split].
  - intros H. destruct (Z.leb_spec concurrency 0); [split; reflexivity | lia].
  - intros res. destruct (Z.leb_spec concurrency 0) as [Hle|Hgt].
    + intros [= <-]. split; [intros _; exact Hle | reflexivity].
    + destruct (List.length ips =? 0)%nat.
      * intros [= <-]. split; [discriminate | lia].
      * destruct (run concurrency (List.length ips) schedule (start ips)) as [s|];
          [|discriminate].
        destruct (main s); try discriminate.
        intros [= <-]. split; [discriminate | lia].
  - intros H. destruct (Z.leb_spec concurrency 0); [lia | reflexivity].
Qed.

Lemma session_rejects_bad_concurrency_witness :
  PingIPsWithConfig ["10.0.0.1"%string] 0 defaultPingConfig [StepMain]
    = Some InvalidConcurrency /\
  PingIPsWithConfig [] 20 defaultPingConfig [] = Some (Partition [] []).
Proof.
  split.
  - apply (proj1 (session_rejects_bad_concurrency ["10.0.0.1"%string] 0
                    defaultPingConfig [StepMain])). lia.
  - apply (proj2 (proj2 (session_rejects_bad_concurrency [] 20 defaultPingConfig []))).
    lia.
Defined.

(** C10: in every state that a session with concurrency ceiling K >= 1
    can reach, at most K goroutines are inside [pingRunner]: each holds
    one of the K elements of the semaphore channel, put there before the
    goroutine was started and taken out only after its result was sent. *)
Theorem at_most_K_probing (ips : list string) (K : Z) (schedule : list label)
    (s : Session) :
  1 <= K ->
  run K (List.length ips) schedule (start ips) = Some s ->
  countZ is_probing (tasks s) <= K /\
  countZ is_live (tasks s) <= semaphore s <= K.
Proof.
  intros HK Hr.
  assert (HI : Inv ips K s).
  { apply (run_Inv ips K schedule (start ips) s); [|exact Hr].
    apply Inv_start. lia. }
  destruct HI as [Hsem Hcap _ _ _ _ _ _ _].
  pose proof (countZ_probing_live (tasks s)).
  assert (0 <= holds_slot (main s)) by (destruct (main s); cbn; lia).
  lia.
Qed.

Lemma at_most_K_probing_witness :
  countZ is_probing
    [("10.0.0.1"%string, Probing); ("10.0.0.2"%string, Probing)] <= 2.
Proof.
  apply (at_most_K_probing ["10.0.0.1"; "10.0.0.2"; "10.0.0.3"]%string 2
           [StepMain; StepMain; StepMain; StepMain; StepMain; StepMain; StepMain]
           (mkSession (Acquire "10.0.0.3" [])
              [("10.0.0.1"%string, Probing); ("10.0.0.2"%string, Probing)]
              2 [] false 3 NotStarted [] [])).
  - lia.
  - vm_compute. reflexivity.
Defined.

(** ** More on [compareIP] and [incIP] *)

(** [compareIP] orders four-byte addresses as their 32-bit values: it
    answers 1, 0 or -1 as the first value is greater than, equal to or
    less than the second, 0 only for the same address, and swapping the
    arguments negates the answer. *)
Theorem compareIP_orders_by_value (a b : list Z) :
  ipv4_ok a -> ipv4_ok b ->
  (compareIP a b = 1 <-> uint32_of a > uint32_of b) /\
  (compareIP a b = 0 <-> uint32_of a = uint32_of b) /\
  (compareIP a b = -1 <-> uint32_of a < uint32_of b) /\
  (compareIP a b = 0 <-> a = b) /\
  compareIP b a = - compareIP a b.
Proof.
  intros Ha Hb.
  rewrite (compareIP_val a b Ha Hb), (compareIP_val b a Hb Ha).
  assert (Hinj : uint32_of a = uint32_of b <-> a = b).
  { split; [apply uint32_of_inj; assumption | intros ->; reflexivity]. }
  rewrite (Z.compare_antisym (uint32_of a) (uint32_of b)).
  destruct (Z.compare_spec (uint32_of a) (uint32_of b)) as [E|L|G]; cbn [CompOpp];
    repeat split; try lia; try discriminate; intros; try tauto;
    try (apply Hinj in H; lia).
Qed.

Lemma compareIP_orders_by_value_witness :
  (compareIP [10; 0; 1; 0] [10; 0; 0; 255] = 1 <->
     uint32_of [10; 0; 1; 0] > uint32_of [10; 0; 0; 255]) /\
  compareIP [10; 0; 0; 255] [10; 0; 1; 0] = - compareIP [10; 0; 1; 0] [10; 0; 0; 255].
Proof.
  assert (Ha : ipv4_ok [10; 0; 1; 0]) by (apply ipv4_ok_intro; unfold byte_ok; lia).
  assert (Hb : ipv4_ok [10; 0; 0; 255]) by (apply ipv4_ok_intro; unfold byte_ok; lia).
  pose proof (compareIP_orders_by_value [10; 0; 1; 0] [10; 0; 0; 255] Ha Hb)
    as (H1 & _ & _ & _ & H5).
  split; [exact H1 | exact H5].
Defined.

(** On a four-byte address [incIP] adds one to the 32-bit value that
    [parseIPRange] computes from the bytes, modulo 2^32: the result is
    again four bytes, and it is 0.0.0.0 exactly after 255.255.255.255. *)
Theorem incIP_is_successor (b : list Z) :
  ipv4_ok b ->
  ipv4_ok (incIP b) /\
  uint32_of (incIP b) = (uint32_of b + 1) mod 4294967296 /\
  (incIP b = [0; 0; 0; 0] <-> b = [255; 255; 255; 255]).
Proof.
  intros Hb. pose proof (incIP_ok b Hb) as Hi. pose proof (incIP_val b Hb) as Hv.
  split; [exact Hi|]. split; [exact Hv|].
  pose proof (uint32_of_range b Hb) as Hr.
  assert (H0 : ipv4_ok [0; 0; 0; 0]) by (apply ipv4_ok_intro; unfold byte_ok; lia).
  assert (Hm : ipv4_ok [255; 255; 255; 255]) by (apply ipv4_ok_intro; unfold byte_ok; lia).
  split.
  - intros E. apply uint32_of_inj; try assumption.
    rewrite E in Hv. change (uint32_of [0; 0; 0; 0]) with 0 in Hv.
    change (uint32_of [255; 255; 255; 255]) with 4294967295.
    destruct (Z.eq_dec (uint32_of b) 4294967295) as [|Hne]; [assumption|].
    rewrite Z.mod_small in Hv by lia. lia.
  - intros ->. reflexivity.
Qed.

Lemma incIP_is_successor_witness :
  ipv4_ok (incIP [10; 0; 0; 255]) /\
  uint32_of (incIP [10; 0; 0; 255]) = (uint32_of [10; 0; 0; 255] + 1) mod 4294967296.
Proof.
  assert (Hb : ipv4_ok [10; 0; 0; 255]) by (apply ipv4_ok_intro; unfold byte_ok; lia).
  pose proof (incIP_is_successor [10; 0; 0; 255] Hb) as (H1 & H2 & _).
  split; [exact H1 | exact H2].
Defined.

Lemma idx_middle p x suf : idx (p ++ x :: suf) (List.length p) = x.
Proof. unfold idx. induction p as [|h p IH]; cbn; [reflexivity | exact IH]. Qed.

Lemma set_idx_middle p x suf v :
  set_idx (p ++ x :: suf) (List.length p) v = p ++ v :: suf.
Proof. induction p as [|h p IH]; cbn; [reflexivity | now rewrite IH]. Qed.

Lemma be_value_snoc p x : be_value (p ++ [x]) = be_value p * 256 + x.
Proof. unfold be_value. rewrite fold_left_app. reflexivity. Qed.

Lemma be_value_range l :
  bytes_ok l -> 0 <= be_value l < 256 ^ Z.of_nat (List.length l).
Proof.
  induction l as [|x l IH] using rev_ind; intros Hl.
  - cbn. lia.
  - apply Forall_app in Hl as [Hl Hx]. inversion Hx as [|? ? Hbx _]; subst.
    specialize (IH Hl). unfold byte_ok in Hbx.
    rewrite be_value_snoc, length_app. cbn [List.length].
    replace (Z.of_nat (List.length l + 1)) with (Z.of_nat (List.length l) + 1) by lia.
    rewrite Z.pow_add_r by lia. change (256 ^ 1) with 256. nia.
Qed.

Lemma incIP_loop_prefix n : forall pre suf,
  List.length pre = n -> bytes_ok pre ->
  exists pre',
    incIP_loop n (pre ++ suf) = pre' ++ suf /\
    List.length pre' = n /\ bytes_ok pre' /\
    be_value pre' = (be_value pre + 1) mod 256 ^ Z.of_nat n.
Proof.
  induction n as [|n IH]; intros pre suf Hlen Hpre.
  - destruct pre; [|discriminate]. exists []. cbn. repeat split; constructor.
  - destruct (exists_last (l := pre)) as (p & x & ->);
      [intros ->; discriminate|].
    rewrite length_app in Hlen. cbn [List.length] in Hlen.
    assert (Hp : List.length p = n) by lia. subst n. clear Hlen.
    apply Forall_app in Hpre as [Hbp Hbx]. pose proof (Forall_inv Hbx) as Hx.
    pose proof (be_value_range p Hbp) as Hr.
    rewrite <- app_assoc. cbn [app incIP_loop].
    rewrite idx_middle, set_idx_middle, idx_middle.
    rewrite (byte_succ x Hx). unfold byte_ok in Hx.
    replace (Z.of_nat (S (List.length p))) with (Z.of_nat (List.length p) + 1) by lia.
    rewrite Z.pow_add_r by lia. change (256 ^ 1) with 256.
    destruct (Z.eqb_spec x 255) as [->|Hx255].
    + cbn [Z.eqb negb].
      destruct (IH p (0 :: suf) eq_refl Hbp) as (p' & Hrun & Hl' & Hb' & Hv').
      exists (p' ++ [0]). rewrite Hrun, <- app_assoc. cbn [app].
      split; [reflexivity|]. split; [rewrite !length_app; cbn; lia|].
      split; [apply Forall_app; split; [assumption|];
              constructor; [unfold byte_ok; lia | constructor]|].
      rewrite !be_value_snoc, Hv'.
      replace (be_value p * 256 + 255 + 1) with ((be_value p + 1) * 256) by lia.
      rewrite Z.mul_mod_distr_r by lia. lia.
    + destruct (Z.eqb_spec (x + 1) 0); [lia|]. cbn [negb].
      exists (p ++ [x + 1]). rewrite <- app_assoc. cbn [app].
      split; [reflexivity|]. split; [rewrite !length_app; cbn; lia|].
      split; [apply Forall_app; split; [assumption|];
              constructor; [unfold byte_ok; lia | constructor]|].
      rewrite !be_value_snoc. rewrite Z.mod_small by nia. lia.
Qed.

(** [incIP] is written for a slice of any length: it keeps the length,
    leaves bytes bytes, and adds one to the number the bytes denote (most
    significant byte first), modulo 256^len: the slice of all 255 wraps
    to all zeros. *)
Theorem incIP_any_length (l : list Z) :
  bytes_ok l ->
  List.length (incIP l) = List.length l /\
  bytes_ok (incIP l) /\
  be_value (incIP l) = (be_value l + 1) mod 256 ^ Z.of_nat (List.length l).
Proof.
  intros Hl. unfold incIP.
  destruct (incIP_loop_prefix (List.length l) l [] eq_refl Hl)
    as (l' & Hrun & Hlen & Hb & Hv).
  rewrite !app_nil_r in Hrun. rewrite Hrun. auto.
Qed.

Lemma incIP_any_length_witness :
  List.length (incIP [1; 255; 255; 255; 255; 255]) = 6%nat /\
  be_value (incIP [1; 255; 255; 255; 255; 255])
    = (be_value [1; 255; 255; 255; 255; 255] + 1) mod 256 ^ 6.
Proof.
  assert (Hb : bytes_ok [1; 255; 255; 255; 255; 255])
    by (repeat constructor; unfold byte_ok; lia).
  pose proof (incIP_any_length [1; 255; 255; 255; 255; 255] Hb) as (H1 & _ & H3).
  split; [exact H1 | exact H3].
Defined.

(** ** What the expander returns, whatever the fuel *)


Lemma cidr_loop_more_fuel fuel : forall ipNet current ips l fuel',
  cidr_loop fuel ipNet current ips = Returned l -> (fuel <= fuel')%nat ->
  cidr_loop fuel' ipNet current ips = Returned l.
Proof.
  induction fuel as [|fuel IH]; intros ipNet current ips l fuel' H Hle;
    [discriminate|].
  destruct fuel' as [|fuel']; [lia|]. cbn [cidr_loop] in *.
  destruct (Net.Contains ipNet current); [|exact H].
  apply (IH _ _ _ _ fuel' H). lia.
Qed.

Section Returned.

Context {go : GoText}.
Hypothesis go_ok : GoText_ok go.



Lemma parseCIDR_more_fuel fuel fuel' line l :
  parseCIDR fuel line = Returned l -> (fuel <= fuel')%nat ->
  parseCIDR fuel' line = Returned l.
Proof.
  unfold parseCIDR. destruct (ParseCIDR line) as [[ip ipNet]|]; [|discriminate].
  destruct (Net.To4 ip); [|discriminate].
  destruct (Net.Size (Net.net_Mask ipNet)) as [ones bits].
  destruct (negb (bits =? 32)); [discriminate|].
  destruct ((if (32 - ones) mod 2 ^ 64 <? 64
             then Z.shiftl 1 ((32 - ones) mod 2 ^ 64) else 0) >? 1000000);
    [discriminate|].
  intros H Hle. eapply cidr_loop_more_fuel; eassumption.
Qed.

End Returned.

(** The block of a CIDR line within the guard, as [parseCIDR] returns
    it. *)
Lemma parseCIDR_expands_any (go : GoText) (line : string) (a : list Z) (N : Z) :
  GoText_ok go -> cidr_line go line a N -> 13 <= N ->
  exists addrs,
    List.length addrs = Z.to_nat (2 ^ (32 - N)) /\
    forall fuel, (Z.to_nat (2 ^ (32 - N)) < fuel)%nat ->
      parseCIDR fuel line = Returned (map IPv4_String addrs).
Proof.
  intros Hgo Hl HN13.
  destruct (cidr_line_parts Hgo line a N Hl) as (ip & m & Hp & Ha4 & Ha & Hm).
  destruct (CIDRMask_facts N m Hm) as (HN & Hmok & Hmval & _).
  destruct (block_bounds a N Ha HN) as (Hpos & Hn0 & Hhi & Hlt).
  pose proof (map2_land_ok a m Ha Hmok) as Hnn.
  pose proof (uint32_of_range a Ha) as Hra.
  assert (En : uint32_of (map2 Z.land a m) = network_of a N).
  { rewrite uint32_of_land, Hmval by assumption.
    rewrite land_block_mask by lia. reflexivity. }
  set (n := Z.to_nat (2 ^ (32 - N))).
  assert (Hrun : forall fuel, (n < fuel)%nat ->
            exists addrs,
              cidr_loop fuel (Net.mkIPNet (map2 Z.land a m) m) (map2 Z.land a m) []
                = Returned ([] ++ map IPv4_String addrs) /\
              Forall ipv4_ok addrs /\
              map uint32_of addrs = Zseq (network_of a N) n).
  { intros fuel Hf.
    apply (cidr_loop_returns a m N n (network_of a N)); try assumption; try lia.
    rewrite En. symmetry. apply Z.mod_small. lia. }
  destruct (Hrun (S n) (Nat.lt_succ_diag_r n)) as (addrs & _ & Hok & Hvals).
  exists addrs.
  split; [rewrite <- (length_map uint32_of), Hvals; apply Zseq_length|].
  intros fuel Hf.
  destruct (parseCIDR_checks Hgo fuel line a N Hl) as (m' & Hm' & ->).
  assert (m' = m) by congruence. subst m'.
  destruct (Z.gtb_spec (2 ^ (32 - N)) 1000000) as [Hbig|_].
  { apply (prefix_small N HN) in HN13. lia. }
  destruct (Hrun fuel Hf) as (addrs' & -> & Hok' & Hvals'). cbn [app].
  do 2 f_equal. apply uint32_of_map_inj; congruence.
Qed.



(** [parseCIDR] always ends: with fuel for 524,289 iterations every line
    has either failed or returned, and a returned list never holds more
    than 524,288 addresses (the largest block under the guard of
    1,000,000 is a /13). *)
Theorem parseCIDR_always_ends (go : GoText) (line : string) :
  GoText_ok go ->
  (forall fuel, 524289 <= Z.of_nat fuel -> parseCIDR fuel line <> Running) /\
  (forall fuel l, parseCIDR fuel line = Returned l ->
     Z.of_nat (List.length l) <= 524288).
Proof.
  intros Hgo.
  assert (Hcases : forall fuel,
            (exists e, parseCIDR fuel line = Failed e) \/
            exists a N, cidr_line go line a N /\ 13 <= N).
  { intros fuel. destruct (parseCIDR_accepts Hgo fuel line) as [H|[H|(a & N & Hl)]].
    - left. eauto.
    - left. eauto.
    - destruct (cidr_line_parts Hgo line a N Hl) as (_ & m & _ & _ & _ & Hm).
      destruct (CIDRMask_facts N m Hm) as (HN & _).
      destruct (Z.lt_ge_cases N 13) as [Hlt|Hge].
      + left. exists CIDRTooLarge. apply (parseCIDR_too_large Hgo fuel line a N Hl).
        assert (2 ^ 20 <= 2 ^ (32 - N)) by (apply Z.pow_le_mono_r; lia).
        change (2 ^ 20) with 1048576 in *. lia.
      + right. exists a, N. auto. }
  assert (Hsize : forall N, 13 <= N <= 32 -> 0 < 2 ^ (32 - N) <= 524288).
  { intros N HN. split; [apply Z.pow_pos_nonneg; lia|].
    change 524288 with (2 ^ 19). apply Z.pow_le_mono_r; lia. }
  split.
  - intros fuel Hfuel. destruct (Hcases fuel) as [(e & ->)|(a & N & Hl & HN)];
      [discriminate|].
    destruct (cidr_line_parts Hgo line a N Hl) as (_ & m & _ & _ & _ & Hm).
    destruct (CIDRMask_facts N m Hm) as (HN32 & _).
    destruct (parseCIDR_expands_any go line a N Hgo Hl HN) as (addrs & _ & Hrun).
    rewrite Hrun; [discriminate|].
    pose proof (Hsize N ltac:(lia)). lia.
  - intros fuel l H. destruct (Hcases fuel) as [(e & He)|(a & N & Hl & HN)];
      [congruence|].
    destruct (cidr_line_parts Hgo line a N Hl) as (_ & m & _ & _ & _ & Hm).
    destruct (CIDRMask_facts N m Hm) as (HN32 & _).
    destruct (parseCIDR_expands_any go line a N Hgo Hl HN) as (addrs & Hlen & Hrun).
    pose proof (Hsize N ltac:(lia)) as Hs.
    assert (Hn : Z.of_nat (Z.to_nat (2 ^ (32 - N))) <= 524288) by lia.
    revert Hlen Hrun Hn. generalize (Z.to_nat (2 ^ (32 - N))) as n.
    intros n Hlen Hrun Hn.
    pose proof (Hrun (S (Nat.max n fuel)) ltac:(lia)) as Hbig.
    rewrite (parseCIDR_more_fuel fuel (S (Nat.max n fuel)) line l H ltac:(lia)) in Hbig.
    injection Hbig as ->. rewrite length_map, Hlen. lia.
Qed.

Lemma parseCIDR_always_ends_witness :
  (forall fuel, 524289 <= Z.of_nat fuel ->
     parseCIDR (go := DottedText) fuel "10.8.0.0/13" <> Running) /\
  (forall fuel l, parseCIDR (go := DottedText) fuel "10.8.0.0/13" = Returned l ->
     Z.of_nat (List.length l) <= 524288).
Proof.
  apply (parseCIDR_always_ends DottedText "10.8.0.0/13"). exact DottedText_ok.
Defined.

(** ** [ParseIPFile] *)

Section FileLines.

Context {go : GoText}.

Lemma moved_down_add n k e : moved_down n (moved_down k e) = moved_down (k + n) e.
Proof. destruct e; cbn [moved_down]; try reflexivity; f_equal; lia. Qed.

Ltac same_outcome :=
  cbn [moved_down app]; rewrite ?moved_down_add, <- ?app_assoc;
  first [reflexivity | do 2 f_equal; lia].

(** The loop adds to the list it was given, and the line number it
    starts from only shows in its errors. *)
Lemma scan_loop_shift fuel texts : forall n acc,
  scan_loop fuel texts n acc =
    match scan_loop fuel texts 0 [] with
    | FileReturned r => FileReturned (acc ++ r)
    | FileFailed e => FileFailed (moved_down n e)
    | FileRunning => FileRunning
    end.
Proof.
  induction texts as [|text rest IH]; intros n acc; cbn [scan_loop].
  - now rewrite app_nil_r.
  - destruct (is_empty (TrimSpace text) || prefix_of "#" (TrimSpace text)
              || prefix_of "//" (TrimSpace text)).
    { rewrite (IH (n + 1) acc), (IH (0 + 1) []).
      destruct (scan_loop fuel rest 0 []); same_outcome. }
    destruct (Contains (TrimSpace text) "/").
    { destruct (parseCIDR fuel (TrimSpace text)) as [ips|e|]; try same_outcome.
      rewrite (IH (n + 1) (acc ++ ips)), (IH (0 + 1) ([] ++ ips)).
      destruct (scan_loop fuel rest 0 []); same_outcome. }
    destruct (Contains (TrimSpace text) "-").
    { destruct (parseIPRange fuel (TrimSpace text)) as [ips|e|]; try same_outcome.
      rewrite (IH (n + 1) (acc ++ ips)), (IH (0 + 1) ([] ++ ips)).
      destruct (scan_loop fuel rest 0 []); same_outcome. }
    destruct (ParseIP (TrimSpace text)); [|same_outcome].
    rewrite (IH (n + 1) (acc ++ [TrimSpace text])), (IH (0 + 1) ([] ++ [TrimSpace text])).
    destruct (scan_loop fuel rest 0 []); same_outcome.
Qed.

Lemma scan_loop_app fuel pre : forall post n acc,
  scan_loop fuel (pre ++ post) n acc =
    match scan_loop fuel pre n acc with
    | FileReturned r => scan_loop fuel post (n + Z.of_nat (List.length pre)) r
    | other => other
    end.
Proof.
  induction pre as [|text rest IH]; intros post n acc; cbn [app scan_loop List.length].
  - now rewrite Z.add_0_r.
  - replace (n + Z.of_nat (S (List.length rest)))
      with (n + 1 + Z.of_nat (List.length rest)) by lia.
    destruct (is_empty (TrimSpace text) || prefix_of "#" (TrimSpace text)
              || prefix_of "//" (TrimSpace text)); [apply IH|].
    destruct (Contains (TrimSpace text) "/").
    { destruct (parseCIDR fuel (TrimSpace text)); try reflexivity. apply IH. }
    destruct (Contains (TrimSpace text) "-").
    { destruct (parseIPRange fuel (TrimSpace text)); try reflexivity. apply IH. }
    destruct (ParseIP (TrimSpace text)); [apply IH | reflexivity].
Qed.

Lemma scan_loop_any_line fuel texts n n' acc r :
  scan_loop fuel texts n acc = FileReturned r <->
  scan_loop fuel texts n' acc = FileReturned r.
Proof.
  rewrite (scan_loop_shift fuel texts n), (scan_loop_shift fuel texts n').
  destruct (scan_loop fuel texts 0 []); split; congruence.
Qed.

Lemma scan_loop_skips fuel texts : forall n acc r,
  scan_loop fuel (filter (fun t => negb (skipped go t)) texts) n acc = FileReturned r <->
  scan_loop fuel texts n acc = FileReturned r.
Proof.
  induction texts as [|text rest IH]; intros n acc r; [reflexivity|].
  cbn [filter]. unfold skipped at 1. cbn [scan_loop].
  destruct (is_empty (TrimSpace text) || prefix_of "#" (TrimSpace text)
            || prefix_of "//" (TrimSpace text)) eqn:Es; cbn [negb].
  - rewrite (IH n acc r). apply scan_loop_any_line.
  - cbn [scan_loop]. rewrite Es.
    destruct (Contains (TrimSpace text) "/").
    { destruct (parseCIDR fuel (TrimSpace text)); try reflexivity. apply IH. }
    destruct (Contains (TrimSpace text) "-").
    { destruct (parseIPRange fuel (TrimSpace text)); try reflexivity. apply IH. }
    destruct (ParseIP (TrimSpace text)); [apply IH | reflexivity].
Qed.

End FileLines.

(** The addresses of a file are those of its lines, in order: when two
    files expand to two lists, the file made of the lines of the first
    followed by the lines of the second expands to the first list
    followed by the second. *)
Theorem ParseIPFile_of_two_files (go : GoText) (fuel : nat)
    (texts1 texts2 : list string) (r1 r2 : list string) :
  ParseIPFile fuel (readable texts1) = FileReturned r1 ->
  ParseIPFile fuel (readable texts2) = FileReturned r2 ->
  ParseIPFile fuel (readable (texts1 ++ texts2)) = FileReturned (r1 ++ r2).
Proof.
  unfold ParseIPFile, readable. cbn [scanned scanErr].
  intros H1 H2. rewrite scan_loop_app.
  destruct (scan_loop fuel texts1 0 []) as [l1| |]; try discriminate.
  injection H1 as ->. rewrite scan_loop_shift.
  destruct (scan_loop fuel texts2 0 []) as [l2| |]; try discriminate.
  injection H2 as ->. reflexivity.
Qed.

Lemma ParseIPFile_of_two_files_witness :
  ParseIPFile (go := DottedText) 10
    (readable ["# first"; "10.0.0.1"; "10.1.0.0/31"; " 10.2.0.9 - 10.2.0.10 "]%string)
  = FileReturned (["10.0.0.1"%string]
                  ++ ["10.1.0.0"; "10.1.0.1"; "10.2.0.9"; "10.2.0.10"]%string).
Proof.
  apply (ParseIPFile_of_two_files DottedText 10
           ["# first"; "10.0.0.1"]%string
           ["10.1.0.0/31"; " 10.2.0.9 - 10.2.0.10 "]%string).
  - vm_compute. reflexivity.
  - vm_compute. reflexivity.
Defined.

(** Blank lines and comment lines (first non-blank characters [#] or
    [//]) add nothing: a file expands to a list exactly when the file
    without those lines expands to that list. *)
Theorem ParseIPFile_skips_comments (go : GoText) (fuel : nat)
    (texts : list string) (r : list string) :
  ParseIPFile fuel (readable texts) = FileReturned r <->
  ParseIPFile fuel (readable (filter (fun t => negb (skipped go t)) texts))
    = FileReturned r.
Proof.
  unfold ParseIPFile, readable. cbn [scanned scanErr].
  pose proof (scan_loop_skips fuel texts 0 []) as H.
  destruct (scan_loop fuel texts 0 []) as [a|e|] eqn:E1;
    destruct (scan_loop fuel (filter (fun t => negb (skipped go t)) texts) 0 [])
      as [b|e'|] eqn:E2;
    try (split; discriminate).
  - pose proof (proj2 (H a) eq_refl). split; congruence.
  - pose proof (proj2 (H a) eq_refl). discriminate.
  - pose proof (proj2 (H a) eq_refl). discriminate.
  - pose proof (proj1 (H b) eq_refl). discriminate.
  - pose proof (proj1 (H b) eq_refl). discriminate.
Qed.

Lemma ParseIPFile_skips_comments_witness :
  ParseIPFile (go := DottedText) 10
    (readable (filter (fun t => negb (skipped DottedText t))
                 ["# addresses"; ""; "10.0.0.1"; "  // none"; "10.0.0.2"]%string))
  = FileReturned ["10.0.0.1"; "10.0.0.2"]%string.
Proof.
  apply (proj1 (ParseIPFile_skips_comments DottedText 10
                  ["# addresses"; ""; "10.0.0.1"; "  // none"; "10.0.0.2"]%string
                  ["10.0.0.1"; "10.0.0.2"]%string)).
  vm_compute. reflexivity.
Defined.

(** Every line counts for the line numbers, and the first line that
    fails ends the call: when the lines before it expand and the line
    fails on its own as line 1, the file fails with the same error
    reported at the line's number, whatever follows the line and whether
    or not the read would have failed later; no list is returned. *)
Theorem ParseIPFile_first_failing_line (go : GoText) (fuel : nat)
    (before after : list string) (text : string) (r : list string)
    (e : FileError) (readErr : bool) :
  ParseIPFile fuel (readable before) = FileReturned r ->
  ParseIPFile fuel (readable [text]) = FileFailed e ->
  ParseIPFile fuel (Some (mkOpened (before ++ text :: after) readErr))
    = FileFailed (moved_down (Z.of_nat (List.length before)) e).
Proof.
  unfold ParseIPFile, readable. cbn [scanned scanErr].
  intros H1 H2. rewrite scan_loop_app.
  destruct (scan_loop fuel before 0 []) as [l1| |]; try discriminate.
  change (text :: after) with ([text] ++ after). rewrite scan_loop_app.
  rewrite scan_loop_shift.
  destruct (scan_loop fuel [text] 0 []) as [|e1|]; try discriminate.
  injection H2 as ->. reflexivity.
Qed.

Lemma ParseIPFile_first_failing_line_witness :
  ParseIPFile (go := DottedText) 10
    (Some (mkOpened (["# list"; "10.0.0.1"]%string
                     ++ "10.0.0.0/8"%string :: ["10.0.0.2"%string]) true))
  = FileFailed (moved_down (Z.of_nat (List.length ["# list"; "10.0.0.1"]%string))
                  (CIDRLineFailed 1 CIDRTooLarge)).
Proof.
  apply (ParseIPFile_first_failing_line DottedText 10
           ["# list"; "10.0.0.1"]%string ["10.0.0.2"%string] "10.0.0.0/8"
           ["10.0.0.1"%string] (CIDRLineFailed 1 CIDRTooLarge) true).
  - vm_compute. reflexivity.
  - vm_compute. reflexivity.
Defined.

(** ** More on the retry policy *)

(** With [remaining] the attempts still allowed, the check for the last
    attempt is the end of the loop. *)
Lemma retry_loop_next remaining i maxRetries successNeed stop probe s cf :
  i + Z.of_nat (S remaining) = maxRetries ->
  retry_loop (S remaining) i maxRetries successNeed stop probe s cf =
    if attempt_ok probe i then
      if s + 1 >=? successNeed then mkCampaign true (i + 1) SuccessThreshold
      else retry_loop remaining (i + 1) maxRetries successNeed stop probe (s + 1) 0
    else
      if cf + 1 >=? stop then mkCampaign false (i + 1) ConsecutiveFailures
      else retry_loop remaining (i + 1) maxRetries successNeed stop probe s (cf + 1).
Proof.
  intros Hsum. rewrite retry_loop_step.
  destruct (Z.eqb_spec i (maxRetries - 1)) as [E|N]; [|reflexivity].
  destruct remaining as [|remaining]; [reflexivity | lia].
Qed.

Lemma retry_loop_facts remaining : forall i s cf maxRetries need stop probe,
  s < need -> i + Z.of_nat remaining = maxRetries ->
  let c := retry_loop remaining i maxRetries need stop probe s cf in
  i <= taken c <= maxRetries /\
  (remaining <> O -> i + 1 <= taken c) /\
  (verdict c = true <-> exit c = SuccessThreshold) /\
  (exit c = Exhausted -> taken c = maxRetries) /\
  exit c <> NoAttempt.
Proof.
  induction remaining as [|remaining IH]; intros i s cf maxRetries need stop probe Hs Hsum.
  - cbn. destruct (Z.geb_spec s need); [lia|].
    repeat split; try lia; try discriminate; congruence.
  - cbv zeta. rewrite (retry_loop_next remaining i maxRetries need stop probe s cf Hsum).
    destruct (attempt_ok probe i).
    + destruct (Z.geb_spec (s + 1) need).
      * cbn. repeat split; try lia; try discriminate; congruence.
      * destruct (IH (i + 1) (s + 1) 0 maxRetries need stop probe) as (H1 & _ & H3 & H4 & H5);
          try lia.
        repeat split; try lia; try tauto.
    + destruct (Z.geb_spec (cf + 1) stop).
      * cbn. repeat split; try lia; try discriminate; congruence.
      * destruct (IH (i + 1) s (cf + 1) maxRetries need stop probe) as (H1 & _ & H3 & H4 & H5);
          try lia.
        repeat split; try lia; try tauto.
Qed.

Lemma effective_need_pos cfg : 1 <= effective_need cfg.
Proof. unfold effective_need. destruct (Z.leb_spec (SuccessNeed cfg) 0); lia. Qed.

(** A campaign takes at least one attempt and at most [MaxAttempts]
    (none when [MaxAttempts <= 0]); its verdict is reachable exactly when
    it ended by the success threshold, so a campaign that used up its
    attempts or met the consecutive failures is unreachable; and only a
    campaign that took all [MaxAttempts] attempts ends by exhaustion. *)
Theorem pingWithRetry_attempts_and_verdict (cfg : PingConfig) (probe : Probe) :
  0 <= taken (pingWithRetry_run cfg probe) <= Z.max 0 (MaxAttempts cfg) /\
  (0 < MaxAttempts cfg -> 1 <= taken (pingWithRetry_run cfg probe)) /\
  (verdict (pingWithRetry_run cfg probe) = true <->
     exit (pingWithRetry_run cfg probe) = SuccessThreshold) /\
  (exit (pingWithRetry_run cfg probe) = Exhausted ->
     taken (pingWithRetry_run cfg probe) = MaxAttempts cfg).
Proof.
  destruct (Z.le_gt_cases (MaxAttempts cfg) 0) as [Hle|Hgt].
  - unfold pingWithRetry_run. destruct (Z.leb_spec (MaxAttempts cfg) 0); [|lia].
    cbn. repeat split; try lia; discriminate.
  - rewrite pingWithRetry_run_loop by lia.
    pose proof (effective_need_pos cfg) as Hn.
    destruct (retry_loop_facts (Z.to_nat (MaxAttempts cfg)) 0 0 0 (MaxAttempts cfg)
                (effective_need cfg) (effective_stop cfg) probe)
      as (H1 & H2 & H3 & H4 & _); try lia.
    repeat split; try lia; try tauto.
Qed.

Lemma pingWithRetry_attempts_and_verdict_witness :
  1 <= taken (pingWithRetry_run defaultPingConfig (replay [false; true; false; true])) /\
  (verdict (pingWithRetry_run defaultPingConfig (replay [false; true; false; true])) = true <->
   exit (pingWithRetry_run defaultPingConfig (replay [false; true; false; true]))
     = SuccessThreshold).
Proof.
  pose proof (pingWithRetry_attempts_and_verdict defaultPingConfig
                (replay [false; true; false; true])) as (_ & H2 & H3 & _).
  split; [apply H2; cbn; lia | exact H3].
Defined.

Lemma retry_loop_step_taken remaining : forall i s cf maxRetries need stop probe,
  i <= taken (retry_loop remaining i maxRetries need stop probe s cf).
Proof.
  induction remaining as [|remaining IH]; intros i s cf maxRetries need stop probe;
    [cbn; lia|].
  rewrite retry_loop_step.
  destruct (attempt_ok probe i).
  - destruct (s + 1 >=? need); [cbn; lia|].
    destruct (i =? maxRetries - 1); [cbn; lia|].
    specialize (IH (i + 1) (s + 1) 0 maxRetries need stop probe). lia.
  - destruct (cf + 1 >=? stop); [cbn; lia|].
    destruct (i =? maxRetries - 1); [cbn; lia|].
    specialize (IH (i + 1) s (cf + 1) maxRetries need stop probe). lia.
Qed.

Lemma retry_loop_same_attempts remaining : forall i s cf maxRetries need stop probe probe',
  i + Z.of_nat remaining = maxRetries ->
  (forall j, i <= j < taken (retry_loop remaining i maxRetries need stop probe s cf) ->
     attempt_ok probe' j = attempt_ok probe j) ->
  retry_loop remaining i maxRetries need stop probe' s cf
    = retry_loop remaining i maxRetries need stop probe s cf.
Proof.
  induction remaining as [|remaining IH];
    intros i s cf maxRetries need stop probe probe' Hsum Hsame; [reflexivity|].
  rewrite (retry_loop_next remaining i maxRetries need stop probe s cf Hsum) in *.
  rewrite (retry_loop_next remaining i maxRetries need stop probe' s cf Hsum).
  assert (Hi : attempt_ok probe' i = attempt_ok probe i).
  { apply Hsame. split; [lia|].
    destruct (attempt_ok probe i).
    - destruct (s + 1 >=? need); [cbn; lia|].
      pose proof (retry_loop_step_taken remaining (i + 1) (s + 1) 0 maxRetries need stop probe).
      lia.
    - destruct (cf + 1 >=? stop); [cbn; lia|].
      pose proof (retry_loop_step_taken remaining (i + 1) s (cf + 1) maxRetries need stop probe).
      lia. }
  rewrite Hi. destruct (attempt_ok probe i).
  - destruct (s + 1 >=? need); [reflexivity|].
    apply IH; [lia|]. intros j Hj. apply Hsame. lia.
  - destruct (cf + 1 >=? stop); [reflexivity|].
    apply IH; [lia|]. intros j Hj. apply Hsame. lia.
Qed.

(** A campaign looks at no attempt beyond those it takes: two probes
    that agree on the attempts the first campaign took give the same
    verdict, after the same number of attempts, by the same rule. *)
Theorem pingWithRetry_decided_by_attempts_taken (cfg : PingConfig)
    (probe probe' : Probe) :
  (forall j, 0 <= j < taken (pingWithRetry_run cfg probe) ->
     attempt_ok probe' j = attempt_ok probe j) ->
  pingWithRetry_run cfg probe' = pingWithRetry_run cfg probe.
Proof.
  intros Hsame. destruct (Z.le_gt_cases (MaxAttempts cfg) 0) as [Hle|Hgt].
  - unfold pingWithRetry_run. destruct (Z.leb_spec (MaxAttempts cfg) 0); [reflexivity | lia].
  - rewrite !pingWithRetry_run_loop in * by lia.
    apply retry_loop_same_attempts; [lia | exact Hsame].
Qed.

Lemma pingWithRetry_decided_by_attempts_taken_witness :
  pingWithRetry_run defaultPingConfig (replay [true; true; false; false; false])
    = pingWithRetry_run defaultPingConfig (replay [true; true]).
Proof.
  apply (pingWithRetry_decided_by_attempts_taken defaultPingConfig
           (replay [true; true]) (replay [true; true; false; false; false])).
  change (taken (pingWithRetry_run defaultPingConfig (replay [true; true]))) with 2.
  intros j Hj. assert (Hc : j = 0 \/ j = 1) by lia.
  destruct Hc as [ -> | -> ]; reflexivity.
Defined.

Lemma retry_loop_counts remaining : forall (k : nat) cf maxRetries need stop probe,
  count_ok probe k < need -> 0 <= cf <= Z.of_nat k ->
  (forall j, Z.of_nat k - cf <= j < Z.of_nat k -> attempt_ok probe j = false) ->
  Z.of_nat k + Z.of_nat remaining = maxRetries ->
  let c := retry_loop remaining (Z.of_nat k) maxRetries need stop probe
             (count_ok probe k) cf in
  (exit c = SuccessThreshold ->
     count_ok probe (Z.to_nat (taken c)) = need /\
     attempt_ok probe (taken c - 1) = true) /\
  (exit c = ConsecutiveFailures ->
     0 < stop -> stop <= taken c /\
     forall j, taken c - stop <= j < taken c -> attempt_ok probe j = false) /\
  (exit c = Exhausted -> count_ok probe (Z.to_nat (taken c)) < need).
Proof.
  induction remaining as [|remaining IH];
    intros k cf maxRetries need stop probe Hs Hcf Hrun Hsum.
  - cbn. rewrite Nat2Z.id. repeat split; try discriminate. intros _. exact Hs.
  - cbv zeta.
    rewrite (retry_loop_next remaining (Z.of_nat k) maxRetries need stop probe _ cf Hsum).
    assert (Hk : Z.of_nat k + 1 = Z.of_nat (S k)) by lia.
    destruct (attempt_ok probe (Z.of_nat k)) eqn:Hok.
    + destruct (Z.geb_spec (count_ok probe k + 1) need) as [Hge|Hlt].
      * cbn [exit taken]. rewrite Hk, Nat2Z.id. cbn [count_ok]. rewrite Hok.
        repeat split; try discriminate; try lia.
        replace (Z.of_nat (S k) - 1) with (Z.of_nat k) by lia. exact Hok.
      * rewrite Hk.
        replace (count_ok probe k + 1) with (count_ok probe (S k))
          by (cbn [count_ok]; rewrite Hok; reflexivity).
        apply IH; try lia; try (cbn [count_ok]; rewrite Hok; lia).
    + destruct (Z.geb_spec (cf + 1) stop) as [Hge|Hlt].
      * cbn [exit taken]. repeat split; try discriminate; try lia.
        intros j Hj. destruct (Z.eq_dec j (Z.of_nat k)) as [->|Hne]; [exact Hok|].
        apply Hrun. lia.
      * rewrite Hk.
        assert (E : count_ok probe (S k) = count_ok probe k)
          by (cbn [count_ok]; rewrite Hok; lia).
        rewrite <- E.
        apply IH; try lia; try (cbn [count_ok]; rewrite Hok; lia).
        intros j Hj. destruct (Z.eq_dec j (Z.of_nat k)) as [->|Hne]; [exact Hok|].
        apply Hrun. lia.
Qed.

(** What the verdict of a campaign says of its attempts: a reachable
    verdict was given on a successful attempt that brought the number of
    successes to the success threshold; a campaign ended by the
    consecutive-failure rule had failed its last run of attempts, as many
    as the threshold; a campaign ended by exhaustion had fewer successes
    than the success threshold. *)
Theorem pingWithRetry_verdict_reads_attempts (cfg : PingConfig) (probe : Probe) :
  0 < MaxAttempts cfg ->
  (verdict (pingWithRetry_run cfg probe) = true ->
     count_ok probe (Z.to_nat (taken (pingWithRetry_run cfg probe)))
       = effective_need cfg /\
     attempt_ok probe (taken (pingWithRetry_run cfg probe) - 1) = true) /\
  (exit (pingWithRetry_run cfg probe) = ConsecutiveFailures ->
     effective_stop cfg <= taken (pingWithRetry_run cfg probe) /\
     forall j,
       taken (pingWithRetry_run cfg probe) - effective_stop cfg <= j
         < taken (pingWithRetry_run cfg probe) ->
       attempt_ok probe j = false) /\
  (exit (pingWithRetry_run cfg probe) = Exhausted ->
     count_ok probe (Z.to_nat (taken (pingWithRetry_run cfg probe)))
       < effective_need cfg).
Proof.
  intros Hgt.
  pose proof (pingWithRetry_run_loop cfg probe Hgt) as Erun.
  pose proof (effective_need_pos cfg) as Hn.
  assert (Hst : 0 < effective_stop cfg).
  { unfold effective_stop, math_MaxInt32.
    destruct (Z.leb_spec (ConsecutiveFailStop cfg) 0); lia. }
  destruct (retry_loop_counts (Z.to_nat (MaxAttempts cfg)) O 0 (MaxAttempts cfg)
              (effective_need cfg) (effective_stop cfg) probe)
    as (H1 & H2 & H3); try (cbn; lia).
  destruct (retry_loop_facts (Z.to_nat (MaxAttempts cfg)) 0 0 0 (MaxAttempts cfg)
              (effective_need cfg) (effective_stop cfg) probe)
    as (_ & _ & Hv & _); try lia.
  change (Z.of_nat 0) with 0 in *. change (count_ok probe 0) with 0 in *.
  rewrite Erun. split; [|split].
  - intros Ht. apply H1, Hv, Ht.
  - intros He. apply H2; assumption.
  - exact H3.
Qed.

Lemma pingWithRetry_verdict_reads_attempts_witness :
  count_ok (replay [false; true; false; true])
    (Z.to_nat (taken (pingWithRetry_run defaultPingConfig
                        (replay [false; true; false; true]))))
    = effective_need defaultPingConfig /\
  attempt_ok (replay [false; true; false; true])
    (taken (pingWithRetry_run defaultPingConfig (replay [false; true; false; true])) - 1)
    = true.
Proof.
  apply (proj1 (pingWithRetry_verdict_reads_attempts defaultPingConfig
                  (replay [false; true; false; true]) ltac:(cbn; lia))).
  reflexivity.
Defined.

Lemma retry_loop_more_successes remaining :
  forall i s s' cf cf' maxRetries need stop probe probe',
  (forall j, attempt_ok probe j = true -> attempt_ok probe' j = true) ->
  i + Z.of_nat remaining = maxRetries ->
  s <= s' -> s' < need -> 0 <= cf' <= cf ->
  verdict (retry_loop remaining i maxRetries need stop probe s cf) = true ->
  verdict (retry_loop remaining i maxRetries need stop probe' s' cf') = true /\
  taken (retry_loop remaining i maxRetries need stop probe' s' cf')
    <= taken (retry_loop remaining i maxRetries need stop probe s cf).
Proof.
  induction remaining as [|remaining IH];
    intros i s s' cf cf' maxRetries need stop probe probe' Hmore Hsum Hs Hs' Hcf.
  - cbn. destruct (Z.geb_spec s need); [lia | discriminate].
  - rewrite (retry_loop_next remaining i maxRetries need stop probe s cf Hsum).
    rewrite (retry_loop_next remaining i maxRetries need stop probe' s' cf' Hsum).
    pose proof (retry_loop_step_taken remaining (i + 1)) as Hlow.
    destruct (attempt_ok probe i) eqn:Hok.
    + rewrite (Hmore i Hok).
      destruct (Z.geb_spec (s + 1) need).
      * destruct (Z.geb_spec (s' + 1) need); [|lia]. cbn. intros _. split; [reflexivity | lia].
      * destruct (Z.geb_spec (s' + 1) need).
        -- intros _. cbn. split; [reflexivity|]. apply Hlow.
        -- apply IH; try assumption; lia.
    + destruct (Z.geb_spec (cf + 1) stop); [cbn; discriminate|].
      destruct (attempt_ok probe' i).
      * destruct (Z.geb_spec (s' + 1) need).
        -- intros _. cbn. split; [reflexivity|]. apply Hlow.
        -- apply IH; try assumption; lia.
      * destruct (Z.geb_spec (cf' + 1) stop); [lia|].
        apply IH; try assumption; lia.
Qed.

(** Successes never hurt: if every attempt that succeeds under one probe
    also succeeds under another, an address found reachable under the
    first is found reachable under the second, after no more attempts. *)
Theorem pingWithRetry_more_successes (cfg : PingConfig) (probe probe' : Probe) :
  (forall j, attempt_ok probe j = true -> attempt_ok probe' j = true) ->
  verdict (pingWithRetry_run cfg probe) = true ->
  verdict (pingWithRetry_run cfg probe') = true /\
  taken (pingWithRetry_run cfg probe') <= taken (pingWithRetry_run cfg probe).
Proof.
  intros Hmore. destruct (Z.le_gt_cases (MaxAttempts cfg) 0) as [Hle|Hgt].
  - unfold pingWithRetry_run. destruct (Z.leb_spec (MaxAttempts cfg) 0); [|lia].
    cbn. discriminate.
  - rewrite !pingWithRetry_run_loop by lia.
    pose proof (effective_need_pos cfg).
    apply retry_loop_more_successes; try assumption; lia.
Qed.

Lemma pingWithRetry_more_successes_witness :
  verdict (pingWithRetry_run defaultPingConfig (replay [true; true; false; true])) = true /\
  taken (pingWithRetry_run defaultPingConfig (replay [true; true; false; true]))
    <= taken (pingWithRetry_run defaultPingConfig (replay [false; true; false; true])).
Proof.
  apply (pingWithRetry_more_successes defaultPingConfig
           (replay [false; true; false; true]) (replay [true; true; false; true])).
  - intros j. unfold attempt_ok, replay. cbn [fst snd].
    destruct (Z.to_nat j) as [|[|[|[|n]]]]; cbn; try discriminate; try reflexivity.
    destruct n; discriminate.
  - reflexivity.
Defined.

(** ** [evaluatePingSequence] and [pingWithRetry] *)

Lemma replay_attempt outcomes (k : nat) :
  attempt_ok (replay outcomes) (Z.of_nat k) = nth k outcomes false.
Proof.
  unfold attempt_ok, replay. cbn [fst snd]. rewrite Nat2Z.id.
  destruct (nth k outcomes false); reflexivity.
Qed.

Lemma skipn_cons_nth {A} (d : A) k : forall l x rest,
  skipn k l = x :: rest -> nth k l d = x /\ skipn (S k) l = rest.
Proof.
  induction k as [|k IH]; intros [|y l] x rest H; try discriminate.
  - cbn in H. injection H as -> ->. split; reflexivity.
  - cbn [skipn] in H. destruct (IH l x rest H) as [H1 H2]. split; assumption.
Qed.

Lemma skipn_nil_nth {A} (d : A) k : forall l,
  skipn k l = [] -> nth k l d = d /\ skipn (S k) l = [].
Proof.
  induction k as [|k IH]; intros [|y l] H; try discriminate; try (split; reflexivity).
  cbn [skipn] in H. destruct (IH l H) as [H1 H2]. split; assumption.
Qed.

Lemma retry_loop_evaluates remaining : forall (k : nat) s cf maxRetries need stop outcomes,
  s < need -> Z.of_nat k + Z.of_nat remaining = maxRetries ->
  let c := retry_loop remaining (Z.of_nat k) maxRetries need stop (replay outcomes) s cf in
  let e := evaluate_loop (skipn k outcomes) maxRetries need stop
             (mkCounters s cf (Z.of_nat k)) in
  verdict c = fst e /\
  ((remaining <= List.length (skipn k outcomes))%nat -> taken c = attempts (snd e)).
Proof.
  induction remaining as [|remaining IH];
    intros k s cf maxRetries need stop outcomes Hs Hsum; cbv zeta.
  - cbn [retry_loop verdict taken].
    destruct (skipn k outcomes) as [|r rest]; cbn [evaluate_loop attempts successes fst snd].
    + split; reflexivity.
    + destruct (Z.geb_spec (Z.of_nat k) maxRetries); [|lia]. split; reflexivity.
  - rewrite (retry_loop_next remaining (Z.of_nat k) maxRetries need stop _ s cf Hsum).
    rewrite replay_attempt.
    assert (Hk : Z.of_nat k + 1 = Z.of_nat (S k)) by lia.
    destruct (skipn k outcomes) as [|r rest] eqn:Esk.
    + destruct (skipn_nil_nth false k outcomes Esk) as [-> Enext].
      cbn [evaluate_loop fst snd successes List.length].
      split; [|lia].
      destruct (Z.geb_spec (cf + 1) stop).
      * cbn. destruct (Z.geb_spec s need); [lia | reflexivity].
      * rewrite Hk.
        destruct (IH (S k) s (cf + 1) maxRetries need stop outcomes Hs ltac:(lia)) as [Hv _].
        rewrite Hv, Enext. reflexivity.
    + destruct (skipn_cons_nth false k outcomes r rest Esk) as [-> Enext].
      cbn [evaluate_loop attempts successes consecFails List.length].
      destruct (Z.geb_spec (Z.of_nat k) maxRetries); [lia|].
      destruct r.
      * destruct (Z.geb_spec (s + 1) need).
        -- cbn. split; [reflexivity | intros _; reflexivity].
        -- rewrite Hk.
           destruct (IH (S k) (s + 1) 0 maxRetries need stop outcomes ltac:(lia) ltac:(lia))
             as [Hv Ht].
           rewrite Enext in Hv, Ht. split; [exact Hv | intros Hl; apply Ht; lia].
      * destruct (Z.geb_spec (cf + 1) stop).
        -- cbn. split; [reflexivity | intros _; reflexivity].
        -- rewrite Hk.
           destruct (IH (S k) s (cf + 1) maxRetries need stop outcomes Hs ltac:(lia))
             as [Hv Ht].
           rewrite Enext in Hv, Ht. split; [exact Hv | intros Hl; apply Ht; lia].
Qed.

(** [pingWithRetry] on recorded outcomes is [evaluatePingSequence] with
    the thresholds [pingWithRetry] uses (a success threshold below 1 read
    as 1, a non-positive failure threshold as [math.MaxInt32]): the
    verdicts agree for every record, a record that ends early counting as
    failed attempts from there on; and when the record holds at least
    [MaxAttempts] outcomes, so do the numbers of attempts. *)
Theorem pingWithRetry_is_evaluatePingSequence (ip0 : string) (cfg : PingConfig)
    (outcomes : list bool) :
  pingWithRetry ip0 cfg (replay outcomes)
    = evaluatePingSequence outcomes (MaxAttempts cfg) (effective_need cfg)
        (effective_stop cfg) /\
  (MaxAttempts cfg <= Z.of_nat (List.length outcomes) ->
   taken (pingWithRetry_run cfg (replay outcomes))
     = attemptsTaken outcomes (MaxAttempts cfg) (effective_need cfg) (effective_stop cfg)).
Proof.
  unfold pingWithRetry, evaluatePingSequence, attemptsTaken.
  pose proof (effective_need_pos cfg) as Hn.
  destruct (Z.le_gt_cases (MaxAttempts cfg) 0) as [Hle|Hgt].
  - unfold pingWithRetry_run. destruct (Z.leb_spec (MaxAttempts cfg) 0); [|lia].
    cbn [verdict taken].
    destruct outcomes as [|r rest]; cbn [evaluate_loop attempts successes fst snd].
    + destruct (Z.geb_spec 0 (effective_need cfg)); [lia|]. split; reflexivity.
    + destruct (Z.geb_spec 0 (MaxAttempts cfg)); [|lia].
      destruct (Z.geb_spec 0 (effective_need cfg)); [lia|]. split; reflexivity.
  - rewrite pingWithRetry_run_loop by lia.
    destruct (retry_loop_evaluates (Z.to_nat (MaxAttempts cfg)) O 0 0 (MaxAttempts cfg)
                (effective_need cfg) (effective_stop cfg) outcomes)
      as [Hv Ht]; try (cbn; lia).
    cbn [skipn] in Hv, Ht. change (Z.of_nat 0) with 0 in Hv, Ht.
    split; [exact Hv|]. intros Hlen. apply Ht. lia.
Qed.

Lemma pingWithRetry_is_evaluatePingSequence_witness :
  taken (pingWithRetry_run defaultPingConfig (replay [true; false; false; true; false]))
    = attemptsTaken [true; false; false; true; false]
        (MaxAttempts defaultPingConfig) (effective_need defaultPingConfig)
        (effective_stop defaultPingConfig).
Proof.
  apply (proj2 (pingWithRetry_is_evaluatePingSequence "10.0.0.1" defaultPingConfig
                  [true; false; false; true; false])).
  cbn. lia.
Defined.

Lemma evaluate_loop_prefix results : forall maxAttempts need stop st,
  evaluate_loop results maxAttempts need stop st =
  evaluate_loop (firstn (Z.to_nat (maxAttempts - attempts st)) results)
    maxAttempts need stop st.
Proof.
  induction results as [|r rest IH]; intros maxAttempts need stop st.
  - now rewrite firstn_nil.
  - cbn [evaluate_loop].
    destruct (Z.geb_spec (attempts st) maxAttempts) as [Hge|Hlt].
    + replace (Z.to_nat (maxAttempts - attempts st)) with O by lia. reflexivity.
    + replace (Z.to_nat (maxAttempts - attempts st))
        with (S (Z.to_nat (maxAttempts - (attempts st + 1)))) by lia.
      cbn [firstn evaluate_loop].
      destruct (Z.geb_spec (attempts st) maxAttempts); [lia|].
      destruct r.
      * destruct (successes (mkCounters (successes st + 1) 0 (attempts st + 1)) >=? need);
          [reflexivity|].
        apply (IH maxAttempts need stop (mkCounters (successes st + 1) 0 (attempts st + 1))).
      * destruct (consecFails (mkCounters (successes st) (consecFails st + 1)
                                 (attempts st + 1)) >=? stop); [reflexivity|].
        apply (IH maxAttempts need stop
                 (mkCounters (successes st) (consecFails st + 1) (attempts st + 1))).
Qed.

Lemma evaluate_loop_attempts results : forall maxAttempts need stop st,
  attempts st <= attempts (snd (evaluate_loop results maxAttempts need stop st))
    <= Z.max (attempts st) (Z.min maxAttempts (attempts st + Z.of_nat (List.length results))).
Proof.
  induction results as [|r rest IH]; intros maxAttempts need stop st;
    cbn [evaluate_loop List.length].
  - cbn. lia.
  - destruct (Z.geb_spec (attempts st) maxAttempts); [cbn; lia|].
    destruct r.
    + destruct (successes (mkCounters (successes st + 1) 0 (attempts st + 1)) >=? need);
        [cbn; lia|].
      specialize (IH maxAttempts need stop (mkCounters (successes st + 1) 0 (attempts st + 1))).
      cbn [attempts] in IH. lia.
    + destruct (consecFails (mkCounters (successes st) (consecFails st + 1)
                               (attempts st + 1)) >=? stop); [cbn; lia|].
      specialize (IH maxAttempts need stop
                    (mkCounters (successes st) (consecFails st + 1) (attempts st + 1))).
      cbn [attempts] in IH. lia.
Qed.

(** [evaluatePingSequence] counts no more attempts than [maxAttempts]
    and no more than there are results, and it does not look at results
    past the first [maxAttempts]: cutting the list there changes neither
    the verdict nor the count. *)
Theorem evaluatePingSequence_looks_at_maxAttempts (results : list bool)
    (maxAttempts successNeed consecutiveFailStop : Z) :
  0 <= attemptsTaken results maxAttempts successNeed consecutiveFailStop
    <= Z.max 0 (Z.min maxAttempts (Z.of_nat (List.length results))) /\
  evaluatePingSequence (firstn (Z.to_nat maxAttempts) results)
    maxAttempts successNeed consecutiveFailStop
    = evaluatePingSequence results maxAttempts successNeed consecutiveFailStop /\
  attemptsTaken (firstn (Z.to_nat maxAttempts) results)
    maxAttempts successNeed consecutiveFailStop
    = attemptsTaken results maxAttempts successNeed consecutiveFailStop.
Proof.
  unfold evaluatePingSequence, attemptsTaken.
  pose proof (evaluate_loop_attempts results maxAttempts successNeed consecutiveFailStop
                (mkCounters 0 0 0)) as Ha.
  cbn [attempts] in Ha.
  rewrite (evaluate_loop_prefix results maxAttempts successNeed consecutiveFailStop
             (mkCounters 0 0 0)).
  cbn [attempts]. rewrite Z.sub_0_r.
  rewrite (evaluate_loop_prefix results maxAttempts successNeed consecutiveFailStop
             (mkCounters 0 0 0)) in Ha.
  cbn [attempts] in Ha. rewrite Z.sub_0_r in Ha.
  repeat split; lia.
Qed.

(** ** More on the classifier *)












(** ** More on the probe session *)

Lemma probe_result_app done : forall more i,
  probe_result (done ++ more) i =
    match probe_result done i with
    | Some b => Some b
    | None => probe_result more i
    end.
Proof.
  induction done as [|l done IH]; intros more i; cbn [app probe_result]; [reflexivity|].
  destruct l as [| |j ok]; try apply IH.
  destruct (j =? i)%nat; [reflexivity | apply IH].
Qed.

Lemma nth_error_set_task j : forall ts a pc pc' i,
  nth_error ts j = Some (a, pc) ->
  nth_error (set_task ts j pc') i =
    if (j =? i)%nat then Some (a, pc') else nth_error ts i.
Proof.
  induction j as [|j IH]; intros [|t ts] a pc pc' i H; try discriminate.
  - cbn in H. injection H as ->. destruct i; reflexivity.
  - cbn [nth_error] in H.
    change (set_task (t :: ts) (S j) pc') with (t :: set_task ts j pc').
    destruct i as [|i]; [reflexivity|]. cbn [nth_error Nat.eqb].
    exact (IH ts a pc pc' i H).
Qed.

Lemma nth_error_spawned {A} (ts : list A) t i :
  nth_error (ts ++ [t]) i =
    match nth_error ts i with
    | Some x => Some x
    | None => if (i =? List.length ts)%nat then Some t else None
    end.
Proof.
  revert i. induction ts as [|x ts IH]; intros [|i]; cbn [app nth_error List.length Nat.eqb];
    try reflexivity.
  - destruct i; reflexivity.
  - apply IH.
Qed.

Lemma records_none done s i :
  records done s -> nth_error (tasks s) i = None -> probe_result done i = None.
Proof. intros H Hn. specialize (H i). now rewrite Hn in H. Qed.

(** A step keeps the account: only the step that leaves [pingRunner]
    fixes a goroutine's result. *)
Lemma step_records K n l done s s' :
  records done s -> step K n l s = Some s' -> records (done ++ [l]) s'.
Proof.
  destruct s as [m ts sem ch cl w c su fa]. unfold records.
  cbn [tasks]. intros HR Hstep i. rewrite probe_result_app.
  destruct l as [| |j ok]; cbn [step] in Hstep.
  - cbn [probe_result]. unfold step_main in Hstep.
    cbn [main tasks semaphore resultChan resultClosed wg closer successIPs failedIPs]
      in Hstep.
    assert (Hsame : forall b : option bool, match b with Some x => Some x | None => None end = b)
      by (intros [|]; reflexivity).
    destruct m as [[|a rest]|a rest|a rest| |].
    + injection Hstep as <-. cbn [tasks]. rewrite Hsame. apply HR.
    + injection Hstep as <-. cbn [tasks]. rewrite Hsame. apply HR.
    + destruct (sem <? K); [|discriminate]. injection Hstep as <-.
      cbn [tasks]. rewrite Hsame. apply HR.
    + injection Hstep as <-. cbn [tasks]. rewrite Hsame, nth_error_spawned.
      rewrite (HR i). destruct (nth_error ts i) as [[a' pc']|]; [reflexivity|].
      destruct (i =? List.length ts)%nat; reflexivity.
    + destruct ch as [|res more].
      * destruct cl; [|discriminate]. injection Hstep as <-.
        cbn [tasks]. rewrite Hsame. apply HR.
      * destruct (success res); injection Hstep as <-; cbn [tasks];
          rewrite Hsame; apply HR.
    + discriminate.
  - cbn [probe_result]. unfold step_closer in Hstep.
    cbn [main tasks semaphore resultChan resultClosed wg closer successIPs failedIPs]
      in Hstep.
    destruct c; try discriminate. destruct (w =? 0); [|discriminate].
    injection Hstep as <-. cbn [tasks]. rewrite (HR i).
    destruct (nth_error ts i) as [[a' pc']|]; [|reflexivity].
    destruct (verdict_of pc'); reflexivity.
  - cbn [probe_result]. unfold step_task in Hstep.
    cbn [main tasks semaphore resultChan resultClosed wg closer successIPs failedIPs]
      in Hstep.
    destruct (nth_error ts j) as [[a pc]|] eqn:Hn; [|discriminate].
    pose proof (HR j) as Hj. rewrite Hn in Hj.
    assert (Hgoal : forall pc',
              verdict_of pc' = match verdict_of pc with Some b => Some b | None => Some ok end ->
              match probe_result done i with
              | Some b => Some b
              | None => if (j =? i)%nat then Some ok else None
              end =
              match nth_error (set_task ts j pc') i with
              | Some (_, pc0) => verdict_of pc0
              | None => None
              end).
    { intros pc' Hpc'. rewrite (nth_error_set_task j ts a pc pc' i Hn).
      destruct (Nat.eqb_spec j i) as [<-|Hne].
      - rewrite Hj, Hpc'. reflexivity.
      - rewrite (HR i). destruct (nth_error ts i) as [[a' pc0]|]; [|reflexivity].
        destruct (verdict_of pc0); reflexivity. }
    destruct pc as [|b|b|b|b]; try discriminate.
    + injection Hstep as <-. cbn [tasks]. apply Hgoal. reflexivity.
    + destruct (List.length ch <? n)%nat; [|discriminate].
      injection Hstep as <-. cbn [tasks]. apply Hgoal. reflexivity.
    + destruct (0 <? sem); [|discriminate].
      injection Hstep as <-. cbn [tasks]. apply Hgoal. reflexivity.
    + injection Hstep as <-. cbn [tasks]. apply Hgoal. reflexivity.
Qed.

Lemma run_records K n schedule : forall done s s',
  records done s -> run K n schedule s = Some s' -> records (done ++ schedule) s'.
Proof.
  induction schedule as [|l schedule IH]; intros done s s' HR; cbn [run].
  - intros [= <-]. now rewrite app_nil_r.
  - destruct (step K n l s) as [s1|] eqn:E; [|discriminate]. intros Hr.
    change (l :: schedule) with ([l] ++ schedule). rewrite app_assoc.
    exact (IH (done ++ [l]) s1 s' (step_records K n l done s s1 HR E) Hr).
Qed.

Lemma records_start ips : records [] (start ips).
Proof. intros i. cbn. destruct i; reflexivity. Qed.

Lemma filed_map b b' (l : list string) :
  flat_map (filed b) (map (fun a => mkResult a b') l) = if Bool.eqb b' b then l else [].
Proof.
  induction l as [|a l IH]; [destruct (Bool.eqb b' b); reflexivity|].
  cbn [map flat_map]. unfold filed at 1. cbn [success ip]. rewrite IH.
  destruct (Bool.eqb b' b); reflexivity.
Qed.

Lemma filed_results_of b r u :
  flat_map (filed b) (results_of r u) = if b then r else u.
Proof.
  unfold results_of. rewrite flat_map_app, !filed_map.
  destruct b; cbn [Bool.eqb]; [apply app_nil_r | reflexivity].
Qed.

Lemma filed_sent schedule b : forall ts i0,
  countZ is_unfinished ts = 0 ->
  (forall i, probe_result schedule (i0 + i) =
               match nth_error ts i with
               | Some (_, pc) => verdict_of pc
               | None => None
               end) ->
  flat_map (filed b) (sent ts) = probed schedule i0 (map fst ts) b.
Proof.
  induction ts as [|[a pc] ts IH]; intros i0 Hfin HR; [reflexivity|].
  cbn [countZ snd] in Hfin. pose proof (countZ_nonneg is_unfinished ts) as Hn.
  destruct pc as [|ok|ok|ok|ok]; cbn [is_unfinished] in Hfin; try lia.
  change (sent ((a, Finished ok) :: ts)) with (mkResult a ok :: sent ts).
  cbn [flat_map map fst probed].
  pose proof (HR O) as H0. rewrite Nat.add_0_r in H0. cbn [nth_error verdict_of] in H0.
  rewrite H0. unfold filed at 1. cbn [success ip]. f_equal.
  apply IH; [lia|]. intros i. specialize (HR (S i)).
  rewrite Nat.add_succ_r in HR. exact HR.
Qed.

(** The verdicts are filed under the right heading: of a session that
    returns, the reachable list holds, up to order, exactly the addresses
    whose [pingRunner] call returned [true], and the unreachable list
    exactly those whose call returned [false]; an address named twice is
    filed once for each of its two probes. *)
Theorem session_files_by_probe_result (ips : list string) (K : Z) (cfg : PingConfig)
    (schedule : list label) (reachable unreachable : list string) :
  0 < K ->
  PingIPsWithConfig ips K cfg schedule = Some (Partition reachable unreachable) ->
  Permutation reachable (probed schedule 0 ips true) /\
  Permutation unreachable (probed schedule 0 ips false).
Proof.
  intros K_pos. unfold PingIPsWithConfig.
  destruct (Z.leb_spec K 0); [lia|].
  destruct (Nat.eqb_spec (List.length ips) 0) as [Hz|Hnz].
  - intros [= <- <-]. destruct ips; [|discriminate]. split; constructor.
  - destruct (run K (List.length ips) schedule (start ips)) as [s|] eqn:Hr;
      [|discriminate].
    destruct (main s) eqn:Hm; try discriminate. intros [= <- <-].
    pose proof (run_Inv ips K schedule _ _ (Inv_start ips K K_pos) Hr) as HI.
    pose proof (run_records K _ schedule [] _ _ (records_start ips) Hr) as HR.
    cbn [app] in HR.
    destruct HI as [Hsem Hcap Hwg Hips Hres Hcloser Hclosed Hcwg Hret].
    destruct (Hret Hm) as [Hcl Hch]. rewrite Hch, app_nil_r in Hres.
    apply Hclosed in Hcl. specialize (Hcwg Hcl). rewrite Hm in Hwg, Hips.
    cbn [holds_wg pending] in Hwg, Hips. rewrite app_nil_r in Hips.
    assert (Hfin : countZ is_unfinished (tasks s) = 0) by lia.
    assert (Hb : forall b : bool,
              Permutation (if b then successIPs s else failedIPs s)
                (probed schedule 0 ips b)).
    { intros b. rewrite <- Hips.
      rewrite <- (filed_sent schedule b (tasks s) O Hfin HR).
      rewrite <- (filed_results_of b (successIPs s) (failedIPs s)).
      apply Permutation_flat_map. exact Hres. }
    split; [exact (Hb true) | exact (Hb false)].
Qed.

Lemma session_files_by_probe_result_witness :
  Permutation ["10.0.0.2"]%string
    (probed
       [StepMain; StepMain; StepMain; StepTask 0 false; StepTask 0 true;
        StepTask 0 true; StepTask 0 true;
        StepMain; StepMain; StepMain; StepTask 1 true; StepTask 1 false;
        StepTask 1 false; StepTask 1 false;
        StepMain; StepCloser; StepMain; StepMain; StepMain]
       0 ["10.0.0.1"; "10.0.0.2"]%string true) /\
  Permutation ["10.0.0.1"]%string
    (probed
       [StepMain; StepMain; StepMain; StepTask 0 false; StepTask 0 true;
        StepTask 0 true; StepTask 0 true;
        StepMain; StepMain; StepMain; StepTask 1 true; StepTask 1 false;
        StepTask 1 false; StepTask 1 false;
        StepMain; StepCloser; StepMain; StepMain; StepMain]
       0 ["10.0.0.1"; "10.0.0.2"]%string false).
Proof.
  apply (session_files_by_probe_result ["10.0.0.1"; "10.0.0.2"]%string 1
           defaultPingConfig); [lia | vm_compute; reflexivity].
Defined.

Lemma all_finished_each ts :
  countZ is_unfinished ts = 0 ->
  forall a pc, In (a, pc) ts -> exists b, pc = Finished b.
Proof.
  induction ts as [|[a' pc'] ts IH]; intros H a pc Hin; [destruct Hin|].
  cbn [countZ snd] in H. pose proof (countZ_nonneg is_unfinished ts) as Hn.
  destruct Hin as [Heq|Hin].
  - injection Heq as -> ->. destruct pc; cbn [is_unfinished] in H; try lia.
    eexists; reflexivity.
  - apply (IH ltac:(destruct (is_unfinished pc'); lia) a pc Hin).
Qed.

Lemma step_task_any_result n i ok ok' s :
  step_task n i ok s = None -> step_task n i ok' s = None.
Proof.
  unfold step_task. destruct (nth_error (tasks s) i) as [[a pc]|]; [|reflexivity].
  destruct pc; try discriminate; try (intros H; exact H).
Qed.

(** What the session never does, in any state a run of its goroutines
    reaches: the wait group's counter is never negative; the result
    channel is closed only when every goroutine has been launched and
    has finished, so none sends on the closed channel; and a goroutine
    that has not finished is never blocked, neither at its send (the
    result channel has room for every result) nor at its deferred
    receive from the semaphore. *)
Theorem session_never_panics_or_blocks (ips : list string) (K : Z)
    (schedule : list label) (s : Session) :
  0 < K ->
  run K (List.length ips) schedule (start ips) = Some s ->
  0 <= wg s /\
  0 <= semaphore s <= K /\
  (List.length (resultChan s) <= List.length ips)%nat /\
  (resultClosed s = true ->
     map fst (tasks s) = ips /\
     forall a pc, In (a, pc) (tasks s) -> exists b, pc = Finished b) /\
  (forall i a pc ok,
     nth_error (tasks s) i = Some (a, pc) -> is_unfinished pc = true ->
     step_task (List.length ips) i ok s <> None).
Proof.
  intros K_pos Hr.
  pose proof (run_Inv ips K schedule _ _ (Inv_start ips K K_pos) Hr) as HI.
  pose proof HI as [Hsem Hcap Hwg Hips Hres Hcloser Hclosed Hcwg Hret].
  pose proof (countZ_nonneg is_unfinished (tasks s)) as Hu.
  pose proof (countZ_nonneg is_live (tasks s)) as Hl.
  assert (Hhw : 0 <= holds_wg (main s)) by (destruct (main s); cbn; lia).
  assert (Hhs : 0 <= holds_slot (main s)) by (destruct (main s); cbn; lia).
  split; [lia|]. split; [lia|]. split.
  { apply Permutation_length in Hres. rewrite length_app in Hres.
    pose proof (sent_length (tasks s)) as Hs.
    apply (f_equal (@List.length string)) in Hips.
    rewrite length_app, length_map in Hips. lia. }
  split.
  - intros Hcl. apply Hclosed in Hcl. specialize (Hcwg Hcl).
    assert (Hnl : launching (main s) = false).
    { apply Bool.not_true_is_false. intros E. apply Hcloser in E. congruence. }
    split.
    + destruct (main s); try discriminate; cbn [pending] in Hips;
        now rewrite app_nil_r in Hips.
    + apply all_finished_each. lia.
  - intros i a pc ok Hn Hpc Hnone.
    apply (step_task_any_result _ _ _ true) in Hnone.
    destruct (task_can_step ips K s i a pc HI Hn Hpc) as (s' & Hs'). congruence.
Qed.

Lemma session_never_panics_or_blocks_witness :
  run 1 2 [StepMain; StepMain; StepMain; StepTask 0 false; StepTask 0 true; StepMain]
    (start ["10.0.0.1"; "10.0.0.2"]%string)
  = Some (mkSession (Acquire "10.0.0.2" []) [("10.0.0.1"%string, Releasing false)]
            1 [mkResult "10.0.0.1" false] false 2 NotStarted [] []) /\
  0 <= wg (mkSession (Acquire "10.0.0.2" []) [("10.0.0.1"%string, Releasing false)]
             1 [mkResult "10.0.0.1" false] false 2 NotStarted [] []) /\
  0 <= semaphore (mkSession (Acquire "10.0.0.2" []) [("10.0.0.1"%string, Releasing false)]
                    1 [mkResult "10.0.0.1" false] false 2 NotStarted [] []) <= 1.
Proof.
  assert (Hr : run 1 (List.length ["10.0.0.1"; "10.0.0.2"]%string)
                 [StepMain; StepMain; StepMain; StepTask 0 false; StepTask 0 true; StepMain]
                 (start ["10.0.0.1"; "10.0.0.2"]%string)
               = Some (mkSession (Acquire "10.0.0.2" [])
                         [("10.0.0.1"%string, Releasing false)]
                         1 [mkResult "10.0.0.1" false] false 2 NotStarted [] []))
    by (vm_compute; reflexivity).
  destruct (session_never_panics_or_blocks _ 1 _ _ ltac:(lia) Hr) as (H1 & H2 & _).
  split; [exact Hr|]. split; assumption.
Defined.
